(** * Articulation Scene Compiler: a shallow embedding of the Python backend

    The development follows the source files under [backend/app]:
    - [models/schemas.py]           : [Part], [Joint], [ArticulationData]
    - [services/glb_parser.py]      : the part-id sanitizer [_generate_unique_id]
    - [services/usd_builder.py]     : [USDBuilder] (stage, physics scene, mesh prims)
    - [services/physics_injector.py]: [PhysicsInjector] (root, bodies, colliders, joints)

    Python strings are modelled by [string] read as sequences of code points
    below 256 (the Latin-1 block of Unicode); Python floats by the kernel's
    binary64 floats, and the single-precision attributes of USD by the
    binary64 values of binary32 numbers; insertion-ordered dicts by
    association lists with distinct keys; the USD stage, which the code
    mutates in place, by an explicit store of prims threaded through a
    state-and-exception monad. *)

From Stdlib Require Import ZArith NArith List String Ascii Bool Lia.
From Stdlib Require Import PrimFloat FloatOps SpecFloat.
From stdpp Require Import base option list gmap strings pretty.

Open Scope string_scope.
Open Scope list_scope.

(** Decimal literals denote the nearest binary64 value, as in Python. *)
Set Warnings "-inexact-float".

(** ** Python string primitives *)

Module Py.

(** Code point of a character. *)
Definition ord (c : ascii) : N := N_of_ascii c.

Definition in_range (lo hi : N) (c : ascii) : bool :=
  ((lo <=? ord c) && (ord c <=? hi))%N.

Definition code_in (l : list N) (c : ascii) : bool :=
  existsb (N.eqb (ord c)) l.

(** [str.isdigit] on code points below 256: the ASCII digits and the
    superscripts two, three and one. *)
Definition isdigit (c : ascii) : bool :=
  in_range 48 57 c || code_in [178; 179; 185]%N c.

(** [str.isalpha] on code points below 256: the ASCII letters, the
    ordinal indicators, the micro sign and the accented Latin-1 letters. *)
Definition isalpha (c : ascii) : bool :=
  in_range 65 90 c || in_range 97 122 c || code_in [170; 181; 186]%N c
  || in_range 192 214 c || in_range 216 246 c || in_range 248 255 c.

(** [str.isalnum]: alphabetic, digit, or numeric (the vulgar fractions). *)
Definition isalnum (c : ascii) : bool :=
  isalpha c || isdigit c || in_range 188 190 c.

(** [str.lower] on one code point below 256. *)
Definition lower_char (c : ascii) : ascii :=
  if in_range 65 90 c || in_range 192 214 c || in_range 216 222 c
  then ascii_of_N (ord c + 32)
  else c.

Fixpoint map_chars (f : ascii -> ascii) (s : string) : string :=
  match s with
  | EmptyString => EmptyString
  | String c s' => String (f c) (map_chars f s')
  end.

(** [s.lower()] *)
Definition lower (s : string) : string := map_chars lower_char s.

Fixpoint forall_chars (p : ascii -> bool) (s : string) : bool :=
  match s with
  | EmptyString => true
  | String c s' => p c && forall_chars p s'
  end.

(** [sep not in s] for a one-character [sep]. *)
Definition no_char (sep : ascii) (s : string) : bool :=
  forall_chars (fun c => negb (Ascii.eqb c sep)) s.

(** [s.split(sep)] for a one-character separator: never the empty list. *)
Fixpoint split (sep : ascii) (s : string) : list string :=
  match s with
  | EmptyString => [EmptyString]
  | String c s' =>
      if Ascii.eqb c sep then EmptyString :: split sep s'
      else match split sep s' with
           | h :: t => String c h :: t
           | [] => [String c EmptyString]
           end
  end.

(** Truthiness of a string: [bool(s)]. *)
Definition truthy (s : string) : bool :=
  match s with EmptyString => false | _ => true end.

(** [sep.join(l)] *)
Definition join (sep : string) (l : list string) : string := String.concat sep l.

(** ['__' in s] *)
Fixpoint contains_dunder (s : string) : bool :=
  match s with
  | String c s' =>
      match s' with
      | String d _ => (Ascii.eqb c "_" && Ascii.eqb d "_") || contains_dunder s'
      | EmptyString => false
      end
  | EmptyString => false
  end.

(** [s.replace('__', '_')]: one left-to-right pass over non-overlapping
    occurrences. *)
Fixpoint replace_dunder (s : string) : string :=
  match s with
  | String c s' =>
      match s' with
      | String d s'' =>
          if Ascii.eqb c "_" && Ascii.eqb d "_"
          then String "_" (replace_dunder s'')
          else String c (replace_dunder s')
      | EmptyString => String c EmptyString
      end
  | EmptyString => EmptyString
  end.

(** [sub in s] *)
Fixpoint contains (sub s : string) : bool :=
  String.prefix sub s
  || match s with
     | String _ s' => contains sub s'
     | EmptyString => false
     end.

(** The characters of the class [[a-z0-9_]]. *)
Definition is_lower_id_char (c : ascii) : bool :=
  in_range 97 122 c || in_range 48 57 c || Ascii.eqb c "_".

Definition is_ascii_char (c : ascii) : bool := (ord c <? 128)%N.

(** [re.fullmatch("[a-z0-9_]+", s)] *)
Definition matches_lower_id (s : string) : bool :=
  truthy s && forall_chars is_lower_id_char s.

(** [while '__' in s: s = s.replace('__', '_')], run for at most [fuel]
    tests of its condition. *)
Fixpoint collapse_loop (fuel : nat) (s : string) : string :=
  match fuel with
  | O => s
  | S fuel' =>
      if contains_dunder s then collapse_loop fuel' (replace_dunder s) else s
  end.

(** Big-step reading of that loop, independent of any fuel. *)
Inductive while_dunder : string -> string -> Prop :=
| dunder_exit s : contains_dunder s = false -> while_dunder s s
| dunder_step s r :
    contains_dunder s = true -> while_dunder (replace_dunder s) r -> while_dunder s r.

End Py.

(** ** [glb_parser.py]: the part-id sanitizer *)

Module GLBParser.

(** The value of the local [sanitized] when the uniqueness loop starts:
    lower-case, every non-alphanumeric character turned into an
    underscore, empty pieces between underscores removed, ["part"] when
    nothing is left. *)
Definition sanitized (base_name : string) : string :=
  let s := Py.lower base_name in
  let s := Py.map_chars (fun c => if Py.isalnum c then c else "_"%char) s in
  let s := Py.join "_" (List.filter Py.truthy (Py.split "_" s)) in
  if negb (Py.truthy s) then "part" else s.

(** [f"{sanitized}_{counter}"] *)
Definition candidate (sanitized : string) (counter : N) : string :=
  sanitized +:+ "_" +:+ pretty counter.

(** The loop [while unique_name in used_names: ...], run for at most
    [fuel] tests of its condition. *)
Fixpoint unique_loop (fuel : nat) (sanitized : string) (used_names : gset string)
    (unique_name : string) (counter : N) : string :=
  match fuel with
  | O => unique_name
  | S fuel' =>
      if decide (unique_name ∈ used_names)
      then unique_loop fuel' sanitized used_names
             (candidate sanitized counter) (counter + 1)%N
      else unique_name
  end.

(** [_generate_unique_id]: the loop gets one more test than there are
    used names, which is enough for it to exit. *)
Definition _generate_unique_id (base_name : string) (used_names : gset string) : string :=
  let sanitized := sanitized base_name in
  unique_loop (S (size used_names)) sanitized used_names sanitized 1%N.

(** The ids handed out in turn by [_extract_parts_from_scene] and
    [get_all_mesh_data]: [part_id = self._generate_unique_id(name, used)]
    followed by [used.add(part_id)]. *)
Fixpoint assign_ids (names : list string) (used_names : gset string) : list string :=
  match names with
  | [] => []
  | name :: names' =>
      let part_id := _generate_unique_id name used_names in
      part_id :: assign_ids names' ({[part_id]} ∪ used_names)
  end.

(** Big-step reading of the same loop, independent of any fuel: from the
    loop state [(unique_name, counter)] the loop exits with the result. *)
Inductive while_in_used (sanitized : string) (used_names : gset string) :
    string -> N -> string -> Prop :=
| while_exit unique_name counter :
    unique_name ∉ used_names ->
    while_in_used sanitized used_names unique_name counter unique_name
| while_step unique_name counter r :
    unique_name ∈ used_names ->
    while_in_used sanitized used_names (candidate sanitized counter) (counter + 1)%N r ->
    while_in_used sanitized used_names unique_name counter r.

End GLBParser.

(** ** Insertion-ordered dictionaries *)

Module PyDict.

(** A Python [dict]: keys in insertion order, each key once. *)
Definition dict (V : Type) : Type := list (string * V).

Section Ops.
Context {V : Type}.

(** [d.get(k)] *)
Fixpoint get (d : dict V) (k : string) : option V :=
  match d with
  | [] => None
  | (k', v) :: d' => if String.eqb k' k then Some v else get d' k
  end.

(** [k in d] *)
Definition mem (k : string) (d : dict V) : bool :=
  match get d k with Some _ => true | None => false end.

(** [d[k] = v]: an existing key keeps its place. *)
Fixpoint set (d : dict V) (k : string) (v : V) : dict V :=
  match d with
  | [] => [(k, v)]
  | (k', v') :: d' =>
      if String.eqb k' k then (k', v) :: d' else (k', v') :: set d' k v
  end.

(** [list(d.keys())] and [list(d.values())] *)
Definition keys (d : dict V) : list string := map fst d.
Definition values (d : dict V) : list V := map snd d.

(** [bool(d)] *)
Definition truthy (d : dict V) : bool :=
  match d with [] => false | _ => true end.
End Ops.

End PyDict.

(** ** Single precision

    USD holds the attributes of type [float], [float3], [point3f] and
    [quatf] in binary32.  A Python float written to one of them is
    converted as C converts a [double] to a [float]: to the nearest
    binary32 number, ties to even, and to an infinity when it is out of
    range. *)

Module Float32.

Definition round (x : float) : float :=
  match Prim2SF x with
  | S754_finite s m e => SF2Prim (binary_normalize 24 128 (cond_Zopp s (Zpos m)) e s)
  | _ => x
  end.

End Float32.

(** Triples of floats: axes, anchors, vertices. *)
Definition vec3 : Type := float * float * float.

(** [Gf.Vec3f(float(x), float(y), float(z))] *)
Definition Vec3f (v : vec3) : vec3 :=
  let '(x, y, z) := v in (Float32.round x, Float32.round y, Float32.round z).

(** ** Paths

    Prim paths are handled as strings by the code and turned into
    [Sdf.Path] by the library.  A prim path is absolute and each of its
    names is an identifier: an ASCII letter or underscore followed by
    ASCII letters, digits and underscores.  These are the identifiers
    every release of USD accepts; a name outside the rule is taken as
    rejected. *)

Module Sdf.

Definition is_identifier_start (c : ascii) : bool :=
  Py.in_range 65 90 c || Py.in_range 97 122 c || Ascii.eqb c "_".

Definition is_identifier_char (c : ascii) : bool :=
  is_identifier_start c || Py.in_range 48 57 c.

(** [Sdf.Path.IsValidIdentifier] *)
Definition is_identifier (name : string) : bool :=
  match name with
  | EmptyString => false
  | String c rest => is_identifier_start c && Py.forall_chars is_identifier_char rest
  end.

(** The strings that denote the path of a prim. *)
Definition is_prim_path (path : string) : bool :=
  match path with
  | String "/" rest => forallb is_identifier (Py.split "/" rest)
  | _ => false
  end.

End Sdf.

(** ** [schemas.py] *)

Module Part.
(** [class Part(BaseModel)]; the [Literal] fields are the strings they
    are at run time. *)
Record t : Type := mk {
  id : string;
  name : string;
  type : string;
  role : string;
  mobility : string;
  mass : option float;
  density : option float;
  center_of_mass : option vec3;
  collision_type : string
}.

(** The values the [Literal] annotations admit. *)
Definition type_literal : list string := ["link"; "joint"; "base"; "tool"].
Definition role_literal : list string := ["actuator"; "support"; "gripper"; "sensor"; "other"].
Definition mobility_literal : list string := ["fixed"; "revolute"; "prismatic"].
Definition collision_type_literal : list string :=
  ["mesh"; "convexHull"; "convexDecomposition"; "none"].

Definition in_literal (l : list string) (s : string) : bool := existsb (String.eqb s) l.

(** Validation of the [Literal] fields, as done when a request is parsed. *)
Definition validate (p : t) : bool :=
  in_literal type_literal (type p) && in_literal role_literal (role p)
  && in_literal mobility_literal (mobility p)
  && in_literal collision_type_literal (collision_type p).
End Part.

Module Joint.
(** [class Joint(BaseModel)] *)
Record t : Type := mk {
  name : string;
  parent : string;
  child : string;
  type : string;
  axis : vec3;
  anchor : vec3;
  lower_limit : option float;
  upper_limit : option float;
  drive_stiffness : option float;
  drive_damping : option float;
  drive_max_force : option float;
  drive_type : string
}.

Definition type_literal : list string := ["fixed"; "revolute"; "prismatic"].
Definition drive_type_literal : list string := ["position"; "velocity"; "none"].

(** Validation of the [Literal] fields, as done when a request is parsed. *)
Definition validate (j : t) : bool :=
  Part.in_literal type_literal (type j) && Part.in_literal drive_type_literal (drive_type j).
End Joint.

Module ArticulationData.
(** [class ArticulationData(BaseModel)] *)
Record t : Type := mk {
  model_name : string;
  parts : list Part.t;
  joints : list Joint.t
}.

Definition validate (a : t) : bool :=
  forallb Part.validate (parts a) && forallb Joint.validate (joints a).
End ArticulationData.

(** ** The USD stage as the code uses it

    The [pxr] library is external to the repository.  A stage is modelled
    as a store of prims keyed by their path string; each operation has the
    effect the code relies on: [Define] authors a prim of the given type at
    a prim path (re-typing a prim that is already there and keeping what
    it holds) and fails on a string that is no prim path, [Apply] adds an
    API schema name to a prim, [Create...Attr] authors one attribute,
    [Create...Rel().SetTargets] one relationship whose targets are prim
    paths.  A prim is defined under a parent that is there, as the
    builder and the annotator do on the stages they make. *)

Module Usd.

Inductive Value : Type :=
| VBool (b : bool)
| VFloat (f : float)
| VToken (t : string)
| VVec3f (v : vec3)
| VQuatf (w x y z : float)
| VMatrix4d (m : list float)
| VVec3fArray (l : list vec3)
| VIntArray (l : list Z)
| VTokenArray (l : list string).

Record Prim : Type := mkPrim {
  typeName : string;
  apiSchemas : gset string;
  attributes : gmap string Value;
  relationships : gmap string (list string);
  metadata : gmap string string
}.

Record Stage : Type := mkStage {
  identifier : string;
  upAxis : string;
  metersPerUnit : float;
  defaultPrim : string;
  prims : gmap string Prim
}.

Definition new_prim (ty : string) : Prim := mkPrim ty ∅ ∅ ∅ ∅.

Definition set_typeName (ty : string) (p : Prim) : Prim :=
  mkPrim ty (apiSchemas p) (attributes p) (relationships p) (metadata p).
Definition add_api (api : string) (p : Prim) : Prim :=
  mkPrim (typeName p) ({[api]} ∪ apiSchemas p) (attributes p) (relationships p) (metadata p).
Definition set_attr (a : string) (v : Value) (p : Prim) : Prim :=
  mkPrim (typeName p) (apiSchemas p) (<[a := v]> (attributes p)) (relationships p) (metadata p).
Definition set_rel (r : string) (targets : list string) (p : Prim) : Prim :=
  mkPrim (typeName p) (apiSchemas p) (attributes p) (<[r := targets]> (relationships p)) (metadata p).
Definition set_meta (k v : string) (p : Prim) : Prim :=
  mkPrim (typeName p) (apiSchemas p) (attributes p) (relationships p) (<[k := v]> (metadata p)).

Definition with_prims (f : gmap string Prim -> gmap string Prim) (s : Stage) : Stage :=
  mkStage (identifier s) (upAxis s) (metersPerUnit s) (defaultPrim s) (f (prims s)).

(** [stage.GetPrimAtPath(path).IsValid()] *)
Definition is_valid (s : Stage) (path : string) : bool :=
  match prims s !! path with Some _ => true | None => false end.

(** [stage.GetPrimAtPath(path).IsA(T)] *)
Definition is_a (s : Stage) (path : string) (ty : string) : bool :=
  match prims s !! path with Some p => String.eqb (typeName p) ty | None => false end.

(** The stage with a prim of type [ty] authored at [path]. *)
Definition author (ty path : string) (s : Stage) : Stage :=
  with_prims (fun ps =>
    match ps !! path with
    | Some p => <[path := set_typeName ty p]> ps
    | None => <[path := new_prim ty]> ps
    end) s.

(** [T.Define(stage, path)]: no stage when the library rejects the path. *)
Definition Define (ty path : string) (s : Stage) : option Stage :=
  if Sdf.is_prim_path path then Some (author ty path s) else None.

(** [Usd.Stage.CreateNew(filepath)]: no prim, no default prim, and the
    fallbacks of the stage metadata. *)
Definition CreateNew (filepath : string) : Stage :=
  mkStage filepath "Y" 0.01%float "" ∅.

Definition set_upAxis (axis : string) (s : Stage) : Stage :=
  mkStage (identifier s) axis (metersPerUnit s) (defaultPrim s) (prims s).
Definition set_metersPerUnit (m : float) (s : Stage) : Stage :=
  mkStage (identifier s) (upAxis s) m (defaultPrim s) (prims s).
Definition set_defaultPrim (path : string) (s : Stage) : Stage :=
  mkStage (identifier s) (upAxis s) (metersPerUnit s) path (prims s).

(** [stage.GetDefaultPrim()]: the path of the default prim when a prim
    is there.  With none the prim is invalid and its path is the empty
    path, which [AppendChild] leaves empty and [Define] rejects. *)
Definition GetDefaultPrim (s : Stage) : option string :=
  if is_valid s (defaultPrim s) then Some (defaultPrim s) else None.

(** A single-precision attribute value. *)
Definition Float (x : float) : Value := VFloat (Float32.round x).
Definition Float3 (v : vec3) : Value := VVec3f (Vec3f v).

(** The 32-bit integers of an [int[]] attribute. *)
Definition is_int32 (z : Z) : bool := ((-2147483648 <=? z) && (z <=? 2147483647))%Z.

(** An edit of the prim at [path]; nothing happens at a path with no prim. *)
Definition edit (f : Prim -> Prim) (path : string) (s : Stage) : Stage :=
  with_prims (fun ps =>
    match ps !! path with
    | Some p => <[path := f p]> ps
    | None => ps
    end) s.

(** [path.AppendChild(name)], also written [f"{path}/{name}"] in the code. *)
Definition append_child (path name : string) : string := path +:+ "/" +:+ name.

(** Schema and attribute names as [UsdGeom] and [UsdPhysics] author them. *)
Definition Xform : string := "Xform".
Definition Mesh : string := "Mesh".
Definition PhysicsScene : string := "PhysicsScene".
Definition PhysicsRevoluteJoint : string := "PhysicsRevoluteJoint".
Definition PhysicsPrismaticJoint : string := "PhysicsPrismaticJoint".
Definition PhysicsFixedJoint : string := "PhysicsFixedJoint".
Definition ArticulationRootAPI : string := "PhysicsArticulationRootAPI".
Definition RigidBodyAPI : string := "PhysicsRigidBodyAPI".
Definition MassAPI : string := "PhysicsMassAPI".
Definition CollisionAPI : string := "PhysicsCollisionAPI".
Definition MeshCollisionAPI : string := "PhysicsMeshCollisionAPI".
Definition DriveAPI (drive_name : string) : string := "PhysicsDriveAPI:" +:+ drive_name.

Definition is_joint_type (ty : string) : bool :=
  String.eqb ty PhysicsRevoluteJoint || String.eqb ty PhysicsPrismaticJoint
  || String.eqb ty PhysicsFixedJoint.

End Usd.

(** ** Effects: the stage mutated in place, warnings logged, exceptions *)

Module Eff.

(** The exceptions of the code: its own [ValueError], the
    [Tf.ErrorException] of a library call that fails, and the
    [OverflowError] of a Python int that does not fit an array. *)
Inductive Exn : Type :=
| ValueError (msg : string)
| TfErrorException
| OverflowError.

Inductive Res (A : Type) : Type :=
| Ok (a : A)
| Raise (e : Exn).
Arguments Ok {A} a.
Arguments Raise {A} e.

(** A computation runs on the stage and returns or raises; it leaves the
    stage as it was at that point (what was written before an exception
    stays written) and the messages it handed to [logger.warning], in
    order.  [logger.info] calls leave no trace in the model. *)
Definition M (A : Type) : Type := Usd.Stage -> Res A * Usd.Stage * list string.

Definition ret {A} (a : A) : M A := fun s => (Ok a, s, []).
Definition bind {A B} (m : M A) (k : A -> M B) : M B :=
  fun s => match m s with
           | (Ok a, s', l) => let '(r, s'', l') := k a s' in (r, s'', l ++ l')
           | (Raise e, s', l) => (Raise e, s', l)
           end.
Definition raise {A} (e : Exn) : M A := fun s => (Raise e, s, []).
Definition get_stage : M Usd.Stage := fun s => (Ok s, s, []).
Definition modify_stage (f : Usd.Stage -> Usd.Stage) : M unit := fun s => (Ok tt, f s, []).
Definition warning (msg : string) : M unit := fun s => (Ok tt, s, [msg]).

(** [T.Define(stage, path)] *)
Definition define (ty path : string) : M unit :=
  fun s => match Usd.Define ty path s with
           | Some s' => (Ok tt, s', [])
           | None => (Raise TfErrorException, s, [])
           end.

(** [prim.Create...Rel().SetTargets([Sdf.Path(target)])] *)
Definition set_target (r target prim_path : string) : M unit :=
  fun s => if Sdf.is_prim_path target
           then (Ok tt, Usd.edit (Usd.set_rel r [target]) prim_path s, [])
           else (Raise TfErrorException, s, []).

(** [for x in l: body(x)] *)
Fixpoint for_each {A} (l : list A) (body : A -> M unit) : M unit :=
  match l with
  | [] => ret tt
  | x :: l' => bind (body x) (fun _ => for_each l' body)
  end.

(** [if c: body] *)
Definition when (c : bool) (body : M unit) : M unit := if c then body else ret tt.

(** [if o is not None: body(o)] *)
Definition when_some {A} (o : option A) (body : A -> M unit) : M unit :=
  match o with Some a => body a | None => ret tt end.

(** Observations of a finished run. *)
Definition result {A} (r : Res A * Usd.Stage * list string) : Res A := fst (fst r).
Definition final {A} (r : Res A * Usd.Stage * list string) : Usd.Stage := snd (fst r).
Definition warnings {A} (r : Res A * Usd.Stage * list string) : list string := snd r.
Definition succeeded {A} (r : Res A * Usd.Stage * list string) : bool :=
  match result r with Ok _ => true | Raise _ => false end.

End Eff.

Declare Scope eff_scope.
Delimit Scope eff_scope with eff.
Notation "x <- m ;; k" := (Eff.bind m (fun x => k))
  (at level 100, m at next level, right associativity) : eff_scope.
Notation "m ;;; k" := (Eff.bind m (fun _ => k))
  (at level 100, right associativity) : eff_scope.

Local Open Scope eff_scope.

(** ** [usd_builder.py] *)

Module USDBuilder.
Import Eff.

(** The instance state set by [__init__]. *)
Record t : Type := mk { output_dir : string }.

(** What [get_all_mesh_data] stores per part: [vertices], [faces], [normals]. *)
Record MeshData : Type := mkMeshData {
  vertices : list vec3;
  faces : list (Z * Z * Z);
  normals : option (list vec3)
}.

(** One entry of [part_info]: a dict with an ['id'] and further string
    fields (['name'], ['type'], ['role'], ['mobility']). *)
Record PartInfo : Type := mkPartInfo {
  id : string;
  fields : PyDict.dict string
}.

(** [_sanitize_prim_name] *)
Definition _sanitize_prim_name (name : string) : string :=
  let sanitized :=
    Py.map_chars (fun c => if Py.isalnum c || Ascii.eqb c "_" then c else "_"%char) name in
  let sanitized :=
    match sanitized with
    | String c _ => if Py.isdigit c then "_" +:+ sanitized else sanitized
    | EmptyString => sanitized
    end in
  let sanitized := if negb (Py.truthy sanitized) then "_unnamed" else sanitized in
  Py.collapse_loop (String.length sanitized) sanitized.

(** [create_stage]: the new stage with its up axis and units set and the
    root [Xform] as default prim, or the exception of [Define] when the
    sanitized model name is no identifier. *)
Definition create_stage (self : t) (filename model_name up_axis : string)
    (meters_per_unit : float) : Res unit * Usd.Stage * list string :=
  let filepath := output_dir self +:+ "/" +:+ filename in
  (modify_stage (Usd.set_upAxis (if String.eqb up_axis "Z" then "Z" else "Y")) ;;;
   modify_stage (Usd.set_metersPerUnit meters_per_unit) ;;;
   let root_path := "/" +:+ _sanitize_prim_name model_name in
   define Usd.Xform root_path ;;;
   modify_stage (Usd.set_defaultPrim root_path))
    (Usd.CreateNew filepath).

(** [add_physics_scene] *)
Definition add_physics_scene : M string :=
  stage <- get_stage ;;
  match Usd.GetDefaultPrim stage with
  | Some root =>
      let scene_path := Usd.append_child root "PhysicsScene" in
      define Usd.PhysicsScene scene_path ;;;
      modify_stage (Usd.edit (Usd.set_attr "physics:gravityDirection"
                                (Usd.Float3 (0, 0, -1)%float)) scene_path) ;;;
      modify_stage (Usd.edit (Usd.set_attr "physics:gravityMagnitude"
                                (Usd.Float 9.81%float)) scene_path) ;;;
      ret scene_path
  | None => raise TfErrorException
  end.

Definition flatten (faces : list (Z * Z * Z)) : list Z :=
  flat_map (fun '(a, b, c) => [a; b; c]) faces.

(** [add_mesh_prim]: points and normals are stored in single precision,
    [Vt.IntArray] takes 32-bit integers only. *)
Definition add_mesh_prim (parent_path name : string) (vertices : list vec3)
    (faces : list (Z * Z * Z)) (normals : option (list vec3))
    (transform : option (list float)) : M string :=
  let safe_name := _sanitize_prim_name name in
  let xform_path := parent_path +:+ "/" +:+ safe_name in
  define Usd.Xform xform_path ;;;
  when_some transform (fun m =>
    modify_stage (Usd.edit (Usd.set_attr "xformOpOrder"
                              (Usd.VTokenArray ["xformOp:transform"])) xform_path) ;;;
    modify_stage (Usd.edit (Usd.set_attr "xformOp:transform" (Usd.VMatrix4d m)) xform_path)) ;;;
  let mesh_path := xform_path +:+ "/mesh" in
  define Usd.Mesh mesh_path ;;;
  modify_stage (Usd.edit (Usd.set_attr "points" (Usd.VVec3fArray (map Vec3f vertices)))
                  mesh_path) ;;;
  modify_stage (Usd.edit (Usd.set_attr "faceVertexCounts"
                            (Usd.VIntArray (repeat 3%Z (length faces)))) mesh_path) ;;;
  (if forallb Usd.is_int32 (flatten faces) then ret tt else raise OverflowError) ;;;
  modify_stage (Usd.edit (Usd.set_attr "faceVertexIndices"
                            (Usd.VIntArray (flatten faces))) mesh_path) ;;;
  when_some normals (fun ns =>
    modify_stage (Usd.edit (Usd.set_attr "normals" (Usd.VVec3fArray (map Vec3f ns)))
                    mesh_path) ;;;
    modify_stage (Usd.edit (Usd.set_meta "normals:interpolation" "vertex") mesh_path)) ;;;
  modify_stage (Usd.edit (Usd.set_attr "subdivisionScheme" (Usd.VToken "none")) mesh_path) ;;;
  ret xform_path.

(** [{p['id']: p for p in part_info}] *)
Definition part_info_map (part_info : list PartInfo) : PyDict.dict PartInfo :=
  fold_left (fun m p => PyDict.set m (id p) p) part_info [].

(** [info = part_info_map.get(part_id, {'type': 'link'})] followed by
    [part_name = info.get('name', part_id)]. *)
Definition part_name (info_map : PyDict.dict PartInfo) (part_id : string) : string :=
  let info :=
    match PyDict.get info_map part_id with
    | Some p => ("id", id p) :: fields p
    | None => [("type", "link")]
    end in
  match PyDict.get info "name" with Some n => n | None => part_id end.

(** The loop [for part_id, data in mesh_data.items()], with the
    [part_paths] dict it fills. *)
Fixpoint add_parts (root_path : string) (info_map : PyDict.dict PartInfo)
    (items : list (string * MeshData)) (part_paths : PyDict.dict string)
    : M (PyDict.dict string) :=
  match items with
  | [] => ret part_paths
  | (part_id, data) :: items' =>
      let part_name := part_name info_map part_id in
      prim_path <- add_mesh_prim root_path part_name (vertices data) (faces data)
                     (normals data) None ;;
      add_parts root_path info_map items' (PyDict.set part_paths part_id prim_path)
  end.

(** [build_from_parts]: the stage and the [part_paths] it returns. *)
Definition build_from_parts (self : t) (filename model_name : string)
    (mesh_data : PyDict.dict MeshData) (part_info : list PartInfo)
    : Res (PyDict.dict string) * Usd.Stage * list string :=
  match create_stage self filename model_name "Z" 1%float with
  | (Ok _, stage, _) =>
      let root_path := Usd.defaultPrim stage in
      (add_physics_scene ;;;
       add_parts root_path (part_info_map part_info) mesh_data [])
        stage
  | (Raise e, stage, l) => (Raise e, stage, l)
  end.

(** [usd_builder = USDBuilder()] *)
Definition usd_builder : t := mk "outputs".

End USDBuilder.

(** ** [physics_injector.py] *)

Module PhysicsInjector.
Import Eff.

(** The instance state set by [__init__]. *)
Record t : Type := mk { default_density : float }.

(** [bool(x)] for a float: zero of either sign is false, NaN is true. *)
Definition float_truthy (x : float) : bool := negb (PrimFloat.eqb x 0).

(** [density or self.default_density] *)
Definition density_or_default (self : t) (density : option float) : float :=
  match density with
  | Some d => if float_truthy d then d else default_density self
  | None => default_density self
  end.

(** The guard [prim = stage.GetPrimAtPath(p); if not prim.IsValid(): raise]. *)
Definition get_valid_prim (prim_path : string) : M unit :=
  stage <- get_stage ;;
  if negb (Usd.is_valid stage prim_path)
  then raise (ValueError ("Prim not found: " +:+ prim_path))
  else ret tt.

(** [apply_articulation_root] *)
Definition apply_articulation_root (prim_path : string) : M unit :=
  get_valid_prim prim_path ;;;
  modify_stage (Usd.edit (Usd.add_api Usd.ArticulationRootAPI) prim_path).

(** [apply_rigid_body] *)
Definition apply_rigid_body (self : t) (prim_path : string) (is_kinematic : bool)
    (mass density : option float) (center_of_mass : option vec3) : M unit :=
  get_valid_prim prim_path ;;;
  modify_stage (Usd.edit (Usd.add_api Usd.RigidBodyAPI) prim_path) ;;;
  when is_kinematic
    (modify_stage (Usd.edit (Usd.set_attr "physics:kinematicEnabled" (Usd.VBool true))
                     prim_path)) ;;;
  modify_stage (Usd.edit (Usd.add_api Usd.MassAPI) prim_path) ;;;
  match mass with
  | Some m =>
      modify_stage (Usd.edit (Usd.set_attr "physics:mass" (Usd.Float m)) prim_path)
  | None =>
      modify_stage (Usd.edit (Usd.set_attr "physics:density"
                                (Usd.Float (density_or_default self density))) prim_path)
  end ;;;
  when_some center_of_mass (fun com =>
    modify_stage (Usd.edit (Usd.set_attr "physics:centerOfMass" (Usd.Float3 com)) prim_path)).

(** [apply_collision] *)
Definition apply_collision (prim_path collision_type : string) : M unit :=
  get_valid_prim prim_path ;;;
  modify_stage (Usd.edit (Usd.add_api Usd.CollisionAPI) prim_path) ;;;
  stage <- get_stage ;;
  when (Usd.is_a stage prim_path Usd.Mesh)
    (modify_stage (Usd.edit (Usd.add_api Usd.MeshCollisionAPI) prim_path) ;;;
     if String.eqb collision_type "convexHull" then
       modify_stage (Usd.edit (Usd.set_attr "physics:approximation"
                                 (Usd.VToken "convexHull")) prim_path)
     else if String.eqb collision_type "convexDecomposition" then
       modify_stage (Usd.edit (Usd.set_attr "physics:approximation"
                                 (Usd.VToken "convexDecomposition")) prim_path)
     else
       modify_stage (Usd.edit (Usd.set_attr "physics:approximation"
                                 (Usd.VToken "none")) prim_path)).

(** Python's [a >= b] on floats. *)
Definition ge (a b : float) : bool := PrimFloat.leb b a.

(** [_axis_to_token] *)
Definition _axis_to_token (axis : vec3) : string :=
  let '(a0, a1, a2) := axis in
  let x := PrimFloat.abs a0 in
  let y := PrimFloat.abs a1 in
  let z := PrimFloat.abs a2 in
  if ge x y && ge x z then "X"
  else if ge y x && ge y z then "Y"
  else "Z".

(** [_sanitize_name] *)
Definition _sanitize_name (name : string) : string :=
  let sanitized :=
    Py.map_chars (fun c => if Py.isalnum c || Ascii.eqb c "_" then c else "_"%char) name in
  let sanitized :=
    match sanitized with
    | String c _ => if Py.isdigit c then "_" +:+ sanitized else sanitized
    | EmptyString => sanitized
    end in
  let sanitized := if negb (Py.truthy sanitized) then "_unnamed" else sanitized in
  Py.collapse_loop (String.length sanitized) sanitized.

(** [_apply_joint_drive] *)
Definition _apply_joint_drive (joint_prim drive_type : string)
    (stiffness damping max_force : option float) (is_angular : bool) : M unit :=
  let drive_name := if is_angular then "angular" else "linear" in
  let attr a := "drive:" +:+ drive_name +:+ ":physics:" +:+ a in
  modify_stage (Usd.edit (Usd.add_api (Usd.DriveAPI drive_name)) joint_prim) ;;;
  (if String.eqb drive_type "position"
   then modify_stage (Usd.edit (Usd.set_attr (attr "type") (Usd.VToken "force")) joint_prim)
   else modify_stage (Usd.edit (Usd.set_attr (attr "type") (Usd.VToken "force")) joint_prim)) ;;;
  when_some stiffness (fun v =>
    modify_stage (Usd.edit (Usd.set_attr (attr "stiffness") (Usd.Float v)) joint_prim)) ;;;
  when_some damping (fun v =>
    modify_stage (Usd.edit (Usd.set_attr (attr "damping") (Usd.Float v)) joint_prim)) ;;;
  when_some max_force (fun v =>
    modify_stage (Usd.edit (Usd.set_attr (attr "maxForce") (Usd.Float v)) joint_prim)) ;;;
  if String.eqb drive_type "position"
  then modify_stage (Usd.edit (Usd.set_attr (attr "targetPosition") (Usd.VFloat 0)) joint_prim)
  else if String.eqb drive_type "velocity"
  then modify_stage (Usd.edit (Usd.set_attr (attr "targetVelocity") (Usd.VFloat 0)) joint_prim)
  else ret tt.

(** The opening of the three joint constructors: the container path,
    [root/Joints] unless one is given, created when it is not there. *)
Definition joints_parent (joints_parent_path : option string) : M string :=
  match joints_parent_path with
  | Some p => ret p
  | None =>
      stage <- get_stage ;;
      match Usd.GetDefaultPrim stage with
      | Some root =>
          let p := Usd.append_child root "Joints" in
          when (negb (Usd.is_valid stage p)) (define Usd.Xform p) ;;;
          ret p
      | None => raise TfErrorException
      end
  end.

(** Body relationships and the identity local frames, common to the
    three joint constructors. *)
Definition set_bodies (joint_path parent_path child_path : string) : M unit :=
  set_target "physics:body0" parent_path joint_path ;;;
  set_target "physics:body1" child_path joint_path.

Definition set_local_poses (joint_path : string) : M unit :=
  modify_stage (Usd.edit (Usd.set_attr "physics:localPos0" (Usd.VVec3f (0, 0, 0)%float)) joint_path) ;;;
  modify_stage (Usd.edit (Usd.set_attr "physics:localPos1" (Usd.VVec3f (0, 0, 0)%float)) joint_path) ;;;
  modify_stage (Usd.edit (Usd.set_attr "physics:localRot0" (Usd.VQuatf 1 0 0 0)) joint_path) ;;;
  modify_stage (Usd.edit (Usd.set_attr "physics:localRot1" (Usd.VQuatf 1 0 0 0)) joint_path).

Definition set_limits (joint_path : string) (lower_limit upper_limit : option float) : M unit :=
  when_some lower_limit (fun v =>
    modify_stage (Usd.edit (Usd.set_attr "physics:lowerLimit" (Usd.Float v)) joint_path)) ;;;
  when_some upper_limit (fun v =>
    modify_stage (Usd.edit (Usd.set_attr "physics:upperLimit" (Usd.Float v)) joint_path)).

(** [drive_type != "none" and drive_stiffness is not None] *)
Definition driven (drive_type : string) (drive_stiffness : option float) : bool :=
  negb (String.eqb drive_type "none")
  && match drive_stiffness with Some _ => true | None => false end.

(** [create_revolute_joint] *)
Definition create_revolute_joint (joint_name parent_path child_path : string)
    (axis : vec3) (lower_limit upper_limit : option float)
    (drive_stiffness drive_damping drive_max_force : option float)
    (drive_type : string) (joints_parent_path : option string) : M string :=
  joints_parent_path <- joints_parent joints_parent_path ;;
  let joint_path := joints_parent_path +:+ "/" +:+ _sanitize_name joint_name in
  define Usd.PhysicsRevoluteJoint joint_path ;;;
  set_bodies joint_path parent_path child_path ;;;
  modify_stage (Usd.edit (Usd.set_attr "physics:axis" (Usd.VToken (_axis_to_token axis)))
                  joint_path) ;;;
  set_limits joint_path lower_limit upper_limit ;;;
  set_local_poses joint_path ;;;
  when (driven drive_type drive_stiffness)
    (_apply_joint_drive joint_path drive_type drive_stiffness drive_damping
       drive_max_force true) ;;;
  ret joint_path.

(** [create_prismatic_joint] *)
Definition create_prismatic_joint (joint_name parent_path child_path : string)
    (axis : vec3) (lower_limit upper_limit : option float)
    (drive_stiffness drive_damping drive_max_force : option float)
    (drive_type : string) (joints_parent_path : option string) : M string :=
  joints_parent_path <- joints_parent joints_parent_path ;;
  let joint_path := joints_parent_path +:+ "/" +:+ _sanitize_name joint_name in
  define Usd.PhysicsPrismaticJoint joint_path ;;;
  set_bodies joint_path parent_path child_path ;;;
  modify_stage (Usd.edit (Usd.set_attr "physics:axis" (Usd.VToken (_axis_to_token axis)))
                  joint_path) ;;;
  set_limits joint_path lower_limit upper_limit ;;;
  set_local_poses joint_path ;;;
  when (driven drive_type drive_stiffness)
    (_apply_joint_drive joint_path drive_type drive_stiffness drive_damping
       drive_max_force false) ;;;
  ret joint_path.

(** [create_fixed_joint] *)
Definition create_fixed_joint (joint_name parent_path child_path : string)
    (joints_parent_path : option string) : M string :=
  joints_parent_path <- joints_parent joints_parent_path ;;
  let joint_path := joints_parent_path +:+ "/" +:+ _sanitize_name joint_name in
  define Usd.PhysicsFixedJoint joint_path ;;;
  set_bodies joint_path parent_path child_path ;;;
  set_local_poses joint_path ;;;
  ret joint_path.

(** [_find_base_part] *)
Fixpoint _find_base_part (parts : list Part.t) : option Part.t :=
  match parts with
  | [] => None
  | part :: parts' =>
      if String.eqb (Part.type part) "base" then Some part else _find_base_part parts'
  end.

(** [d[k]] under a guard [k in d]. *)
Definition item (d : PyDict.dict string) (k : string) : string :=
  match PyDict.get d k with Some v => v | None => "" end.

(** [inject_physics], first block: the articulation root. *)
Definition inject_root (parts : list Part.t) (part_paths : PyDict.dict string) : M unit :=
  let base_part := _find_base_part parts in
  let otherwise :=
    match PyDict.values part_paths with
    | first_path :: _ => apply_articulation_root first_path
    | [] => ret tt
    end in
  match base_part with
  | Some base_part =>
      if PyDict.mem (Part.id base_part) part_paths
      then apply_articulation_root (item part_paths (Part.id base_part))
      else otherwise
  | None => otherwise
  end.

(** [inject_physics], body of [for part in articulation_data.parts]. *)
Definition inject_part (self : t) (part_paths : PyDict.dict string) (part : Part.t) : M unit :=
  if negb (PyDict.mem (Part.id part) part_paths)
  then warning ("Part " +:+ Part.id part +:+ " not found in USD stage")
  else
    let prim_path := item part_paths (Part.id part) in
    let is_kinematic := String.eqb (Part.type part) "base" in
    apply_rigid_body self prim_path is_kinematic (Part.mass part) (Part.density part)
      (Part.center_of_mass part) ;;;
    let mesh_path := prim_path +:+ "/mesh" in
    stage <- get_stage ;;
    when (Usd.is_valid stage mesh_path)
      (apply_collision mesh_path (Part.collision_type part)).

(** [inject_physics], body of [for joint in articulation_data.joints]. *)
Definition inject_joint (part_paths : PyDict.dict string) (joint : Joint.t) : M unit :=
  if negb (PyDict.mem (Joint.parent joint) part_paths)
     || negb (PyDict.mem (Joint.child joint) part_paths)
  then warning ("Joint " +:+ Joint.name joint +:+ ": parent or child not found")
  else
    let parent_path := item part_paths (Joint.parent joint) in
    let child_path := item part_paths (Joint.child joint) in
    if String.eqb (Joint.type joint) "revolute" then
      _ <- create_revolute_joint (Joint.name joint) parent_path child_path
             (Joint.axis joint) (Joint.lower_limit joint) (Joint.upper_limit joint)
             (Joint.drive_stiffness joint) (Joint.drive_damping joint)
             (Joint.drive_max_force joint) (Joint.drive_type joint) None ;;
      ret tt
    else if String.eqb (Joint.type joint) "prismatic" then
      _ <- create_prismatic_joint (Joint.name joint) parent_path child_path
             (Joint.axis joint) (Joint.lower_limit joint) (Joint.upper_limit joint)
             (Joint.drive_stiffness joint) (Joint.drive_damping joint)
             (Joint.drive_max_force joint) (Joint.drive_type joint) None ;;
      ret tt
    else if String.eqb (Joint.type joint) "fixed" then
      _ <- create_fixed_joint (Joint.name joint) parent_path child_path None ;;
      ret tt
    else ret tt.

(** The guard of the joint loop: both ends are keys of [part_paths]. *)
Definition admitted (part_paths : PyDict.dict string) (joint : Joint.t) : bool :=
  PyDict.mem (Joint.parent joint) part_paths && PyDict.mem (Joint.child joint) part_paths.

(** The warning logged for a joint that fails the guard. *)
Definition dropped_warning (joint : Joint.t) : string :=
  "Joint " +:+ Joint.name joint +:+ ": parent or child not found".

(** [inject_physics] *)
Definition inject_physics (self : t) (articulation_data : ArticulationData.t)
    (part_paths : PyDict.dict string) : M unit :=
  inject_root (ArticulationData.parts articulation_data) part_paths ;;;
  for_each (ArticulationData.parts articulation_data) (inject_part self part_paths) ;;;
  for_each (ArticulationData.joints articulation_data) (inject_joint part_paths).

(** [physics_injector = PhysicsInjector()] *)
Definition physics_injector : t := mk 1000%float.

End PhysicsInjector.

(** ** Reading a document *)

Module Doc.

Definition prim_at (s : Usd.Stage) (path : string) : option Usd.Prim :=
  Usd.prims s !! path.

Definition type_at (s : Usd.Stage) (path : string) : option string :=
  Usd.typeName <$> prim_at s path.

(** The API schemas applied at a path; none where there is no prim. *)
Definition apis_at (s : Usd.Stage) (path : string) : gset string :=
  match prim_at s path with Some p => Usd.apiSchemas p | None => ∅ end.

Definition has_api (s : Usd.Stage) (path api : string) : bool :=
  bool_decide (api ∈ apis_at s path).

Definition attr (s : Usd.Stage) (path a : string) : option Usd.Value :=
  match prim_at s path with Some p => Usd.attributes p !! a | None => None end.

Definition rel (s : Usd.Stage) (path r : string) : option (list string) :=
  match prim_at s path with Some p => Usd.relationships p !! r | None => None end.

(** The paths that hold a prim of a given type. *)
Definition paths_of_type (ty : string) (s : Usd.Stage) : gset string :=
  dom (filter (fun kv => Usd.typeName kv.2 = ty) (Usd.prims s)).

(** The paths that hold a joint prim of any of the three kinds. *)
Definition joint_paths (s : Usd.Stage) : gset string :=
  dom (filter (fun kv => Usd.is_joint_type (Usd.typeName kv.2) = true) (Usd.prims s)).

(** The per-part transform nodes: the [Xform] prims other than the root. *)
Definition transform_paths (s : Usd.Stage) : gset string :=
  paths_of_type Usd.Xform s ∖ {[Usd.defaultPrim s]}.

(** [strip_prefix p q = Some r] when [q = p +:+ r]. *)
Fixpoint strip_prefix (p q : string) : option string :=
  match p, q with
  | EmptyString, _ => Some q
  | String a p', String b q' => if Ascii.eqb a b then strip_prefix p' q' else None
  | String _ _, EmptyString => None
  end.

(** [q] is the path of a child of the prim at [p]. *)
Definition is_child_of (p q : string) : bool :=
  match strip_prefix (p +:+ "/") q with
  | Some name => Py.truthy name && Py.no_char "/" name
  | None => false
  end.

(** The children of a path that hold a prim of a given type. *)
Definition children_of_type (ty : string) (s : Usd.Stage) (p : string) : gset string :=
  filter (fun q => is_child_of p q = true) (paths_of_type ty s).

End Doc.

(** ** Relating the stage before and after a computation *)

Module Frame.

(** At every path the API schemas only grow, and only by names in [added]. *)
Definition apis_grow_by (added : gset string) (s s' : Usd.Stage) : Prop :=
  forall q,
    Doc.apis_at s q ⊆ Doc.apis_at s' q /\ Doc.apis_at s' q ⊆ Doc.apis_at s q ∪ added.

(** [R] relates the stage a computation starts on to the one it leaves,
    whether it returns or raises. *)
Definition post {X} (R : Usd.Stage -> Usd.Stage -> Prop) (m : Eff.M X) : Prop :=
  forall s, R s (Eff.final (m s)).

(** The API schema of the root marking, and those the joints may add. *)
Definition root_apis : gset string := {[Usd.ArticulationRootAPI]}.
Definition drive_apis : gset string := {[Usd.DriveAPI "angular"; Usd.DriveAPI "linear"]}.

(** The API schemas the per-part annotation may add. *)
Definition part_apis : gset string :=
  {[Usd.RigidBodyAPI; Usd.MassAPI; Usd.CollisionAPI; Usd.MeshCollisionAPI]}.

(** The attributes the per-part annotation writes. *)
Definition part_attributes : list string :=
  ["physics:kinematicEnabled"; "physics:mass"; "physics:density"; "physics:centerOfMass";
   "physics:approximation"].

(** At every path the attribute [a] is as it was. *)
Definition attr_kept (a : string) (s s' : Usd.Stage) : Prop :=
  forall q, Doc.attr s' q a = Doc.attr s q a.

End Frame.

(** ** Sample inputs *)

Module Examples.
Import USDBuilder PhysicsInjector Eff.

Definition triangle : MeshData :=
  mkMeshData [(0, 0, 0)%float; (1, 0, 0)%float; (0, 1, 0)%float] [(0, 1, 2)%Z] None.

(** Two mesh nodes, in the order the reader found them. *)
Definition two_meshes : PyDict.dict MeshData := [("a", triangle); ("b", triangle)].

(** The document built for them when no part metadata is given, and its
    path map. *)
Definition built := build_from_parts usd_builder "robot.usda" "robot" two_meshes [].
Definition doc : Usd.Stage := final built.
Definition paths : PyDict.dict string := [("a", "/robot/a"); ("b", "/robot/b")].

Definition part (id type : string) (mass density : option float)
    (collision_type : string) : Part.t :=
  Part.mk id id type "other" "fixed" mass density None collision_type.

Definition joint (name parent child type : string) : Joint.t :=
  Joint.mk name parent child type (0, 0, 1)%float (0, 0, 0)%float
    (Some (-180)%float) (Some 180%float)
    (Some 1000%float) (Some 100%float) (Some 1000%float) "position".

Definition quad : MeshData :=
  mkMeshData [(0, 0, 1)%float; (1, 0, 1)%float; (1, 1, 1)%float; (0, 1, 1)%float]
    [(0, 1, 2)%Z; (0, 2, 3)%Z] None.

(** Two mesh nodes of different shapes. *)
Definition two_shapes : PyDict.dict MeshData := [("a", triangle); ("b", quad)].

(** Part metadata that gives both mesh nodes the display name [Arm]. *)
Definition same_names : list PartInfo :=
  [mkPartInfo "a" [("name", "Arm")]; mkPartInfo "b" [("name", "Arm")]].

(** Two parts joined by a joint of a type the schema does not list. *)
Definition ball_art : ArticulationData.t :=
  ArticulationData.mk "robot"
    [part "a" "base" None (Some 1000%float) "convexHull";
     part "b" "link" None (Some 1000%float) "convexHull"]
    [joint "j" "a" "b" "ball"].

(** One part and a joint whose child is no part. *)
Definition ghost_art : ArticulationData.t :=
  ArticulationData.mk "robot"
    [part "a" "base" None (Some 1000%float) "convexHull"]
    [joint "grip" "a" "ghost" "fixed"].

(** No part is a base, and the parts come in another order than the
    mesh nodes. *)
Definition no_base_art : ArticulationData.t :=
  ArticulationData.mk "robot"
    [part "b" "link" None (Some 1000%float) "convexHull";
     part "a" "link" None (Some 1000%float) "convexHull"]
    [].

(** No part at all, one joint between the two mesh nodes. *)
Definition no_parts_art : ArticulationData.t :=
  ArticulationData.mk "robot" [] [joint "j" "a" "b" "revolute"].

(** A stage with one prim at [/robot/a] and nothing else. *)
Definition one_prim : Usd.Stage :=
  Usd.author Usd.Xform "/robot/a" (Usd.mkStage "robot.usda" "Z" 1 "/robot" ∅).

End Examples.

(** ** The rules as the specification words them *)

Module Spec.

(** Node names: keep alphanumerics and underscores, replace every other
    character with an underscore, prefix a leading digit with an
    underscore, map the empty name to [_unnamed]; double underscores are
    then collapsed until none is left. *)
Definition node_name_before_collapse (name : string) : string :=
  let kept :=
    Py.map_chars (fun c => if Py.isalnum c || Ascii.eqb c "_" then c else "_"%char) name in
  match kept with
  | EmptyString => "_unnamed"
  | String c _ => if Py.isdigit c then String "_" kept else kept
  end.

Definition is_node_name_char (c : ascii) : bool := Py.isalnum c || Ascii.eqb c "_".

Definition starts_with_digit (s : string) : bool :=
  match s with String c _ => Py.isdigit c | EmptyString => false end.

(** The collision funnel: [convexHull] and [convexDecomposition] map to
    themselves, anything else to the tag [none]. *)
Definition approximation_tag (collisionShape : string) : string :=
  if String.eqb collisionShape "convexHull" then "convexHull"
  else if String.eqb collisionShape "convexDecomposition" then "convexDecomposition"
  else "none".

(** Mass precedence as the code has it: the density written when no
    mass is given is the part's, unless that is absent or zero. *)
Definition density_written (default : float) (density : option float) : float :=
  match density with
  | Some d => if PrimFloat.eqb d 0 then default else d
  | None => default
  end.

(** Root selection: [bp] is the first part of kind [base] in input order. *)
Definition first_base (parts : list Part.t) (bp : Part.t) : Prop :=
  exists before after,
    parts = before ++ bp :: after
    /\ Part.type bp = "base"
    /\ Forall (fun q => Part.type q <> "base") before.

Definition no_base (parts : list Part.t) : Prop :=
  Forall (fun q => Part.type q <> "base") parts.

End Spec.


(** ** What the joint constructors write on a joint prim *)

Module Written.

(** [CreateBody0Rel().SetTargets] and [CreateBody1Rel().SetTargets] *)
Definition bodies (parent_path child_path : string) (p : Usd.Prim) : Usd.Prim :=
  Usd.set_rel "physics:body1" [child_path] (Usd.set_rel "physics:body0" [parent_path] p).

(** The four [CreateLocal...Attr] calls. *)
Definition local_poses (p : Usd.Prim) : Usd.Prim :=
  Usd.set_attr "physics:localRot1" (Usd.VQuatf 1 0 0 0)
    (Usd.set_attr "physics:localRot0" (Usd.VQuatf 1 0 0 0)
       (Usd.set_attr "physics:localPos1" (Usd.VVec3f (0, 0, 0)%float)
          (Usd.set_attr "physics:localPos0" (Usd.VVec3f (0, 0, 0)%float) p))).

(** [if v is not None: Create...Attr(float(v))] *)
Definition optional (a : string) (v : option float) (p : Usd.Prim) : Usd.Prim :=
  match v with Some x => Usd.set_attr a (Usd.Float x) p | None => p end.

Definition limits (lower_limit upper_limit : option float) (p : Usd.Prim) : Usd.Prim :=
  optional "physics:upperLimit" upper_limit (optional "physics:lowerLimit" lower_limit p).

(** The attribute names of the drive called [drive_name]. *)
Definition drive_attr (drive_name a : string) : string :=
  "drive:" +:+ drive_name +:+ ":physics:" +:+ a.

Definition drive_target (drive_name drive_type : string) (p : Usd.Prim) : Usd.Prim :=
  if String.eqb drive_type "position"
  then Usd.set_attr (drive_attr drive_name "targetPosition") (Usd.VFloat 0) p
  else if String.eqb drive_type "velocity"
  then Usd.set_attr (drive_attr drive_name "targetVelocity") (Usd.VFloat 0) p
  else p.

(** What [_apply_joint_drive] writes. *)
Definition drive (drive_name drive_type : string)
    (stiffness damping max_force : option float) (p : Usd.Prim) : Usd.Prim :=
  drive_target drive_name drive_type
    (optional (drive_attr drive_name "maxForce") max_force
       (optional (drive_attr drive_name "damping") damping
          (optional (drive_attr drive_name "stiffness") stiffness
             (Usd.set_attr (drive_attr drive_name "type") (Usd.VToken "force")
                (Usd.add_api (Usd.DriveAPI drive_name) p))))).

Definition drive_if_driven (drive_name drive_type : string)
    (stiffness damping max_force : option float) (p : Usd.Prim) : Usd.Prim :=
  if PhysicsInjector.driven drive_type stiffness
  then drive drive_name drive_type stiffness damping max_force p
  else p.

(** What [create_revolute_joint] and [create_prismatic_joint] write after
    [Define] and before the drive. *)
Definition undriven (parent_path child_path : string) (axis : vec3)
    (lower_limit upper_limit : option float) (p : Usd.Prim) : Usd.Prim :=
  local_poses
    (limits lower_limit upper_limit
       (Usd.set_attr "physics:axis" (Usd.VToken (PhysicsInjector._axis_to_token axis))
          (bodies parent_path child_path p))).

(** All they write, for the drive named [drive_name]. *)
Definition axis_joint (drive_name parent_path child_path : string) (axis : vec3)
    (lower_limit upper_limit stiffness damping max_force : option float)
    (drive_type : string) (p : Usd.Prim) : Usd.Prim :=
  drive_if_driven drive_name drive_type stiffness damping max_force
    (undriven parent_path child_path axis lower_limit upper_limit p).

(** What [create_fixed_joint] writes after [Define]. *)
Definition fixed_joint (parent_path child_path : string) (p : Usd.Prim) : Usd.Prim :=
  local_poses (bodies parent_path child_path p).

(** The prim [Define] leaves at [path]: the one that was there with its
    type replaced, or a new one. *)
Definition defined (ty : string) (s : Usd.Stage) (path : string) : Usd.Prim :=
  match Usd.prims s !! path with
  | Some p => Usd.set_typeName ty p
  | None => Usd.new_prim ty
  end.

(** The path of the joint container of a stage. *)
Definition container (s : Usd.Stage) : string :=
  Usd.append_child (Usd.defaultPrim s) "Joints".

(** The stage once the joint container is there. *)
Definition with_container (s : Usd.Stage) : Usd.Stage :=
  if Usd.is_valid s (container s) then s else Usd.author Usd.Xform (container s) s.

(** The path of the prim of a joint called [joint_name]. *)
Definition joint_path (s : Usd.Stage) (joint_name : string) : string :=
  container s +:+ "/" +:+ PhysicsInjector._sanitize_name joint_name.

(** The stage has its default prim, and the container is there or the
    library accepts its path. *)
Definition container_accepted (s : Usd.Stage) : bool :=
  Usd.is_valid s (Usd.defaultPrim s)
  && (Usd.is_valid s (container s) || Sdf.is_prim_path (container s)).

(** The library accepts every path a joint constructor hands it: that of
    the container when it has to be defined, that of the joint and those
    of the two bodies. *)
Definition accepted (s : Usd.Stage) (joint_name parent_path child_path : string) : bool :=
  container_accepted s
  && Sdf.is_prim_path (joint_path s joint_name)
  && Sdf.is_prim_path parent_path && Sdf.is_prim_path child_path.

End Written.

(** ** What [inject_physics] writes for one joint *)

Module JointPrim.
Import PhysicsInjector.

(** The prim type and the writes of the branch [inject_physics] takes on
    [joint.type]; none for any other type. *)
Definition dispatch (part_paths : PyDict.dict string) (joint : Joint.t)
    : option (string * (Usd.Prim -> Usd.Prim)) :=
  let parent_path := item part_paths (Joint.parent joint) in
  let child_path := item part_paths (Joint.child joint) in
  if String.eqb (Joint.type joint) "revolute" then
    Some (Usd.PhysicsRevoluteJoint,
          Written.axis_joint "angular" parent_path child_path (Joint.axis joint)
            (Joint.lower_limit joint) (Joint.upper_limit joint)
            (Joint.drive_stiffness joint) (Joint.drive_damping joint)
            (Joint.drive_max_force joint) (Joint.drive_type joint))
  else if String.eqb (Joint.type joint) "prismatic" then
    Some (Usd.PhysicsPrismaticJoint,
          Written.axis_joint "linear" parent_path child_path (Joint.axis joint)
            (Joint.lower_limit joint) (Joint.upper_limit joint)
            (Joint.drive_stiffness joint) (Joint.drive_damping joint)
            (Joint.drive_max_force joint) (Joint.drive_type joint))
  else if String.eqb (Joint.type joint) "fixed" then
    Some (Usd.PhysicsFixedJoint, Written.fixed_joint parent_path child_path)
  else None.

(** The joint types with a constructor. *)
Definition known_type (ty : string) : bool :=
  String.eqb ty "revolute" || String.eqb ty "prismatic" || String.eqb ty "fixed".

(** The prim type each of them is given. *)
Definition prim_type (ty : string) : string :=
  if String.eqb ty "revolute" then Usd.PhysicsRevoluteJoint
  else if String.eqb ty "prismatic" then Usd.PhysicsPrismaticJoint
  else Usd.PhysicsFixedJoint.

(** The joints the loop calls a constructor for. *)
Definition written (part_paths : PyDict.dict string) (joint : Joint.t) : bool :=
  admitted part_paths joint && known_type (Joint.type joint).

(** The stage after the loop body has run on [joint] and returned. *)
Definition stage_after (part_paths : PyDict.dict string) (joint : Joint.t)
    (s : Usd.Stage) : Usd.Stage :=
  if admitted part_paths joint then
    match dispatch part_paths joint with
    | Some (ty, writes) =>
        Usd.edit writes (Written.joint_path s (Joint.name joint))
          (Usd.author ty (Written.joint_path s (Joint.name joint))
             (Written.with_container s))
    | None => s
    end
  else s.

(** The library accepts the paths of [joint], if the loop writes it. *)
Definition accepted (part_paths : PyDict.dict string) (s : Usd.Stage) (joint : Joint.t)
    : bool :=
  negb (written part_paths joint)
  || Written.accepted s (Joint.name joint) (item part_paths (Joint.parent joint))
       (item part_paths (Joint.child joint)).

(** The stage after the loop [for joint in articulation_data.joints],
    when it returns. *)
Definition loop_stage (part_paths : PyDict.dict string) (joints : list Joint.t)
    (s : Usd.Stage) : Usd.Stage :=
  fold_left (fun s joint => stage_after part_paths joint s) joints s.

(** The library accepts the paths of every joint of the loop, each on the
    stage the joints before it leave. *)
Fixpoint loop_accepted (part_paths : PyDict.dict string) (joints : list Joint.t)
    (s : Usd.Stage) : bool :=
  match joints with
  | [] => true
  | joint :: rest =>
      accepted part_paths s joint && loop_accepted part_paths rest (stage_after part_paths joint s)
  end.

(** A later joint takes the prim of [joint]: the loop writes it and its
    name sanitizes to the same prim name. *)
Definition overwrites (part_paths : PyDict.dict string) (joint later : Joint.t) : bool :=
  written part_paths later
  && String.eqb (_sanitize_name (Joint.name later)) (_sanitize_name (Joint.name joint)).

(** The body relationships and the identity frames, read on a prim. *)
Definition placed (parent child : string) (q : Usd.Prim) : Prop :=
  Usd.relationships q !! "physics:body0" = Some [parent]
  /\ Usd.relationships q !! "physics:body1" = Some [child]
  /\ Usd.attributes q !! "physics:localPos0" = Some (Usd.VVec3f (0, 0, 0)%float)
  /\ Usd.attributes q !! "physics:localPos1" = Some (Usd.VVec3f (0, 0, 0)%float)
  /\ Usd.attributes q !! "physics:localRot0" = Some (Usd.VQuatf 1 0 0 0)
  /\ Usd.attributes q !! "physics:localRot1" = Some (Usd.VQuatf 1 0 0 0).

End JointPrim.
(** * Properties *)

(** ** Strings *)

Section StringFacts.
Import Py.

Lemma string_ind2 (P : string -> Prop) :
  P EmptyString ->
  (forall c, P (String c EmptyString)) ->
  (forall c d s, P s -> P (String d s) -> P (String c (String d s))) ->
  forall s, P s.
Proof.
  intros H0 H1 H2 s.
  assert (H : P s /\ forall c, P (String c s)); [| exact (proj1 H)].
  induction s as [| d s [IHs IHc]]; split; auto.
Qed.

Lemma forall_chars_app p s t :
  forall_chars p (s +:+ t) = forall_chars p s && forall_chars p t.
Proof.
  induction s as [| c s IH]; simpl; [reflexivity |].
  rewrite IH, andb_assoc. reflexivity.
Qed.

Lemma forall_chars_impl (p q : ascii -> bool) s :
  (forall c, p c = true -> q c = true) ->
  forall_chars p s = true -> forall_chars q s = true.
Proof.
  intros Hpq. induction s as [| c s IH]; simpl; [reflexivity |].
  rewrite !andb_true_iff. intros [Hc Hs]. auto.
Qed.

Lemma forall_chars_map_chars p f s :
  forall_chars p (map_chars f s) = forall_chars (fun c => p (f c)) s.
Proof.
  induction s as [| c s IH]; simpl; [reflexivity |]. rewrite IH. reflexivity.
Qed.

Lemma forall_chars_all p s : (forall c, p c = true) -> forall_chars p s = true.
Proof.
  intros Hp. induction s as [| c s IH]; simpl; [reflexivity |].
  rewrite Hp, IH. reflexivity.
Qed.

Lemma truthy_length s : truthy s = true <-> 0 < String.length s.
Proof. destruct s; simpl; split; intros; (lia || congruence). Qed.

Lemma truthy_app_l s t : truthy s = true -> truthy (s +:+ t) = true.
Proof. destruct s; simpl; congruence. Qed.

(** *** The loop that removes double underscores *)

Lemma replace_dunder_length_le s :
  String.length (replace_dunder s) <= String.length s.
Proof.
  induction s as [| c | c d s IHs IHd] using string_ind2; simpl; try lia.
  destruct (Ascii.eqb c "_" && Ascii.eqb d "_"); simpl in *; lia.
Qed.

Lemma replace_dunder_length_lt s :
  contains_dunder s = true ->
  String.length (replace_dunder s) < String.length s.
Proof.
  induction s as [| c | c d s IHs IHd] using string_ind2; simpl; try discriminate.
  destruct (Ascii.eqb c "_" && Ascii.eqb d "_"); simpl.
  - intros _. pose proof (replace_dunder_length_le s). lia.
  - intros H. specialize (IHd H). simpl in IHd. lia.
Qed.

Lemma replace_dunder_chars p s :
  forall_chars p s = true -> forall_chars p (replace_dunder s) = true.
Proof.
  induction s as [| c | c d s IHs IHd] using string_ind2; simpl; auto.
  rewrite !andb_true_iff. intros (Hc & Hd & Hs).
  destruct (Ascii.eqb c "_" && Ascii.eqb d "_") eqn:E; simpl.
  - apply andb_true_iff in E as [Ec _]. apply Ascii.eqb_eq in Ec. subst c.
    rewrite Hc. auto.
  - rewrite Hc. simpl. apply IHd. simpl. rewrite Hd. exact Hs.
Qed.

(** The first character survives a pass. *)
Lemma replace_dunder_head c s :
  exists s', replace_dunder (String c s) = String c s'.
Proof.
  destruct s as [| d s]; simpl; [eauto |].
  destruct (Ascii.eqb c "_" && Ascii.eqb d "_") eqn:E; [| eauto].
  apply andb_true_iff in E as [Ec _]. apply Ascii.eqb_eq in Ec. subst c. eauto.
Qed.

Lemma collapse_loop_chars p fuel s :
  forall_chars p s = true -> forall_chars p (collapse_loop fuel s) = true.
Proof.
  revert s. induction fuel as [| fuel IH]; intros s Hs; simpl; [exact Hs |].
  destruct (contains_dunder s); [| exact Hs].
  apply IH, replace_dunder_chars, Hs.
Qed.

Lemma collapse_loop_head fuel c s :
  exists s', collapse_loop fuel (String c s) = String c s'.
Proof.
  revert s. induction fuel as [| fuel IH]; intros s; cbn [collapse_loop]; [eauto |].
  destruct (contains_dunder (String c s)); [| eauto].
  destruct (replace_dunder_head c s) as [s' ->]. apply IH.
Qed.

(** With the length of the string as fuel the loop runs to its exit:
    the fuelled function computes the result of the [while] loop. *)
Lemma collapse_loop_while fuel s :
  String.length s <= fuel -> while_dunder s (collapse_loop fuel s).
Proof.
  revert s. induction fuel as [| fuel IH]; intros s Hlen; simpl.
  - destruct s; simpl in Hlen; [| lia]. constructor. reflexivity.
  - destruct (contains_dunder s) eqn:E.
    + apply dunder_step; [exact E |].
      apply IH. pose proof (replace_dunder_length_lt s E). lia.
    + constructor. exact E.
Qed.

Lemma while_dunder_exit s r : while_dunder s r -> contains_dunder r = false.
Proof. induction 1; assumption. Qed.

Lemma while_dunder_det s r1 r2 : while_dunder s r1 -> while_dunder s r2 -> r1 = r2.
Proof.
  intros H1. revert r2. induction H1 as [s E | s r E H IH]; intros r2 H2.
  - inversion H2; subst; [reflexivity | congruence].
  - inversion H2; subst; [congruence | auto].
Qed.

End StringFacts.

(** ** The node-name sanitizers *)

Section NodeNames.
Import Py.

Lemma sanitize_prim_name_unfold name :
  USDBuilder._sanitize_prim_name name =
  collapse_loop (String.length (Spec.node_name_before_collapse name))
    (Spec.node_name_before_collapse name).
Proof.
  unfold USDBuilder._sanitize_prim_name, Spec.node_name_before_collapse.
  destruct (map_chars _ name) as [| c s]; [reflexivity |].
  destruct (isdigit c); reflexivity.
Qed.

Lemma sanitize_name_unfold name :
  PhysicsInjector._sanitize_name name =
  collapse_loop (String.length (Spec.node_name_before_collapse name))
    (Spec.node_name_before_collapse name).
Proof.
  unfold PhysicsInjector._sanitize_name, Spec.node_name_before_collapse.
  destruct (map_chars _ name) as [| c s]; [reflexivity |].
  destruct (isdigit c); reflexivity.
Qed.

Lemma node_name_before_collapse_chars name :
  forall_chars Spec.is_node_name_char (Spec.node_name_before_collapse name) = true.
Proof.
  unfold Spec.node_name_before_collapse.
  assert (H : forall_chars Spec.is_node_name_char
                (map_chars (fun c => if isalnum c || Ascii.eqb c "_" then c else "_"%char)
                   name) = true).
  { rewrite forall_chars_map_chars. apply forall_chars_all. intros c.
    unfold Spec.is_node_name_char.
    destruct (isalnum c || Ascii.eqb c "_") eqn:E; [exact E |].
    apply orb_true_r. }
  destruct (map_chars _ name) as [| c s]; [reflexivity |].
  destruct (isdigit c); [| exact H].
  change (Spec.is_node_name_char "_" && forall_chars Spec.is_node_name_char (String c s) = true).
  rewrite H. reflexivity.
Qed.

Lemma node_name_before_collapse_head name :
  exists c s, Spec.node_name_before_collapse name = String c s /\ isdigit c = false.
Proof.
  unfold Spec.node_name_before_collapse.
  destruct (map_chars _ name) as [| c s]; [eexists _, _; split; reflexivity |].
  destruct (isdigit c) eqn:E; eexists _, _; split; (reflexivity || exact E).
Qed.

Lemma sanitize_prim_name_chars name :
  forall_chars Spec.is_node_name_char (USDBuilder._sanitize_prim_name name) = true.
Proof.
  rewrite sanitize_prim_name_unfold.
  apply collapse_loop_chars, node_name_before_collapse_chars.
Qed.

Lemma sanitize_prim_name_head name :
  exists c s, USDBuilder._sanitize_prim_name name = String c s /\ isdigit c = false.
Proof.
  rewrite sanitize_prim_name_unfold.
  destruct (node_name_before_collapse_head name) as (c & s & -> & Hc).
  destruct (collapse_loop_head (String.length (String c s)) c s) as [s' ->].
  eauto.
Qed.

(** C10. [USDBuilder._sanitize_prim_name] and
    [PhysicsInjector._sanitize_name] return the same string on every
    input.  That string is what the [while '__' in s] loop delivers from
    the name with every character outside alphanumerics and underscore
    replaced by an underscore, a leading digit prefixed with an
    underscore and the empty name mapped to [_unnamed]; it is not
    empty, holds only alphanumerics and underscores, has no double
    underscore and does not start with a digit. *)
Theorem sanitizers_agree (name : string) :
  USDBuilder._sanitize_prim_name name = PhysicsInjector._sanitize_name name
  /\ while_dunder (Spec.node_name_before_collapse name) (USDBuilder._sanitize_prim_name name)
  /\ truthy (USDBuilder._sanitize_prim_name name) = true
  /\ forall_chars Spec.is_node_name_char (USDBuilder._sanitize_prim_name name) = true
  /\ contains_dunder (USDBuilder._sanitize_prim_name name) = false
  /\ Spec.starts_with_digit (USDBuilder._sanitize_prim_name name) = false.
Proof.
  assert (Hw : while_dunder (Spec.node_name_before_collapse name)
                 (USDBuilder._sanitize_prim_name name)).
  { rewrite sanitize_prim_name_unfold. apply collapse_loop_while. lia. }
  destruct (sanitize_prim_name_head name) as (c & s & Hr & Hc).
  split; [| split; [exact Hw | split; [| split; [| split]]]].
  - etransitivity; [apply sanitize_prim_name_unfold |].
    symmetry. apply sanitize_name_unfold.
  - rewrite Hr. reflexivity.
  - apply sanitize_prim_name_chars.
  - apply (while_dunder_exit _ _ Hw).
  - rewrite Hr. exact Hc.
Qed.

End NodeNames.

(** ** The part-id sanitizer *)

Section PartIds.
Import Py GLBParser.

Lemma string_length_app s t :
  String.length (s +:+ t) = String.length s + String.length t.
Proof. induction s as [| c s IH]; simpl; [reflexivity | rewrite IH; reflexivity]. Qed.

(** *** Characters *)

(** On ASCII input, a lower-cased character that [isalnum] keeps is in
    [[a-z0-9]]; every other one becomes an underscore. *)
Lemma ascii_lowered_char c :
  is_ascii_char c = true ->
  is_lower_id_char
    (if isalnum (lower_char c) then lower_char c else "_"%char) = true.
Proof.
  destruct c as [[] [] [] [] [] [] [] []]; intros H;
    solve [ vm_compute; reflexivity | vm_compute in H; discriminate H ].
Qed.

Lemma split_chars p sep s :
  forall_chars p s = true ->
  Forall (fun t => forall_chars p t = true) (split sep s).
Proof.
  induction s as [| c s IH]; simpl; intros H.
  - repeat constructor.
  - apply andb_true_iff in H as [Hc Hs]. specialize (IH Hs).
    destruct (Ascii.eqb c sep).
    + constructor; [reflexivity | exact IH].
    + destruct (split sep s) as [| h t].
      * repeat constructor. simpl. rewrite Hc. reflexivity.
      * inversion IH; subst. constructor; [| assumption].
        simpl. rewrite Hc. assumption.
Qed.

Lemma join_chars p sep l :
  forall_chars p sep = true ->
  Forall (fun t => forall_chars p t = true) l ->
  forall_chars p (join sep l) = true.
Proof.
  intros Hsep. unfold join. induction 1 as [| x l Hx Hl IH]; [reflexivity |].
  destruct l as [| y l]; simpl in *; [exact Hx |].
  rewrite !forall_chars_app, Hx, Hsep. exact IH.
Qed.

Lemma Forall_filter_keep {A} (P : A -> Prop) (f : A -> bool) (l : list A) :
  Forall P l -> Forall P (List.filter f l).
Proof.
  induction 1 as [| x l Hx Hl IH]; simpl; [constructor |].
  destruct (f x); [constructor |]; assumption.
Qed.

Lemma sanitized_truthy base_name : truthy (sanitized base_name) = true.
Proof.
  unfold sanitized. cbv zeta.
  destruct (truthy (join "_" _)) eqn:E; simpl; [exact E | reflexivity].
Qed.

Lemma sanitized_ascii base_name :
  forall_chars is_ascii_char base_name = true ->
  forall_chars is_lower_id_char (sanitized base_name) = true.
Proof.
  intros Hascii. unfold sanitized. cbv zeta.
  match goal with |- context [join "_" ?l] => assert (H : forall_chars is_lower_id_char (join "_" l) = true) end.
  { apply join_chars; [reflexivity |]. apply Forall_filter_keep, split_chars.
    unfold lower. rewrite !forall_chars_map_chars.
    revert Hascii. apply forall_chars_impl. intros c. apply ascii_lowered_char. }
  destruct (negb (truthy _)); [reflexivity | exact H].
Qed.

(** *** The pieces between underscores *)

Lemma split_pieces sep s : Forall (fun t => no_char sep t = true) (split sep s).
Proof.
  induction s as [| c s IH]; simpl.
  - repeat constructor.
  - destruct (Ascii.eqb c sep) eqn:E.
    + constructor; [reflexivity | exact IH].
    + destruct (split sep s) as [| h t].
      * repeat constructor. unfold no_char. simpl. rewrite E. reflexivity.
      * inversion IH; subst. constructor; [| assumption].
        unfold no_char in *. simpl. rewrite E. assumption.
Qed.

Lemma split_piece_then sep x rest :
  no_char sep x = true ->
  split sep (x +:+ String sep rest) = x :: split sep rest.
Proof.
  unfold no_char. induction x as [| c x IH]; simpl; intros H.
  - rewrite Ascii.eqb_refl. reflexivity.
  - apply andb_true_iff in H as [Hc Hx]. apply negb_true_iff in Hc.
    rewrite Hc, (IH Hx). reflexivity.
Qed.

Lemma split_one_piece sep x : no_char sep x = true -> split sep x = [x].
Proof.
  unfold no_char. induction x as [| c x IH]; simpl; intros H; [reflexivity |].
  apply andb_true_iff in H as [Hc Hx]. apply negb_true_iff in Hc.
  rewrite Hc, (IH Hx). reflexivity.
Qed.

(** Splitting a join gives the pieces back. *)
Lemma split_join sep l :
  l <> [] ->
  Forall (fun t => no_char sep t = true) l ->
  split sep (join (String sep EmptyString) l) = l.
Proof.
  intros Hne Hl. unfold join. induction Hl as [| x l Hx Hl IH]; [congruence |].
  destruct l as [| y l].
  - simpl. apply split_one_piece, Hx.
  - change (String.concat (String sep EmptyString) (x :: y :: l))
      with (x +:+ String sep (String.concat (String sep EmptyString) (y :: l))).
    rewrite (split_piece_then sep x _ Hx), IH; [reflexivity | discriminate].
Qed.

Lemma join_nil_or_truthy sep l :
  Forall (fun t => truthy t = true) l ->
  l <> [] -> truthy (join sep l) = true.
Proof.
  unfold join. intros Hl Hne. destruct Hl as [| x l Hx Hl]; [congruence |].
  destruct l; simpl; [exact Hx |]. apply truthy_app_l, Hx.
Qed.

Lemma Forall_filter_true {A} (f : A -> bool) (l : list A) :
  Forall (fun x => f x = true) (List.filter f l).
Proof.
  induction l as [| x l IH]; simpl; [constructor |].
  destruct (f x) eqn:E; [constructor |]; assumption.
Qed.

(** The sanitized name is ["part"] when the lower-cased name has no
    alphanumeric character; otherwise its pieces between underscores
    are the maximal alphanumeric runs of the lower-cased name, in
    order: every run of other characters has become one underscore and
    none is left at either end. *)
Lemma sanitized_pieces base_name :
  let runs :=
    List.filter truthy
      (split "_" (map_chars (fun c => if isalnum c then c else "_"%char)
                    (lower base_name))) in
  (runs = [] /\ sanitized base_name = "part")
  \/ (runs <> [] /\ split "_" (sanitized base_name) = runs).
Proof.
  intros runs. unfold sanitized. cbv zeta. fold runs.
  destruct runs as [| x l] eqn:E; [left; split; reflexivity | right].
  split; [discriminate |].
  assert (Ht : truthy (join "_" (x :: l)) = true).
  { apply join_nil_or_truthy; [| discriminate].
    rewrite <- E. apply Forall_filter_true. }
  rewrite Ht. simpl negb. cbv iota.
  apply split_join; [discriminate |].
  rewrite <- E. apply Forall_filter_keep, split_pieces.
Qed.

End PartIds.

(** *** The uniqueness loop *)

Section UniqueLoop.
Import Py GLBParser.

Variable s : string.
Variable used_names : gset string.

Lemma candidate_inj j k : candidate s j = candidate s k -> j = k.
Proof.
  unfold candidate. intros H.
  apply (inj (String.app s)) in H. apply (inj (String.app "_")) in H.
  apply (inj pretty) in H. exact H.
Qed.

Lemma candidate_not_base k : candidate s k <> s.
Proof.
  unfold candidate. intros H. apply (f_equal String.length) in H.
  rewrite !string_length_app in H. simpl in H. lia.
Qed.

(** From the state [(candidate c, c + 1)] the loop stops at the first
    counter [m] whose candidate is free, given fuel for the steps. *)
Lemma unique_loop_reaches fuel (c m : nat) :
  c <= m ->
  (forall k, c <= k < m -> candidate s (N.of_nat k) ∈ used_names) ->
  candidate s (N.of_nat m) ∉ used_names ->
  m - c < fuel ->
  unique_loop fuel s used_names (candidate s (N.of_nat c)) (N.of_nat c + 1)%N
  = candidate s (N.of_nat m).
Proof.
  revert c. induction fuel as [| fuel IH]; intros c Hcm Hin Hout Hfuel; [lia |].
  cbn [unique_loop]. destruct (decide (candidate s (N.of_nat c) ∈ used_names)) as [Hc | Hc].
  - assert (c <> m) by (intros ->; contradiction).
    replace (N.of_nat c + 1)%N with (N.of_nat (S c)) by lia.
    apply IH; [lia | | assumption | lia].
    intros k Hk. apply Hin. lia.
  - destruct (decide (c = m)) as [-> | Hne]; [reflexivity |].
    exfalso. apply Hc, Hin. lia.
Qed.

Lemma while_in_used_reaches (d c m : nat) :
  m = c + d ->
  (forall k, c <= k < m -> candidate s (N.of_nat k) ∈ used_names) ->
  candidate s (N.of_nat m) ∉ used_names ->
  while_in_used s used_names (candidate s (N.of_nat c)) (N.of_nat c + 1)%N
    (candidate s (N.of_nat m)).
Proof.
  revert c. induction d as [| d IH]; intros c Hm Hin Hout.
  - replace m with c in * by lia. constructor. exact Hout.
  - apply while_step; [apply Hin; lia |].
    replace (N.of_nat c + 1)%N with (N.of_nat (S c)) by lia.
    apply IH; [lia | | assumption]. intros k Hk. apply Hin. lia.
Qed.

(** The first counter that fails a decidable test, when one does. *)
Lemma first_failure (P : nat -> Prop) (Pdec : forall k, Decision (P k)) n c :
  (exists k, c <= k < c + n /\ ~ P k) ->
  exists m, c <= m < c + n /\ ~ P m /\ forall k, c <= k < m -> P k.
Proof.
  revert c. induction n as [| n IH]; intros c (k & Hk & HPk); [lia |].
  destruct (decide (P c)) as [Hc | Hc].
  - destruct (IH (S c)) as (m & Hm & HPm & Hlt).
    { exists k. split; [| exact HPk].
      assert (k <> c) by (intros ->; contradiction). lia. }
    exists m. split; [lia |]. split; [exact HPm |].
    intros j Hj. destruct (decide (j = c)) as [-> | Hne]; [exact Hc |].
    apply Hlt. lia.
  - exists c. split; [lia |]. split; [exact Hc |]. intros j Hj. lia.
Qed.

(** A used base name leaves room for at most [size used_names - 1]
    used candidates: one of the first [size used_names] is free. *)
Lemma free_candidate :
  s ∈ used_names ->
  exists k, 1 <= k < 1 + size used_names /\ candidate s (N.of_nat k) ∉ used_names.
Proof.
  intros Hs.
  destruct (decide (Exists (fun k => candidate s (N.of_nat k) ∉ used_names)
                      (seq 1 (size used_names)))) as [Hex | Hall].
  - apply Exists_exists in Hex as (k & Hk & Hfree).
    exists k. split; [| exact Hfree]. apply elem_of_seq in Hk. lia.
  - exfalso. apply not_Exists_Forall in Hall; [| intros k; apply _].
    set (l := s :: ((fun k => candidate s (N.of_nat k)) <$> seq 1 (size used_names))).
    assert (Hnd : NoDup l).
    { constructor.
      - intros Hin. apply list_elem_of_fmap in Hin as (k & Hk & _).
        symmetry in Hk. exact (candidate_not_base _ Hk).
      - apply NoDup_fmap_2; [| apply NoDup_seq].
        intros j k Hjk. apply candidate_inj in Hjk. lia. }
    assert (Hsub : list_to_set l ⊆ used_names).
    { intros x Hx. apply elem_of_list_to_set in Hx.
      apply elem_of_cons in Hx as [-> | Hx]; [exact Hs |].
      apply list_elem_of_fmap in Hx as (k & -> & Hk).
      rewrite Forall_forall in Hall. specialize (Hall k Hk).
      cbn beta in Hall.
      destruct (decide (candidate s (N.of_nat k) ∈ used_names)) as [H | H];
        [exact H | exfalso; exact (Hall H)]. }
    apply subseteq_size in Hsub. rewrite size_list_to_set in Hsub by exact Hnd.
    subst l. cbn [length] in Hsub. rewrite length_fmap, length_seq in Hsub. lia.
Qed.

(** The loop from its initial state: the base name when it is free,
    otherwise the candidate with the smallest free positive counter.
    With [S (size used_names)] tests the fuelled loop gets there, and
    the result is the one of the [while] loop. *)
Lemma unique_loop_result :
  let r := unique_loop (S (size used_names)) s used_names s 1%N in
  (r ∉ used_names)
  /\ while_in_used s used_names s 1%N r
  /\ (((s ∉ used_names) /\ r = s)
      \/ (s ∈ used_names
          /\ exists k : N, (1 <= k)%N /\ r = candidate s k
               /\ forall j : N, (1 <= j < k)%N -> candidate s j ∈ used_names)).
Proof.
  cbn [unique_loop]. destruct (decide (s ∈ used_names)) as [Hs | Hs].
  - destruct (first_failure (fun k => candidate s (N.of_nat k) ∈ used_names)
                (fun k => _) (size used_names) 1) as (m & Hm & Hfree & Hused).
    { destruct (free_candidate Hs) as (k & Hk & Hfree). exists k. split; [lia | exact Hfree]. }
    assert (Hr : unique_loop (size used_names) s used_names (candidate s 1) (1 + 1)%N
                 = candidate s (N.of_nat m)).
    { apply (unique_loop_reaches (size used_names) 1 m);
        [lia | exact Hused | exact Hfree | lia]. }
    rewrite Hr.
    split; [exact Hfree |]. split.
    + apply while_step; [exact Hs |].
      apply (while_in_used_reaches (m - 1) 1 m); [lia | exact Hused | exact Hfree].
    + right. split; [exact Hs |]. exists (N.of_nat m). split; [lia |].
      split; [reflexivity |]. intros j Hj.
      replace j with (N.of_nat (N.to_nat j)) by lia. apply Hused. lia.
  - split; [exact Hs |]. split; [constructor; exact Hs |]. left. split; [exact Hs | reflexivity].
Qed.

End UniqueLoop.

Section PartIdTheorems.
Import Py GLBParser.

Lemma pretty_N_go_chars p x s :
  (forall d, p (pretty_N_char d) = true) ->
  forall_chars p s = true -> forall_chars p (pretty_N_go x s) = true.
Proof.
  intros Hp. revert s. induction (N.lt_wf_0 x) as [x _ IH]; intros s Hs.
  destruct (decide (0 < x)%N) as [Hx | Hx].
  - rewrite pretty_N_go_step by exact Hx. apply IH.
    + apply N.div_lt; [exact Hx | reflexivity].
    + simpl. rewrite Hp. exact Hs.
  - replace x with 0%N by lia. rewrite pretty_N_go_0. exact Hs.
Qed.

Lemma pretty_N_chars (k : N) : forall_chars is_lower_id_char (pretty k) = true.
Proof.
  unfold pretty, pretty_N. destruct (decide (k = 0%N)); [reflexivity |].
  apply pretty_N_go_chars; [| reflexivity].
  intros d. unfold pretty_N_char.
  repeat (match goal with |- context [match ?x with _ => _ end] => destruct x end;
          try reflexivity).
Qed.

Lemma candidate_chars s k :
  forall_chars is_lower_id_char s = true ->
  forall_chars is_lower_id_char (candidate s k) = true.
Proof.
  intros Hs. unfold candidate. rewrite !forall_chars_app, Hs, pretty_N_chars. reflexivity.
Qed.

(** The result is never used and never empty, whatever the input. *)
Lemma generate_unique_id_fresh base_name used_names :
  (_generate_unique_id base_name used_names ∉ used_names)
  /\ truthy (_generate_unique_id base_name used_names) = true.
Proof.
  unfold _generate_unique_id. cbv zeta.
  destruct (unique_loop_result (sanitized base_name) used_names) as (Hfree & _ & Hshape).
  split; [exact Hfree |].
  destruct Hshape as [[_ ->] | (_ & k & _ & -> & _)].
  - apply sanitized_truthy.
  - apply truthy_app_l, sanitized_truthy.
Qed.

(** Ids handed out one after the other are pairwise distinct and
    distinct from the names used before. *)
Lemma assign_ids_distinct names used_names :
  NoDup (assign_ids names used_names)
  /\ forall part_id, part_id ∈ assign_ids names used_names -> part_id ∉ used_names.
Proof.
  revert used_names. induction names as [| name names IH]; intros used_names; simpl.
  - split; [constructor |]. intros part_id Hin. inversion Hin.
  - destruct (generate_unique_id_fresh name used_names) as [Hfresh _].
    destruct (IH ({[_generate_unique_id name used_names]} ∪ used_names)) as [Hnd Hout].
    split.
    + constructor; [| exact Hnd]. intros Hin. apply (Hout _ Hin).
      apply elem_of_union_l, elem_of_singleton. reflexivity.
    + intros part_id Hin. apply elem_of_cons in Hin as [-> | Hin]; [exact Hfresh |].
      intros Hused. apply (Hout _ Hin). apply elem_of_union_r. exact Hused.
Qed.

(** C4 (amended). For every input string made of ASCII characters and
    every finite set of used ids, [_generate_unique_id] returns a
    non-empty string over [[a-z0-9_]] that is not in the set.  It is the
    result of the [while] loop started at the sanitized name, which is
    either ["part"] or the alphanumeric runs of the lower-cased input
    joined by single underscores; the result is the sanitized name when
    that is free, and otherwise the sanitized name followed by [_k] for
    the smallest positive [k] that makes it free. *)
Theorem generate_unique_id_ascii (base_name : string) (used_names : gset string)
    (Hascii : forall_chars is_ascii_char base_name = true) :
  let s := sanitized base_name in
  let r := _generate_unique_id base_name used_names in
  let runs :=
    List.filter truthy
      (split "_" (map_chars (fun c => if isalnum c then c else "_"%char)
                    (lower base_name))) in
  matches_lower_id r = true
  /\ (r ∉ used_names)
  /\ while_in_used s used_names s 1%N r
  /\ (((s ∉ used_names) /\ r = s)
      \/ (s ∈ used_names
          /\ exists k : N, (1 <= k)%N /\ r = candidate s k
               /\ forall j : N, (1 <= j < k)%N -> candidate s j ∈ used_names))
  /\ ((runs = [] /\ s = "part") \/ (runs <> [] /\ split "_" s = runs)).
Proof.
  cbv zeta.
  pose proof (unique_loop_result (sanitized base_name) used_names) as H. cbv zeta in H.
  change (unique_loop (S (size used_names)) (sanitized base_name) used_names
            (sanitized base_name) 1%N)
    with (_generate_unique_id base_name used_names) in H.
  destruct H as (Hfree & Hwhile & Hshape).
  split; [| split; [exact Hfree | split; [exact Hwhile | split; [exact Hshape |]]]].
  - unfold matches_lower_id.
    rewrite (proj2 (generate_unique_id_fresh base_name used_names)). simpl.
    destruct Hshape as [[_ Hr] | (_ & k & _ & Hr & _)]; rewrite Hr.
    + apply sanitized_ascii, Hascii.
    + apply candidate_chars, sanitized_ascii, Hascii.
  - apply sanitized_pieces.
Qed.

Lemma generate_unique_id_ascii_witness :
  matches_lower_id (_generate_unique_id "Left Arm (2)" {["left_arm_2"]}) = true
  /\ _generate_unique_id "Left Arm (2)" {["left_arm_2"]} = "left_arm_2_1".
Proof.
  split.
  - exact (proj1 (generate_unique_id_ascii "Left Arm (2)" {["left_arm_2"]} eq_refl)).
  - vm_compute. reflexivity.
Defined.

(** The statement of the specification fails on an alphanumeric character outside
    ASCII: [str.isalnum] keeps the letter with code point 233 (e with an
    acute accent), so the id is that letter and does not match
    [[a-z0-9_]+]. *)
Lemma generate_unique_id_keeps_non_ascii :
  ~ (forall (base_name : string) (used_names : gset string),
       matches_lower_id (_generate_unique_id base_name used_names) = true).
Proof.
  intros H. specialize (H (String "233"%char EmptyString) ∅).
  vm_compute in H. discriminate H.
Qed.

End PartIdTheorems.

(** ** Stage edits *)

Section StageFacts.

Lemma prim_at_define_eq ty path s :
  Doc.prim_at (Usd.author ty path s) path =
  Some (match Doc.prim_at s path with
        | Some p => Usd.set_typeName ty p
        | None => Usd.new_prim ty
        end).
Proof.
  unfold Doc.prim_at, Usd.author, Usd.with_prims. simpl.
  destruct (Usd.prims s !! path); apply lookup_insert_eq.
Qed.

Lemma prim_at_define_ne ty path q s :
  path <> q -> Doc.prim_at (Usd.author ty path s) q = Doc.prim_at s q.
Proof.
  intros Hne. unfold Doc.prim_at, Usd.author, Usd.with_prims. simpl.
  destruct (Usd.prims s !! path); apply lookup_insert_ne, Hne.
Qed.

Lemma prim_at_edit_eq f path s :
  Doc.prim_at (Usd.edit f path s) path = f <$> Doc.prim_at s path.
Proof.
  unfold Doc.prim_at, Usd.edit, Usd.with_prims. simpl.
  destruct (Usd.prims s !! path) eqn:E; simpl; [apply lookup_insert_eq | exact E].
Qed.

Lemma prim_at_edit_ne f path q s :
  path <> q -> Doc.prim_at (Usd.edit f path s) q = Doc.prim_at s q.
Proof.
  intros Hne. unfold Doc.prim_at, Usd.edit, Usd.with_prims. simpl.
  destruct (Usd.prims s !! path); [apply lookup_insert_ne, Hne | reflexivity].
Qed.

Lemma is_valid_prim_at s path :
  Usd.is_valid s path = match Doc.prim_at s path with Some _ => true | None => false end.
Proof. reflexivity. Qed.

Lemma is_valid_edit f path q s :
  Usd.is_valid (Usd.edit f path s) q = Usd.is_valid s q.
Proof.
  rewrite !is_valid_prim_at. destruct (decide (path = q)) as [-> | Hne].
  - rewrite prim_at_edit_eq. destruct (Doc.prim_at s q); reflexivity.
  - rewrite prim_at_edit_ne by exact Hne. reflexivity.
Qed.

Lemma defaultPrim_edit f path s : Usd.defaultPrim (Usd.edit f path s) = Usd.defaultPrim s.
Proof. reflexivity. Qed.

Lemma defaultPrim_define ty path s :
  Usd.defaultPrim (Usd.author ty path s) = Usd.defaultPrim s.
Proof. reflexivity. Qed.

Lemma is_a_edit f path q ty s :
  (forall p, Usd.typeName (f p) = Usd.typeName p) ->
  Usd.is_a (Usd.edit f path s) q ty = Usd.is_a s q ty.
Proof.
  intros Hf. unfold Usd.is_a. fold (Doc.prim_at (Usd.edit f path s) q).
  fold (Doc.prim_at s q). destruct (decide (path = q)) as [-> | Hne].
  - rewrite prim_at_edit_eq. destruct (Doc.prim_at s q); simpl; [rewrite Hf |]; reflexivity.
  - rewrite prim_at_edit_ne by exact Hne. reflexivity.
Qed.

Lemma is_a_prim_at s path ty p :
  Doc.prim_at s path = Some p -> Usd.is_a s path ty = String.eqb (Usd.typeName p) ty.
Proof. unfold Usd.is_a, Doc.prim_at. intros ->. reflexivity. Qed.

Lemma append_child_ne path name : path +:+ "/" +:+ name <> path.
Proof.
  intros H. apply (f_equal String.length) in H.
  rewrite !string_length_app in H. simpl in H. lia.
Qed.

Lemma mesh_path_ne path : path +:+ "/mesh" <> path.
Proof. apply (append_child_ne path "mesh"). Qed.

End StageFacts.


Section PartAnnotation.
Import Eff PhysicsInjector.

Lemma get_valid_prim_ok s path p :
  Doc.prim_at s path = Some p -> get_valid_prim path s = (Ok tt, s, []).
Proof.
  intros H. unfold get_valid_prim, bind, get_stage.
  rewrite is_valid_prim_at, H. reflexivity.
Qed.

Lemma get_valid_prim_raise s path :
  Doc.prim_at s path = None ->
  get_valid_prim path s = (Raise (ValueError ("Prim not found: " +:+ path)), s, []).
Proof.
  intros H. unfold get_valid_prim, bind, get_stage.
  rewrite is_valid_prim_at, H. reflexivity.
Qed.

Ltac prim_lookup :=
  repeat first
    [ rewrite prim_at_edit_eq
    | rewrite prim_at_edit_ne by congruence
    | rewrite prim_at_define_eq
    | rewrite prim_at_define_ne by congruence ].

Ltac attr_lookup :=
  cbn [Usd.set_attr Usd.add_api Usd.set_rel Usd.set_meta Usd.set_typeName
       Usd.attributes Usd.apiSchemas Usd.typeName Usd.relationships Usd.metadata];
  repeat first
    [ rewrite lookup_insert_eq
    | rewrite lookup_insert_ne by (intros ?; discriminate) ].

Lemma density_or_default_spec self density :
  density_or_default self density = Spec.density_written (default_density self) density.
Proof.
  unfold density_or_default, Spec.density_written, float_truthy.
  destruct density as [d |]; [| reflexivity]. destruct (PrimFloat.eqb d 0); reflexivity.
Qed.

(** What [apply_rigid_body] does to a prim that is there. *)
Lemma apply_rigid_body_run self path kin mass density com s p :
  Doc.prim_at s path = Some p ->
  exists s' p',
    apply_rigid_body self path kin mass density com s = (Ok tt, s', [])
    /\ (forall q, q <> path -> Doc.prim_at s' q = Doc.prim_at s q)
    /\ Usd.defaultPrim s' = Usd.defaultPrim s
    /\ Doc.prim_at s' path = Some p'
    /\ Usd.typeName p' = Usd.typeName p
    /\ Usd.apiSchemas p' = {[Usd.MassAPI]} ∪ ({[Usd.RigidBodyAPI]} ∪ Usd.apiSchemas p)
    /\ Usd.attributes p' !! "physics:mass" =
         match mass with
         | Some m => Some (Usd.Float m)
         | None => Usd.attributes p !! "physics:mass"
         end
    /\ Usd.attributes p' !! "physics:density" =
         match mass with
         | Some _ => Usd.attributes p !! "physics:density"
         | None => Some (Usd.Float (Spec.density_written (default_density self) density))
         end
    /\ Usd.attributes p' !! "physics:kinematicEnabled" =
         (if kin then Some (Usd.VBool true)
          else Usd.attributes p !! "physics:kinematicEnabled")
    /\ Usd.attributes p' !! "physics:centerOfMass" =
         match com with
         | Some c => Some (Usd.Float3 c)
         | None => Usd.attributes p !! "physics:centerOfMass"
         end
    /\ (forall a, a <> "physics:mass" -> a <> "physics:density" ->
                  a <> "physics:kinematicEnabled" -> a <> "physics:centerOfMass" ->
                  Usd.attributes p' !! a = Usd.attributes p !! a).
Proof.
  intros Hp. unfold apply_rigid_body.
  unfold bind at 1. rewrite (get_valid_prim_ok _ _ _ Hp).
  unfold bind, modify_stage, when, when_some, ret.
  rewrite density_or_default_spec.
  destruct kin, mass as [m |], com as [c |]; cbn [app];
    (eexists _, _; split; [reflexivity |]; split;
     [ intros q Hq; prim_lookup; reflexivity
     | split; [reflexivity |]; split;
       [ prim_lookup; rewrite Hp; reflexivity
       | repeat split; attr_lookup; try reflexivity;
         intros a H1 H2 H3 H4;
         rewrite ?lookup_insert_ne by congruence; reflexivity ] ]).
Qed.

(** What [apply_collision] does to a prim that is there. *)
Lemma apply_collision_run path collision_type s pm :
  Doc.prim_at s path = Some pm ->
  exists s' pm',
    apply_collision path collision_type s = (Ok tt, s', [])
    /\ (forall q, q <> path -> Doc.prim_at s' q = Doc.prim_at s q)
    /\ Usd.defaultPrim s' = Usd.defaultPrim s
    /\ Doc.prim_at s' path = Some pm'
    /\ Usd.typeName pm' = Usd.typeName pm
    /\ (Usd.typeName pm = Usd.Mesh ->
        Usd.apiSchemas pm' =
          {[Usd.MeshCollisionAPI]} ∪ ({[Usd.CollisionAPI]} ∪ Usd.apiSchemas pm)
        /\ Usd.attributes pm' !! "physics:approximation" =
             Some (Usd.VToken (Spec.approximation_tag collision_type)))
    /\ (Usd.typeName pm <> Usd.Mesh ->
        Usd.apiSchemas pm' = {[Usd.CollisionAPI]} ∪ Usd.apiSchemas pm
        /\ Usd.attributes pm' = Usd.attributes pm).
Proof.
  intros Hpm. unfold apply_collision.
  unfold bind at 1. rewrite (get_valid_prim_ok _ _ _ Hpm).
  unfold bind, modify_stage, when, ret, get_stage.
  rewrite is_a_edit by reflexivity. rewrite (is_a_prim_at _ _ _ _ Hpm).
  unfold Spec.approximation_tag.
  destruct (String.eqb (Usd.typeName pm) Usd.Mesh) eqn:Ety.
  - apply String.eqb_eq in Ety.
    destruct (String.eqb collision_type "convexHull");
      [| destruct (String.eqb collision_type "convexDecomposition")]; cbn [app];
      (eexists _, _; split; [reflexivity |]; split;
       [ intros q Hq; prim_lookup; reflexivity
       | split; [reflexivity |]; split;
         [ prim_lookup; rewrite Hpm; reflexivity
         | split; [reflexivity |]; split;
           [ intros _; split; attr_lookup; reflexivity
           | intros Hn; contradiction ] ] ]).
  - apply String.eqb_neq in Ety.
    eexists _, _; split; [reflexivity |]; split;
      [ intros q Hq; prim_lookup; reflexivity
      | split; [reflexivity |]; split;
        [ prim_lookup; rewrite Hpm; reflexivity
        | split; [reflexivity |]; split;
          [ intros Hn; contradiction
          | intros _; split; reflexivity ] ] ].
Qed.

(** The loop body on a part whose id resolves to a prim: rigid body and
    mass on that prim, then collision on its [mesh] child when there
    is one; no exception, no warning. *)
Lemma inject_part_run self part_paths part prim_path s p :
  PyDict.get part_paths (Part.id part) = Some prim_path ->
  Doc.prim_at s prim_path = Some p ->
  exists s1 s2,
    apply_rigid_body self prim_path (String.eqb (Part.type part) "base")
      (Part.mass part) (Part.density part) (Part.center_of_mass part) s = (Ok tt, s1, [])
    /\ inject_part self part_paths part s = (Ok tt, s2, [])
    /\ match Doc.prim_at s (prim_path +:+ "/mesh") with
       | Some _ =>
           apply_collision (prim_path +:+ "/mesh") (Part.collision_type part) s1
           = (Ok tt, s2, [])
       | None => s2 = s1
       end.
Proof.
  intros Hget Hp.
  destruct (apply_rigid_body_run self prim_path (String.eqb (Part.type part) "base")
              (Part.mass part) (Part.density part) (Part.center_of_mass part) s p Hp)
    as (s1 & p' & Hrun & Hframe & _).
  pose proof (Hframe _ (mesh_path_ne prim_path)) as Hmesh.
  unfold inject_part, PyDict.mem, item. rewrite Hget. cbn [negb].
  unfold bind at 1. rewrite Hrun. unfold bind, get_stage, when, ret.
  rewrite is_valid_prim_at, Hmesh.
  destruct (Doc.prim_at s (prim_path +:+ "/mesh")) as [pm |] eqn:Epm.
  - destruct (apply_collision_run (prim_path +:+ "/mesh") (Part.collision_type part) s1 pm Hmesh)
      as (s2 & pm' & Hcol & _).
    exists s1, s2. rewrite Hcol. repeat split; reflexivity.
  - exists s1, s1. repeat split; reflexivity.
Qed.
End PartAnnotation.

Section PartTheorems.
Import Eff PhysicsInjector.

Lemma is_valid_Some s path :
  Usd.is_valid s path = true -> exists p, Doc.prim_at s path = Some p.
Proof.
  rewrite is_valid_prim_at. destruct (Doc.prim_at s path) as [p |]; [eauto | discriminate].
Qed.

Lemma is_a_Some s path ty :
  Usd.is_a s path ty = true ->
  exists p, Doc.prim_at s path = Some p /\ Usd.typeName p = ty.
Proof.
  unfold Usd.is_a. fold (Doc.prim_at s path).
  destruct (Doc.prim_at s path) as [p |]; [| discriminate].
  intros H. apply String.eqb_eq in H. eauto.
Qed.

Lemma attr_frame s s' path q a :
  (forall q, q <> path -> Doc.prim_at s' q = Doc.prim_at s q) ->
  q <> path -> Doc.attr s' q a = Doc.attr s q a.
Proof. intros H Hq. unfold Doc.attr. rewrite (H q Hq). reflexivity. Qed.

Lemma apis_frame s s' path q :
  (forall q, q <> path -> Doc.prim_at s' q = Doc.prim_at s q) ->
  q <> path -> Doc.apis_at s' q = Doc.apis_at s q.
Proof. intros H Hq. unfold Doc.apis_at. rewrite (H q Hq). reflexivity. Qed.

(** C9. For every part whose id resolves to a prim with a [Mesh] child
    at [<path>/mesh], the annotation step applies the collision API and
    the mesh-collision API on that child and writes its approximation:
    [convexHull] for [convexHull], [convexDecomposition] for
    [convexDecomposition], [none] for anything else.  The transform node
    itself gains the rigid-body and mass APIs only and no approximation
    attribute. *)
Theorem collision_on_mesh_child (self : t) (part_paths : PyDict.dict string)
    (part : Part.t) (prim_path : string) (s : Usd.Stage)
    (Hget : PyDict.get part_paths (Part.id part) = Some prim_path)
    (Hvalid : Usd.is_valid s prim_path = true)
    (Hmesh : Usd.is_a s (prim_path +:+ "/mesh") Usd.Mesh = true) :
  let run := inject_part self part_paths part s in
  let mesh_path := prim_path +:+ "/mesh" in
  let approximation := Doc.attr (final run) mesh_path "physics:approximation" in
  result run = Ok tt
  /\ Doc.apis_at (final run) mesh_path
     = {[Usd.MeshCollisionAPI]} ∪ ({[Usd.CollisionAPI]} ∪ Doc.apis_at s mesh_path)
  /\ (Part.collision_type part = "convexHull" ->
      approximation = Some (Usd.VToken "convexHull"))
  /\ (Part.collision_type part = "convexDecomposition" ->
      approximation = Some (Usd.VToken "convexDecomposition"))
  /\ (Part.collision_type part <> "convexHull" ->
      Part.collision_type part <> "convexDecomposition" ->
      approximation = Some (Usd.VToken "none"))
  /\ Doc.apis_at (final run) prim_path
     = {[Usd.MassAPI]} ∪ ({[Usd.RigidBodyAPI]} ∪ Doc.apis_at s prim_path)
  /\ Doc.has_api (final run) prim_path Usd.CollisionAPI
     = Doc.has_api s prim_path Usd.CollisionAPI
  /\ Doc.attr (final run) prim_path "physics:approximation"
     = Doc.attr s prim_path "physics:approximation".
Proof.
  destruct (is_valid_Some _ _ Hvalid) as [p Hp].
  destruct (is_a_Some _ _ _ Hmesh) as (pm & Hpm & Hty).
  destruct (inject_part_run self part_paths part prim_path s p Hget Hp)
    as (s1 & s2 & Hrb & Hrun & Hcol).
  rewrite Hpm in Hcol.
  destruct (apply_rigid_body_run self prim_path (String.eqb (Part.type part) "base")
              (Part.mass part) (Part.density part) (Part.center_of_mass part) s p Hp)
    as (s1' & p' & Hrb' & Hframe1 & _ & Hp' & _ & Hapis & _ & _ & _ & _ & Hother).
  rewrite Hrb in Hrb'. injection Hrb' as <-.
  assert (Hpm1 : Doc.prim_at s1 (prim_path +:+ "/mesh") = Some pm).
  { rewrite Hframe1; [exact Hpm | apply mesh_path_ne]. }
  destruct (apply_collision_run (prim_path +:+ "/mesh") (Part.collision_type part) s1 pm Hpm1)
    as (s2' & pm' & Hcol' & Hframe2 & _ & Hpm' & _ & Hmesh2 & _).
  rewrite Hcol in Hcol'. injection Hcol' as <-.
  destruct (Hmesh2 Hty) as [Hapis2 Happrox].
  assert (H2 : Doc.prim_at s2 prim_path = Some p').
  { rewrite Hframe2; [exact Hp' |]. intros E. exact (mesh_path_ne _ (eq_sym E)). }
  assert (Hrigid : Doc.apis_at s2 prim_path
                   = {[Usd.MassAPI]} ∪ ({[Usd.RigidBodyAPI]} ∪ Doc.apis_at s prim_path)).
  { unfold Doc.apis_at. rewrite H2, Hp. exact Hapis. }
  cbv zeta. rewrite Hrun. unfold result, final. cbn [fst snd].
  split; [reflexivity |]. split.
  { unfold Doc.apis_at. rewrite Hpm', Hpm. exact Hapis2. }
  unfold Doc.attr at 1 2 3. rewrite Hpm', Happrox. unfold Spec.approximation_tag.
  split; [intros ->; reflexivity |]. split; [intros ->; reflexivity |]. split.
  { intros H1 H2'. apply String.eqb_neq in H1, H2'. rewrite H1, H2'. reflexivity. }
  split; [exact Hrigid |]. split.
  - unfold Doc.has_api. rewrite Hrigid.
    apply bool_decide_ext. rewrite !elem_of_union, !elem_of_singleton.
    split; [| auto]. intros [H | [H | H]]; [discriminate H | discriminate H | exact H].
  - unfold Doc.attr. rewrite H2, Hp. apply Hother; discriminate.
Qed.

End PartTheorems.

Section PartExamples.
Import Eff PhysicsInjector Examples.

Lemma built_paths : result built = Ok paths.
Proof. vm_compute. reflexivity. Qed.

Lemma collision_on_mesh_child_witness :
  let run := inject_part physics_injector paths
               (part "a" "link" None (Some 500%float) "mesh") doc in
  Doc.attr (final run) "/robot/a/mesh" "physics:approximation" = Some (Usd.VToken "none")
  /\ Doc.has_api (final run) "/robot/a/mesh" Usd.CollisionAPI = true
  /\ Doc.has_api (final run) "/robot/a" Usd.CollisionAPI = false.
Proof.
  pose proof (collision_on_mesh_child physics_injector paths
                (part "a" "link" None (Some 500%float) "mesh")
                "/robot/a" doc eq_refl eq_refl eq_refl) as H.
  cbv zeta in H. destruct H as (_ & Hapis & _ & _ & Hnone & _ & Hroot & _).
  change "/robot/a/mesh" with ("/robot/a" +:+ "/mesh").
  split; [apply Hnone; discriminate |]. split.
  - unfold Doc.has_api. rewrite Hapis. apply bool_decide_eq_true.
    apply elem_of_union_r, elem_of_union_l, elem_of_singleton. reflexivity.
  - rewrite Hroot. vm_compute. reflexivity.
Defined.

End PartExamples.

(** ** The joint constructors, prim by prim *)

Section Runs.
Import Eff.

Lemma bind_run {X Y} (m : M X) (k : X -> M Y) s a s1 l1 :
  m s = (Ok a, s1, l1) ->
  bind m k s = (let '(r, s2, l2) := k a s1 in (r, s2, l1 ++ l2)).
Proof. intros E. unfold bind. rewrite E. reflexivity. Qed.

Lemma bind_modify {Y} f (k : unit -> M Y) s :
  bind (modify_stage f) k s = k tt (f s).
Proof. unfold bind, modify_stage. destruct (k tt (f s)) as [[r s2] l2]. reflexivity. Qed.

Lemma bind_quiet_run {X Y} (m : M X) (k : X -> M Y) s a s1 :
  m s = (Ok a, s1, []) -> bind m k s = k a s1.
Proof.
  intros E. rewrite (bind_run _ _ _ _ _ _ E).
  destruct (k a s1) as [[r s2] l2]. reflexivity.
Qed.

Lemma bind_raise {X Y} (m : M X) (k : X -> M Y) s e s1 l1 :
  m s = (Raise e, s1, l1) -> bind m k s = (Raise e, s1, l1).
Proof. intros E. unfold bind. rewrite E. reflexivity. Qed.

Lemma define_ok ty path s :
  Sdf.is_prim_path path = true -> define ty path s = (Ok tt, Usd.author ty path s, []).
Proof. intros H. unfold define, Usd.Define. rewrite H. reflexivity. Qed.

Lemma define_raise ty path s :
  Sdf.is_prim_path path = false -> define ty path s = (Raise TfErrorException, s, []).
Proof. intros H. unfold define, Usd.Define. rewrite H. reflexivity. Qed.

Lemma set_target_ok r target prim_path s :
  Sdf.is_prim_path target = true ->
  set_target r target prim_path s
  = (Ok tt, Usd.edit (Usd.set_rel r [target]) prim_path s, []).
Proof. intros H. unfold set_target. rewrite H. reflexivity. Qed.

Lemma set_target_raise r target prim_path s :
  Sdf.is_prim_path target = false ->
  set_target r target prim_path s = (Raise TfErrorException, s, []).
Proof. intros H. unfold set_target. rewrite H. reflexivity. Qed.

Lemma edit_edit f g path s :
  Usd.edit g path (Usd.edit f path s) = Usd.edit (fun p => g (f p)) path s.
Proof.
  unfold Usd.edit, Usd.with_prims. destruct s as [i u m d ps]. simpl.
  destruct (ps !! path) as [p |] eqn:E; simpl.
  - rewrite lookup_insert_eq, insert_insert_eq. reflexivity.
  - rewrite E. reflexivity.
Qed.

Lemma edit_id path s : Usd.edit (fun p => p) path s = s.
Proof.
  unfold Usd.edit, Usd.with_prims. destruct s as [i u m d ps]. simpl.
  destruct (ps !! path) as [p |] eqn:E; [| reflexivity].
  rewrite insert_id by exact E. reflexivity.
Qed.

End Runs.

Section JointConstructors.
Import Eff PhysicsInjector.

Lemma joints_parent_ok s :
  Written.container_accepted s = true ->
  joints_parent None s = (Ok (Written.container s), Written.with_container s, []).
Proof.
  unfold Written.container_accepted, joints_parent, Written.with_container,
    Written.container, Usd.GetDefaultPrim, bind, get_stage, when, define, Usd.Define, ret.
  destruct (Usd.is_valid s (Usd.defaultPrim s)); cbn [andb]; [| discriminate].
  destruct (Usd.is_valid s _); cbn [negb orb]; [reflexivity |].
  intros ->. reflexivity.
Qed.

Lemma joints_parent_raise s :
  Written.container_accepted s = false ->
  joints_parent None s = (Raise TfErrorException, s, []).
Proof.
  unfold Written.container_accepted, joints_parent, Written.container, Usd.GetDefaultPrim,
    bind, get_stage, when, define, Usd.Define, ret, raise.
  destruct (Usd.is_valid s (Usd.defaultPrim s)); cbn [andb]; [| reflexivity].
  destruct (Usd.is_valid s _); cbn [negb orb]; [discriminate |].
  intros ->. reflexivity.
Qed.

Lemma set_bodies_written path parent child s :
  Sdf.is_prim_path parent = true -> Sdf.is_prim_path child = true ->
  set_bodies path parent child s = (Ok tt, Usd.edit (Written.bodies parent child) path s, []).
Proof.
  intros Hp Hc. unfold set_bodies, Written.bodies.
  rewrite (bind_quiet_run _ _ _ _ _ (set_target_ok _ _ _ _ Hp)).
  rewrite (set_target_ok _ _ _ _ Hc), edit_edit. reflexivity.
Qed.

Lemma set_bodies_raise path parent child s :
  Sdf.is_prim_path parent && Sdf.is_prim_path child = false ->
  exists s', set_bodies path parent child s = (Raise TfErrorException, s', []).
Proof.
  intros H. unfold set_bodies.
  destruct (Sdf.is_prim_path parent) eqn:Hp.
  - cbn [andb] in H. rewrite (bind_quiet_run _ _ _ _ _ (set_target_ok _ _ _ _ Hp)).
    rewrite (set_target_raise _ _ _ _ H). eauto.
  - rewrite (bind_raise _ _ _ _ _ _ (set_target_raise _ _ _ _ Hp)). eauto.
Qed.

Lemma set_limits_written path lower upper s :
  set_limits path lower upper s = (Ok tt, Usd.edit (Written.limits lower upper) path s, []).
Proof.
  unfold set_limits, Written.limits, Written.optional, bind, when_some, modify_stage, ret.
  destruct lower, upper; cbn [app]; rewrite ?edit_edit, ?edit_id; reflexivity.
Qed.

Lemma set_local_poses_written path s :
  set_local_poses path s = (Ok tt, Usd.edit Written.local_poses path s, []).
Proof.
  unfold set_local_poses, Written.local_poses, bind, modify_stage. cbn [app].
  rewrite !edit_edit. reflexivity.
Qed.

Lemma apply_joint_drive_written path drive_type stiffness damping max_force is_angular s :
  _apply_joint_drive path drive_type stiffness damping max_force is_angular s
  = (Ok tt,
     Usd.edit (Written.drive (if is_angular then "angular" else "linear") drive_type
                 stiffness damping max_force) path s, []).
Proof.
  unfold _apply_joint_drive, Written.drive, Written.drive_target, Written.optional,
    Written.drive_attr, bind, when_some, modify_stage, ret.
  destruct is_angular, stiffness, damping, max_force,
    (String.eqb drive_type "position"), (String.eqb drive_type "velocity");
    cbn [app]; rewrite ?edit_edit; reflexivity.
Qed.

Lemma when_driven_written path drive_type stiffness damping max_force is_angular s :
  when (driven drive_type stiffness)
    (_apply_joint_drive path drive_type stiffness damping max_force is_angular) s
  = (Ok tt,
     Usd.edit (Written.drive_if_driven (if is_angular then "angular" else "linear")
                 drive_type stiffness damping max_force) path s, []).
Proof.
  unfold when, Written.drive_if_driven. destruct (driven drive_type stiffness).
  - apply apply_joint_drive_written.
  - rewrite edit_id. reflexivity.
Qed.

(** The three constructors when the library accepts their paths. *)
Lemma create_revolute_joint_written name parent child axis lower upper st da mf dt s :
  Written.accepted s name parent child = true ->
  create_revolute_joint name parent child axis lower upper st da mf dt None s
  = (Ok (Written.joint_path s name),
     Usd.edit (Written.axis_joint "angular" parent child axis lower upper st da mf dt)
       (Written.joint_path s name)
       (Usd.author Usd.PhysicsRevoluteJoint (Written.joint_path s name)
          (Written.with_container s)), []).
Proof.
  unfold Written.accepted. rewrite !andb_true_iff. intros [[[Hc Hj] Hp] Hch].
  unfold create_revolute_joint.
  rewrite (bind_quiet_run _ _ _ _ _ (joints_parent_ok s Hc)).
  rewrite (bind_quiet_run _ _ _ _ _ (define_ok _ _ _ Hj)).
  rewrite (bind_quiet_run _ _ _ _ _ (set_bodies_written _ _ _ _ Hp Hch)).
  rewrite bind_modify.
  rewrite (bind_quiet_run _ _ _ _ _ (set_limits_written _ _ _ _)).
  rewrite (bind_quiet_run _ _ _ _ _ (set_local_poses_written _ _)).
  rewrite (bind_quiet_run _ _ _ _ _ (when_driven_written _ _ _ _ _ true _)).
  unfold ret, Written.axis_joint, Written.undriven. rewrite !edit_edit. reflexivity.
Qed.

Lemma create_prismatic_joint_written name parent child axis lower upper st da mf dt s :
  Written.accepted s name parent child = true ->
  create_prismatic_joint name parent child axis lower upper st da mf dt None s
  = (Ok (Written.joint_path s name),
     Usd.edit (Written.axis_joint "linear" parent child axis lower upper st da mf dt)
       (Written.joint_path s name)
       (Usd.author Usd.PhysicsPrismaticJoint (Written.joint_path s name)
          (Written.with_container s)), []).
Proof.
  unfold Written.accepted. rewrite !andb_true_iff. intros [[[Hc Hj] Hp] Hch].
  unfold create_prismatic_joint.
  rewrite (bind_quiet_run _ _ _ _ _ (joints_parent_ok s Hc)).
  rewrite (bind_quiet_run _ _ _ _ _ (define_ok _ _ _ Hj)).
  rewrite (bind_quiet_run _ _ _ _ _ (set_bodies_written _ _ _ _ Hp Hch)).
  rewrite bind_modify.
  rewrite (bind_quiet_run _ _ _ _ _ (set_limits_written _ _ _ _)).
  rewrite (bind_quiet_run _ _ _ _ _ (set_local_poses_written _ _)).
  rewrite (bind_quiet_run _ _ _ _ _ (when_driven_written _ _ _ _ _ false _)).
  unfold ret, Written.axis_joint, Written.undriven. rewrite !edit_edit. reflexivity.
Qed.

Lemma create_fixed_joint_written name parent child s :
  Written.accepted s name parent child = true ->
  create_fixed_joint name parent child None s
  = (Ok (Written.joint_path s name),
     Usd.edit (Written.fixed_joint parent child) (Written.joint_path s name)
       (Usd.author Usd.PhysicsFixedJoint (Written.joint_path s name)
          (Written.with_container s)), []).
Proof.
  unfold Written.accepted. rewrite !andb_true_iff. intros [[[Hc Hj] Hp] Hch].
  unfold create_fixed_joint.
  rewrite (bind_quiet_run _ _ _ _ _ (joints_parent_ok s Hc)).
  rewrite (bind_quiet_run _ _ _ _ _ (define_ok _ _ _ Hj)).
  rewrite (bind_quiet_run _ _ _ _ _ (set_bodies_written _ _ _ _ Hp Hch)).
  rewrite (bind_quiet_run _ _ _ _ _ (set_local_poses_written _ _)).
  unfold ret, Written.fixed_joint. rewrite !edit_edit. reflexivity.
Qed.

(** The steps every constructor starts with, when the library rejects
    one of the paths: the exception of the first call that fails. *)
Lemma joint_opening_raise {X} ty name parent child (rest : string -> M X) s :
  Written.accepted s name parent child = false ->
  exists s',
    (joints_parent_path <- joints_parent None ;;
     let joint_path := joints_parent_path +:+ "/" +:+ _sanitize_name name in
     define ty joint_path ;;;
     set_bodies joint_path parent child ;;;
     rest joint_path) s
    = (Raise TfErrorException, s', []).
Proof.
  unfold Written.accepted. intros H.
  destruct (Written.container_accepted s) eqn:Hc.
  2:{ rewrite (bind_raise _ _ _ _ _ _ (joints_parent_raise s Hc)). eauto. }
  rewrite (bind_quiet_run _ _ _ _ _ (joints_parent_ok s Hc)).
  fold (Written.joint_path s name).
  destruct (Sdf.is_prim_path (Written.joint_path s name)) eqn:Hj.
  2:{ rewrite (bind_raise _ _ _ _ _ _ (define_raise _ _ _ Hj)). eauto. }
  rewrite (bind_quiet_run _ _ _ _ _ (define_ok _ _ _ Hj)).
  cbn [andb] in H.
  destruct (set_bodies_raise (Written.joint_path s name) parent child
              (Usd.author ty (Written.joint_path s name) (Written.with_container s)) H)
    as [s' Hs'].
  rewrite (bind_raise _ _ _ _ _ _ Hs'). eauto.
Qed.

Lemma create_revolute_joint_raise name parent child axis lower upper st da mf dt s :
  Written.accepted s name parent child = false ->
  exists s',
    create_revolute_joint name parent child axis lower upper st da mf dt None s
    = (Raise TfErrorException, s', []).
Proof.
  intros H.
  exact (joint_opening_raise Usd.PhysicsRevoluteJoint name parent child
           (fun joint_path =>
              modify_stage
                (Usd.edit (Usd.set_attr "physics:axis" (Usd.VToken (_axis_to_token axis)))
                   joint_path) ;;;
              set_limits joint_path lower upper ;;;
              set_local_poses joint_path ;;;
              when (driven dt st) (_apply_joint_drive joint_path dt st da mf true) ;;;
              ret joint_path) s H).
Qed.

Lemma create_prismatic_joint_raise name parent child axis lower upper st da mf dt s :
  Written.accepted s name parent child = false ->
  exists s',
    create_prismatic_joint name parent child axis lower upper st da mf dt None s
    = (Raise TfErrorException, s', []).
Proof.
  intros H.
  exact (joint_opening_raise Usd.PhysicsPrismaticJoint name parent child
           (fun joint_path =>
              modify_stage
                (Usd.edit (Usd.set_attr "physics:axis" (Usd.VToken (_axis_to_token axis)))
                   joint_path) ;;;
              set_limits joint_path lower upper ;;;
              set_local_poses joint_path ;;;
              when (driven dt st) (_apply_joint_drive joint_path dt st da mf false) ;;;
              ret joint_path) s H).
Qed.

Lemma create_fixed_joint_raise name parent child s :
  Written.accepted s name parent child = false ->
  exists s', create_fixed_joint name parent child None s = (Raise TfErrorException, s', []).
Proof.
  intros H.
  exact (joint_opening_raise Usd.PhysicsFixedJoint name parent child
           (fun joint_path => set_local_poses joint_path ;;; ret joint_path) s H).
Qed.

End JointConstructors.

(** ** Reading what a joint wrote *)

Ltac prim_read :=
  cbn [Usd.set_attr Usd.add_api Usd.set_rel Usd.set_meta Usd.set_typeName Usd.new_prim
       Usd.attributes Usd.apiSchemas Usd.typeName Usd.relationships Usd.metadata];
  repeat first
    [ rewrite lookup_insert_eq
    | rewrite lookup_insert_ne by (intros ?; discriminate) ].

Section PrefixFacts.

Lemma strip_prefix_app p r : Doc.strip_prefix p (p +:+ r) = Some r.
Proof.
  induction p as [| c p IH]; simpl; [reflexivity |].
  rewrite Ascii.eqb_refl. exact IH.
Qed.

Lemma strip_prefix_Some p q r : Doc.strip_prefix p q = Some r -> q = p +:+ r.
Proof.
  revert q. induction p as [| c p IH]; intros q H; simpl in *.
  - injection H as ->. reflexivity.
  - destruct q as [| d q]; [discriminate |].
    destruct (Ascii.eqb c d) eqn:E; [| discriminate].
    apply Ascii.eqb_eq in E. subst d. rewrite (IH q H). reflexivity.
Qed.

Lemma string_app_inv_head p a b : p +:+ a = p +:+ b -> a = b.
Proof.
  intros H. apply (f_equal (Doc.strip_prefix p)) in H.
  rewrite !strip_prefix_app in H. injection H as H. exact H.
Qed.

End PrefixFacts.

Section JointReads.
Import Eff PhysicsInjector.

Lemma typeName_optional a v p : Usd.typeName (Written.optional a v p) = Usd.typeName p.
Proof. destruct v; reflexivity. Qed.

Lemma apis_optional a v p : Usd.apiSchemas (Written.optional a v p) = Usd.apiSchemas p.
Proof. destruct v; reflexivity. Qed.

Lemma rels_optional a v p : Usd.relationships (Written.optional a v p) = Usd.relationships p.
Proof. destruct v; reflexivity. Qed.

Lemma attrs_optional_eq a v p :
  Usd.attributes (Written.optional a v p) !! a
  = match v with Some x => Some (Usd.Float x) | None => Usd.attributes p !! a end.
Proof. destruct v; [apply lookup_insert_eq | reflexivity]. Qed.

Lemma attrs_optional_ne a b v p :
  a <> b -> Usd.attributes (Written.optional a v p) !! b = Usd.attributes p !! b.
Proof. intros H. destruct v; [apply lookup_insert_ne, H | reflexivity]. Qed.

Lemma typeName_drive_if_driven n dt st da mf p :
  Usd.typeName (Written.drive_if_driven n dt st da mf p) = Usd.typeName p.
Proof.
  unfold Written.drive_if_driven, Written.drive, Written.drive_target.
  destruct (driven dt st); [| reflexivity].
  destruct (String.eqb dt "position"), (String.eqb dt "velocity");
    cbn [Usd.set_attr Usd.typeName]; rewrite !typeName_optional; reflexivity.
Qed.

Lemma rels_drive_if_driven n dt st da mf p :
  Usd.relationships (Written.drive_if_driven n dt st da mf p) = Usd.relationships p.
Proof.
  unfold Written.drive_if_driven, Written.drive, Written.drive_target.
  destruct (driven dt st); [| reflexivity].
  destruct (String.eqb dt "position"), (String.eqb dt "velocity");
    cbn [Usd.set_attr Usd.relationships]; rewrite !rels_optional; reflexivity.
Qed.

(** The drive writes attributes whose names start with [drive:] only. *)
Lemma attrs_drive_if_driven_other n dt st da mf p a :
  Doc.strip_prefix "drive:" a = None ->
  Usd.attributes (Written.drive_if_driven n dt st da mf p) !! a = Usd.attributes p !! a.
Proof.
  intros Ha.
  assert (Hne : forall b, Written.drive_attr n b <> a).
  { intros b <-. unfold Written.drive_attr in Ha. rewrite strip_prefix_app in Ha.
    discriminate Ha. }
  unfold Written.drive_if_driven, Written.drive, Written.drive_target.
  destruct (driven dt st); [| reflexivity].
  destruct (String.eqb dt "position"), (String.eqb dt "velocity");
    cbn [Usd.set_attr Usd.attributes];
    rewrite ?lookup_insert_ne by apply Hne;
    rewrite !attrs_optional_ne by apply Hne;
    cbn [Usd.set_attr Usd.add_api Usd.attributes];
    rewrite ?lookup_insert_ne by apply Hne; reflexivity.
Qed.

(** What the writes of a joint with an axis leave on its prim. *)
Lemma axis_joint_reads n parent child axis lower upper st da mf dt p :
  let q := Written.axis_joint n parent child axis lower upper st da mf dt p in
  Usd.typeName q = Usd.typeName p
  /\ JointPrim.placed parent child q
  /\ Usd.attributes q !! "physics:axis" = Some (Usd.VToken (_axis_to_token axis))
  /\ Usd.attributes q !! "physics:lowerLimit"
     = match lower with Some v => Some (Usd.Float v)
       | None => Usd.attributes p !! "physics:lowerLimit" end
  /\ Usd.attributes q !! "physics:upperLimit"
     = match upper with Some v => Some (Usd.Float v)
       | None => Usd.attributes p !! "physics:upperLimit" end.
Proof.
  intros q. subst q. unfold Written.axis_joint, Written.undriven, JointPrim.placed.
  rewrite typeName_drive_if_driven, rels_drive_if_driven.
  rewrite !attrs_drive_if_driven_other by reflexivity.
  destruct lower, upper;
    cbv [Written.local_poses Written.limits Written.optional Written.bodies];
    repeat split; prim_read; reflexivity.
Qed.

(** What the writes of a fixed joint leave on its prim. *)
Lemma fixed_joint_reads parent child p :
  let q := Written.fixed_joint parent child p in
  Usd.typeName q = Usd.typeName p
  /\ Usd.apiSchemas q = Usd.apiSchemas p
  /\ JointPrim.placed parent child q.
Proof.
  intros q. subst q.
  cbv [Written.fixed_joint Written.local_poses Written.bodies JointPrim.placed].
  repeat split; prim_read; reflexivity.
Qed.

Lemma dispatch_known part_paths joint :
  JointPrim.known_type (Joint.type joint) = true ->
  exists writes,
    JointPrim.dispatch part_paths joint = Some (JointPrim.prim_type (Joint.type joint), writes)
    /\ forall p,
         Usd.typeName (writes p) = Usd.typeName p
         /\ JointPrim.placed (item part_paths (Joint.parent joint))
              (item part_paths (Joint.child joint)) (writes p).
Proof.
  unfold JointPrim.known_type, JointPrim.dispatch, JointPrim.prim_type.
  destruct (String.eqb (Joint.type joint) "revolute").
  { intros _. eexists. split; [reflexivity |]. intros p.
    pose proof (axis_joint_reads "angular" (item part_paths (Joint.parent joint))
                  (item part_paths (Joint.child joint)) (Joint.axis joint)
                  (Joint.lower_limit joint) (Joint.upper_limit joint)
                  (Joint.drive_stiffness joint) (Joint.drive_damping joint)
                  (Joint.drive_max_force joint) (Joint.drive_type joint) p) as H.
    cbv zeta in H. tauto. }
  destruct (String.eqb (Joint.type joint) "prismatic").
  { intros _. eexists. split; [reflexivity |]. intros p.
    pose proof (axis_joint_reads "linear" (item part_paths (Joint.parent joint))
                  (item part_paths (Joint.child joint)) (Joint.axis joint)
                  (Joint.lower_limit joint) (Joint.upper_limit joint)
                  (Joint.drive_stiffness joint) (Joint.drive_damping joint)
                  (Joint.drive_max_force joint) (Joint.drive_type joint) p) as H.
    cbv zeta in H. tauto. }
  destruct (String.eqb (Joint.type joint) "fixed"); [| discriminate].
  intros _. eexists. split; [reflexivity |]. intros p.
  pose proof (fixed_joint_reads (item part_paths (Joint.parent joint))
                (item part_paths (Joint.child joint)) p) as H.
  cbv zeta in H. tauto.
Qed.

Lemma dispatch_unknown part_paths joint :
  JointPrim.known_type (Joint.type joint) = false ->
  JointPrim.dispatch part_paths joint = None.
Proof.
  unfold JointPrim.known_type, JointPrim.dispatch.
  destruct (String.eqb (Joint.type joint) "revolute"); [discriminate |].
  destruct (String.eqb (Joint.type joint) "prismatic"); [discriminate |].
  destruct (String.eqb (Joint.type joint) "fixed"); [discriminate | reflexivity].
Qed.

Lemma prim_type_is_joint ty : Usd.is_joint_type (JointPrim.prim_type ty) = true.
Proof.
  unfold JointPrim.prim_type.
  destruct (String.eqb ty "revolute"); [reflexivity |].
  destruct (String.eqb ty "prismatic"); reflexivity.
Qed.

End JointReads.

(** ** One pass of the joint loop *)

Section JointDispatch.
Import Eff PhysicsInjector.

(** A joint with a missing end is logged and nothing else. *)
Lemma inject_joint_dropped part_paths joint s :
  admitted part_paths joint = false ->
  inject_joint part_paths joint s = (Ok tt, s, [dropped_warning joint]).
Proof.
  unfold inject_joint, admitted, dropped_warning.
  destruct (PyDict.mem (Joint.parent joint) part_paths),
    (PyDict.mem (Joint.child joint) part_paths); cbn [negb orb andb];
    try discriminate; reflexivity.
Qed.

(** The pass returns when the library accepts the paths it is given. *)
Lemma inject_joint_written part_paths joint s :
  JointPrim.accepted part_paths s joint = true ->
  inject_joint part_paths joint s
  = (Ok tt, JointPrim.stage_after part_paths joint s,
     if admitted part_paths joint then [] else [dropped_warning joint]).
Proof.
  intros Hacc. destruct (admitted part_paths joint) eqn:Ha.
  2:{ rewrite (inject_joint_dropped _ _ _ Ha). unfold JointPrim.stage_after.
      rewrite Ha. reflexivity. }
  unfold JointPrim.accepted, JointPrim.written in Hacc. rewrite Ha in Hacc.
  cbn [andb] in Hacc.
  unfold inject_joint, JointPrim.stage_after, JointPrim.dispatch. rewrite Ha.
  unfold admitted in Ha. apply andb_true_iff in Ha as [-> ->]. cbn [negb orb].
  unfold JointPrim.known_type in Hacc.
  destruct (String.eqb (Joint.type joint) "revolute").
  { cbn [orb negb] in Hacc.
    rewrite (bind_run _ _ _ _ _ _ (create_revolute_joint_written _ _ _ _ _ _ _ _ _ _ _ Hacc)).
    reflexivity. }
  destruct (String.eqb (Joint.type joint) "prismatic").
  { cbn [orb negb] in Hacc.
    rewrite (bind_run _ _ _ _ _ _ (create_prismatic_joint_written _ _ _ _ _ _ _ _ _ _ _ Hacc)).
    reflexivity. }
  destruct (String.eqb (Joint.type joint) "fixed").
  { cbn [orb negb] in Hacc.
    rewrite (bind_run _ _ _ _ _ _ (create_fixed_joint_written _ _ _ _ Hacc)).
    reflexivity. }
  reflexivity.
Qed.

(** It raises the library's exception when the library rejects one. *)
Lemma inject_joint_raise part_paths joint s :
  JointPrim.accepted part_paths s joint = false ->
  exists s', inject_joint part_paths joint s = (Raise TfErrorException, s', []).
Proof.
  unfold JointPrim.accepted, JointPrim.written. intros Hacc.
  apply orb_false_iff in Hacc as [Hw Hacc]. apply negb_false_iff in Hw.
  apply andb_true_iff in Hw as [Ha Hk].
  unfold inject_joint. unfold admitted in Ha. apply andb_true_iff in Ha as [-> ->].
  cbn [negb orb]. unfold JointPrim.known_type in Hk.
  destruct (String.eqb (Joint.type joint) "revolute").
  { destruct (create_revolute_joint_raise (Joint.name joint)
                (item part_paths (Joint.parent joint)) (item part_paths (Joint.child joint))
                (Joint.axis joint) (Joint.lower_limit joint) (Joint.upper_limit joint)
                (Joint.drive_stiffness joint) (Joint.drive_damping joint)
                (Joint.drive_max_force joint) (Joint.drive_type joint) s Hacc) as [s' H].
    rewrite (bind_raise _ _ _ _ _ _ H). eauto. }
  destruct (String.eqb (Joint.type joint) "prismatic").
  { destruct (create_prismatic_joint_raise (Joint.name joint)
                (item part_paths (Joint.parent joint)) (item part_paths (Joint.child joint))
                (Joint.axis joint) (Joint.lower_limit joint) (Joint.upper_limit joint)
                (Joint.drive_stiffness joint) (Joint.drive_damping joint)
                (Joint.drive_max_force joint) (Joint.drive_type joint) s Hacc) as [s' H].
    rewrite (bind_raise _ _ _ _ _ _ H). eauto. }
  destruct (String.eqb (Joint.type joint) "fixed"); [| discriminate Hk].
  destruct (create_fixed_joint_raise (Joint.name joint)
              (item part_paths (Joint.parent joint)) (item part_paths (Joint.child joint))
              s Hacc) as [s' H].
  rewrite (bind_raise _ _ _ _ _ _ H). eauto.
Qed.

(** A pass that returns has left the stage of [JointPrim.stage_after]. *)
Lemma inject_joint_returned part_paths joint s s' l :
  inject_joint part_paths joint s = (Ok tt, s', l) ->
  JointPrim.accepted part_paths s joint = true
  /\ s' = JointPrim.stage_after part_paths joint s.
Proof.
  intros H. destruct (JointPrim.accepted part_paths s joint) eqn:Hacc.
  - rewrite (inject_joint_written _ _ _ Hacc) in H. injection H as <- _.
    split; reflexivity.
  - destruct (inject_joint_raise _ _ _ Hacc) as [s1 H1]. rewrite H1 in H. discriminate H.
Qed.

(** A pass on a joint with both ends logs nothing, whatever it does. *)
Lemma inject_joint_quiet part_paths joint s :
  admitted part_paths joint = true ->
  warnings (inject_joint part_paths joint s) = [].
Proof.
  intros Ha. destruct (JointPrim.accepted part_paths s joint) eqn:Hacc.
  - rewrite (inject_joint_written _ _ _ Hacc), Ha. reflexivity.
  - destruct (inject_joint_raise _ _ _ Hacc) as [s1 ->]. reflexivity.
Qed.

Lemma defaultPrim_with_container s :
  Usd.defaultPrim (Written.with_container s) = Usd.defaultPrim s.
Proof. unfold Written.with_container. destruct (Usd.is_valid s _); reflexivity. Qed.

Lemma defaultPrim_stage_after part_paths joint s :
  Usd.defaultPrim (JointPrim.stage_after part_paths joint s) = Usd.defaultPrim s.
Proof.
  unfold JointPrim.stage_after. destruct (admitted part_paths joint); [| reflexivity].
  destruct (JointPrim.dispatch part_paths joint) as [[ty writes] |]; [| reflexivity].
  rewrite defaultPrim_edit, defaultPrim_define. apply defaultPrim_with_container.
Qed.

Lemma joint_path_stage_after part_paths joint s name :
  Written.joint_path (JointPrim.stage_after part_paths joint s) name
  = Written.joint_path s name.
Proof.
  unfold Written.joint_path, Written.container. rewrite defaultPrim_stage_after. reflexivity.
Qed.

Lemma joint_path_not_container s name : Written.container s <> Written.joint_path s name.
Proof. intros H. symmetry in H. revert H. apply append_child_ne. Qed.

Lemma prim_at_with_container_ne s q :
  Written.container s <> q ->
  Doc.prim_at (Written.with_container s) q = Doc.prim_at s q.
Proof.
  intros Hne. unfold Written.with_container. destruct (Usd.is_valid s _); [reflexivity |].
  apply prim_at_define_ne, Hne.
Qed.

Lemma prim_at_joint_path_with_container s name :
  Doc.prim_at (Written.with_container s) (Written.joint_path s name)
  = Doc.prim_at s (Written.joint_path s name).
Proof. apply prim_at_with_container_ne, joint_path_not_container. Qed.

(** A joint leaves every prim but the container and its own alone. *)
Lemma prim_at_stage_after_ne part_paths joint s q :
  Written.container s <> q ->
  Written.joint_path s (Joint.name joint) <> q ->
  Doc.prim_at (JointPrim.stage_after part_paths joint s) q = Doc.prim_at s q.
Proof.
  intros Hc Hj. unfold JointPrim.stage_after.
  destruct (admitted part_paths joint); [| reflexivity].
  destruct (JointPrim.dispatch part_paths joint) as [[ty writes] |]; [| reflexivity].
  rewrite prim_at_edit_ne, prim_at_define_ne by exact Hj.
  apply prim_at_with_container_ne, Hc.
Qed.

(** The prim a joint of a known type leaves at its own path. *)
Lemma prim_at_stage_after part_paths joint s :
  JointPrim.written part_paths joint = true ->
  exists writes,
    JointPrim.dispatch part_paths joint
    = Some (JointPrim.prim_type (Joint.type joint), writes)
    /\ Doc.prim_at (JointPrim.stage_after part_paths joint s)
         (Written.joint_path s (Joint.name joint))
       = Some (writes (Written.defined (JointPrim.prim_type (Joint.type joint)) s
                         (Written.joint_path s (Joint.name joint)))).
Proof.
  unfold JointPrim.written. intros H. apply andb_true_iff in H as [Ha Hk].
  destruct (dispatch_known part_paths joint Hk) as (writes & Hd & _).
  exists writes. split; [exact Hd |].
  unfold JointPrim.stage_after. rewrite Ha, Hd.
  rewrite prim_at_edit_eq, prim_at_define_eq, prim_at_joint_path_with_container.
  reflexivity.
Qed.

Lemma stage_after_skip part_paths joint s :
  JointPrim.written part_paths joint = false ->
  JointPrim.stage_after part_paths joint s = s.
Proof.
  unfold JointPrim.stage_after, JointPrim.written.
  destruct (admitted part_paths joint); [| reflexivity].
  cbn [andb]. intros H. rewrite (dispatch_unknown _ _ H). reflexivity.
Qed.

Lemma joint_path_inj s n m :
  Written.joint_path s n = Written.joint_path s m -> _sanitize_name n = _sanitize_name m.
Proof.
  unfold Written.joint_path. intros H. do 2 apply string_app_inv_head in H. exact H.
Qed.

End JointDispatch.

(** ** The whole joint loop *)

Section JointLoopStage.
Import Eff PhysicsInjector.

(** The loop returns when the library accepts every path on the way. *)
Lemma joint_loop_written part_paths joints :
  forall s,
    JointPrim.loop_accepted part_paths joints s = true ->
    for_each joints (inject_joint part_paths) s
    = (Ok tt, JointPrim.loop_stage part_paths joints s,
       map dropped_warning (List.filter (fun j => negb (admitted part_paths j)) joints)).
Proof.
  induction joints as [| j js IH]; intros s H; [reflexivity |].
  cbn [JointPrim.loop_accepted] in H. apply andb_true_iff in H as [Hj Hjs].
  cbn [for_each]. rewrite (bind_run _ _ _ _ _ _ (inject_joint_written part_paths j s Hj)).
  rewrite (IH _ Hjs). cbn [List.filter JointPrim.loop_stage fold_left].
  destruct (admitted part_paths j); reflexivity.
Qed.

(** It raises the library's exception otherwise. *)
Lemma joint_loop_raise part_paths joints :
  forall s,
    JointPrim.loop_accepted part_paths joints s = false ->
    result (for_each joints (inject_joint part_paths) s) = Raise TfErrorException.
Proof.
  induction joints as [| j js IH]; intros s H; [discriminate H |].
  cbn [JointPrim.loop_accepted] in H. cbn [for_each].
  destruct (JointPrim.accepted part_paths s j) eqn:Hj.
  - cbn [andb] in H. specialize (IH _ H).
    rewrite (bind_run _ _ _ _ _ _ (inject_joint_written part_paths j s Hj)).
    destruct (for_each js (inject_joint part_paths) (JointPrim.stage_after part_paths j s))
      as [[r s2] l2]. exact IH.
  - destruct (inject_joint_raise _ _ _ Hj) as [s1 H1].
    rewrite (bind_raise _ _ _ _ _ _ H1). reflexivity.
Qed.

(** A loop that returns has left the stage of [JointPrim.loop_stage]. *)
Lemma joint_loop_returned part_paths joints s s' l :
  for_each joints (inject_joint part_paths) s = (Ok tt, s', l) ->
  JointPrim.loop_accepted part_paths joints s = true
  /\ s' = JointPrim.loop_stage part_paths joints s
  /\ l = map dropped_warning (List.filter (fun j => negb (admitted part_paths j)) joints).
Proof.
  intros H. destruct (JointPrim.loop_accepted part_paths joints s) eqn:Hacc.
  - rewrite (joint_loop_written _ _ _ Hacc) in H. injection H as <- <-.
    repeat split; reflexivity.
  - pose proof (joint_loop_raise _ _ _ Hacc) as Hr. rewrite H in Hr. discriminate Hr.
Qed.

(** The joints with a missing end can be left out: the loop on the others
    ends the same way on the same stage, and logs nothing. *)
Lemma joint_loop_filter part_paths joints :
  forall s,
    let run := for_each joints (inject_joint part_paths) s in
    let run' :=
      for_each (List.filter (admitted part_paths) joints) (inject_joint part_paths) s in
    result run = result run' /\ final run = final run' /\ warnings run' = []
    /\ (succeeded run = true ->
        warnings run
        = map dropped_warning (List.filter (fun j => negb (admitted part_paths j)) joints)).
Proof.
  cbv zeta. induction joints as [| j js IH]; intros s.
  { repeat split; reflexivity. }
  cbn [List.filter for_each]. destruct (admitted part_paths j) eqn:Ha; cbn [negb].
  - cbn [for_each]. pose proof (inject_joint_quiet part_paths j s Ha) as Hq.
    unfold bind. destruct (inject_joint part_paths j s) as [[[[] | e] s1] l1];
      cbn [warnings snd] in Hq; subst l1.
    + destruct (IH s1) as (Hr & Hf & Hw & Hs).
      unfold result, final, warnings, succeeded in *.
      destruct (for_each js (inject_joint part_paths) s1) as [[r2 s2] l2].
      destruct (for_each (List.filter (admitted part_paths) js) (inject_joint part_paths) s1)
        as [[r3 s3] l3].
      cbn [fst snd app] in *. repeat split; assumption.
    + repeat split; try reflexivity. discriminate.
  - rewrite (bind_run _ _ _ _ _ _ (inject_joint_dropped part_paths j s Ha)).
    destruct (IH s) as (Hr & Hf & Hw & Hs).
    unfold result, final, warnings, succeeded in *.
    destruct (for_each js (inject_joint part_paths) s) as [[r2 s2] l2].
    destruct (for_each (List.filter (admitted part_paths) js) (inject_joint part_paths) s)
      as [[r3 s3] l3].
    cbn [fst snd app map] in *. repeat split; try assumption.
    intros Hok. rewrite (Hs Hok). reflexivity.
Qed.

(** A loop over joints with a missing end only. *)
Lemma joint_loop_all_dropped part_paths joints s :
  forallb (fun j => negb (admitted part_paths j)) joints = true ->
  for_each joints (inject_joint part_paths) s = (Ok tt, s, map dropped_warning joints).
Proof.
  induction joints as [| j js IH]; intros H; [reflexivity |].
  cbn [forallb] in H. apply andb_true_iff in H as [Hj Hjs]. apply negb_true_iff in Hj.
  cbn [for_each]. rewrite (bind_run _ _ _ _ _ _ (inject_joint_dropped part_paths j s Hj)).
  rewrite (IH Hjs). reflexivity.
Qed.

Lemma loop_stage_app part_paths l1 l2 s :
  JointPrim.loop_stage part_paths (l1 ++ l2) s
  = JointPrim.loop_stage part_paths l2 (JointPrim.loop_stage part_paths l1 s).
Proof. apply fold_left_app. Qed.

Lemma defaultPrim_loop_stage part_paths joints s :
  Usd.defaultPrim (JointPrim.loop_stage part_paths joints s) = Usd.defaultPrim s.
Proof.
  revert s. induction joints as [| j js IH]; intros s; [reflexivity |].
  cbn [JointPrim.loop_stage fold_left]. etransitivity; [apply IH |].
  apply defaultPrim_stage_after.
Qed.

Lemma joint_path_loop_stage part_paths joints s name :
  Written.joint_path (JointPrim.loop_stage part_paths joints s) name
  = Written.joint_path s name.
Proof.
  unfold Written.joint_path, Written.container. rewrite defaultPrim_loop_stage. reflexivity.
Qed.

(** Joints that do not take the prim at [joint_path s name] leave it as it is. *)
Lemma prim_at_loop_stage_kept part_paths joint later s :
  Forall (fun j => JointPrim.overwrites part_paths joint j = false) later ->
  Doc.prim_at (JointPrim.loop_stage part_paths later s)
    (Written.joint_path s (Joint.name joint))
  = Doc.prim_at s (Written.joint_path s (Joint.name joint)).
Proof.
  intros H. revert s. induction H as [| j js Hj _ IH]; intros s; [reflexivity |].
  cbn [JointPrim.loop_stage fold_left].
  rewrite <- (joint_path_stage_after part_paths j s (Joint.name joint)).
  etransitivity; [apply IH |].
  rewrite joint_path_stage_after.
  unfold JointPrim.overwrites in Hj.
  destruct (JointPrim.written part_paths j) eqn:E.
  - cbn [andb] in Hj. apply prim_at_stage_after_ne.
    + apply joint_path_not_container.
    + intros Heq. apply joint_path_inj in Heq.
      rewrite Heq, String.eqb_refl in Hj. discriminate Hj.
  - rewrite stage_after_skip by exact E. reflexivity.
Qed.

(** A joint prim stays a joint prim through the rest of the loop. *)
Lemma joint_node_kept part_paths later :
  forall s q,
    (exists p, Doc.prim_at s q = Some p /\ Usd.is_joint_type (Usd.typeName p) = true) ->
    exists p, Doc.prim_at (JointPrim.loop_stage part_paths later s) q = Some p
              /\ Usd.is_joint_type (Usd.typeName p) = true.
Proof.
  induction later as [| j js IH]; intros s q H; [exact H |].
  cbn [JointPrim.loop_stage fold_left]. apply IH.
  destruct H as (p & Hp & Hty).
  destruct (JointPrim.written part_paths j) eqn:E.
  2:{ rewrite stage_after_skip by exact E. eauto. }
  destruct (decide (Written.joint_path s (Joint.name j) = q)) as [<- | Hne].
  - destruct (prim_at_stage_after part_paths j s E) as (writes & Hd & ->).
    eexists. split; [reflexivity |].
    unfold JointPrim.written in E. apply andb_true_iff in E as [_ Hk].
    destruct (dispatch_known part_paths j Hk) as (writes' & Hd' & Hw).
    rewrite Hd in Hd'. injection Hd' as <-.
    destruct (Hw (Written.defined (JointPrim.prim_type (Joint.type j)) s
                    (Written.joint_path s (Joint.name j)))) as [-> _].
    unfold Written.defined. fold (Doc.prim_at s (Written.joint_path s (Joint.name j))).
    rewrite Hp. apply prim_type_is_joint.
  - destruct (decide (Written.container s = q)) as [<- | Hc].
    + unfold JointPrim.stage_after. unfold JointPrim.written in E.
      apply andb_true_iff in E as [Ha Hk]. rewrite Ha.
      destruct (dispatch_known part_paths j Hk) as (writes & -> & _).
      rewrite prim_at_edit_ne, prim_at_define_ne
        by (intros Heq; symmetry in Heq; revert Heq; apply joint_path_not_container).
      unfold Written.with_container. rewrite is_valid_prim_at, Hp. eauto.
    + rewrite prim_at_stage_after_ne by assumption. eauto.
Qed.

(** Every joint the loop writes has a joint prim at its path when the
    loop is over. *)
Lemma joint_node_after_loop part_paths joints joint s :
  In joint joints -> JointPrim.written part_paths joint = true ->
  exists p,
    Doc.prim_at (JointPrim.loop_stage part_paths joints s)
      (Written.joint_path s (Joint.name joint)) = Some p
    /\ Usd.is_joint_type (Usd.typeName p) = true.
Proof.
  intros Hin Hw. apply in_split in Hin as (before & after & ->).
  rewrite loop_stage_app. cbn [JointPrim.loop_stage fold_left].
  fold (JointPrim.loop_stage part_paths before s).
  fold (JointPrim.loop_stage part_paths after
          (JointPrim.stage_after part_paths joint (JointPrim.loop_stage part_paths before s))).
  apply joint_node_kept.
  rewrite <- (joint_path_loop_stage part_paths before s (Joint.name joint)).
  set (s1 := JointPrim.loop_stage part_paths before s).
  destruct (prim_at_stage_after part_paths joint s1 Hw) as (writes & Hd & ->).
  eexists. split; [reflexivity |].
  unfold JointPrim.written in Hw. apply andb_true_iff in Hw as [_ Hk].
  destruct (dispatch_known part_paths joint Hk) as (writes' & Hd' & Hrd).
  rewrite Hd in Hd'. injection Hd' as <-.
  destruct (Hrd (Written.defined (JointPrim.prim_type (Joint.type joint)) s1
                   (Written.joint_path s1 (Joint.name joint)))) as [-> _].
  unfold Written.defined.
  destruct (Usd.prims s1 !! Written.joint_path s1 (Joint.name joint));
    apply prim_type_is_joint.
Qed.

End JointLoopStage.

(** ** The axis of a joint *)

Section AxisReduction.
Import Eff PhysicsInjector.

Lemma attr_after_writes writes ty path s a v :
  (forall p, Usd.attributes (writes p) !! a = Some v) ->
  Doc.attr (Usd.edit writes path (Usd.author ty path s)) path a = Some v.
Proof.
  intros H. unfold Doc.attr. rewrite prim_at_edit_eq, prim_at_define_eq.
  cbn [fmap option_fmap option_map]. apply H.
Qed.

Lemma axis_joint_axis n parent child axis lower upper st da mf dt p :
  Usd.attributes (Written.axis_joint n parent child axis lower upper st da mf dt p)
    !! "physics:axis"
  = Some (Usd.VToken (_axis_to_token axis)).
Proof.
  pose proof (axis_joint_reads n parent child axis lower upper st da mf dt p) as H.
  cbv zeta in H. tauto.
Qed.

(** C7. For every vector [(x, y, z)] the token is [X] when
    [|x| >= |y|] and [|x| >= |z|], else [Y] when [|y| >= |x|] and
    [|y| >= |z|], else [Z], so that ties go to X first and Y second;
    [(0.9, 0.9, 0)] gives X, [(0, 0, -5)] gives Z and [(1, 2, 3)] gives Z.
    The revolute and prismatic constructors store exactly this token as
    the axis of the joint prim they create: they return the path of the
    prim whenever the library accepts the paths they hand it, and
    whenever they return, the axis of the prim at the path they return
    is the token. *)
Theorem axis_reduction (x y z : float) :
  let ax := PrimFloat.abs x in
  let ay := PrimFloat.abs y in
  let az := PrimFloat.abs z in
  let token := _axis_to_token (x, y, z) in
  (ge ax ay = true -> ge ax az = true -> token = "X")
  /\ (~ (ge ax ay = true /\ ge ax az = true) ->
      ge ay ax = true -> ge ay az = true -> token = "Y")
  /\ (~ (ge ax ay = true /\ ge ax az = true) ->
      ~ (ge ay ax = true /\ ge ay az = true) -> token = "Z")
  /\ _axis_to_token (0.9, 0.9, 0)%float = "X"
  /\ _axis_to_token (0, 0, -5)%float = "Z"
  /\ _axis_to_token (1, 2, 3)%float = "Z"
  /\ (forall name parent child lower upper stiffness damping max_force drive_type s,
        Written.accepted s name parent child = true ->
        exists s',
          create_revolute_joint name parent child (x, y, z) lower upper
            stiffness damping max_force drive_type None s
          = (Ok (Written.joint_path s name), s', [])
          /\ Doc.attr s' (Written.joint_path s name) "physics:axis"
             = Some (Usd.VToken token))
  /\ (forall name parent child lower upper stiffness damping max_force drive_type s,
        Written.accepted s name parent child = true ->
        exists s',
          create_prismatic_joint name parent child (x, y, z) lower upper
            stiffness damping max_force drive_type None s
          = (Ok (Written.joint_path s name), s', [])
          /\ Doc.attr s' (Written.joint_path s name) "physics:axis"
             = Some (Usd.VToken token))
  /\ (forall name parent child lower upper stiffness damping max_force drive_type s
             joint_path s' l,
        create_revolute_joint name parent child (x, y, z) lower upper
          stiffness damping max_force drive_type None s = (Ok joint_path, s', l) ->
        Doc.attr s' joint_path "physics:axis" = Some (Usd.VToken token))
  /\ (forall name parent child lower upper stiffness damping max_force drive_type s
             joint_path s' l,
        create_prismatic_joint name parent child (x, y, z) lower upper
          stiffness damping max_force drive_type None s = (Ok joint_path, s', l) ->
        Doc.attr s' joint_path "physics:axis" = Some (Usd.VToken token)).
Proof.
  cbv zeta. unfold _axis_to_token at 1 2 3.
  split; [| split; [| split]].
  - intros H1 H2. rewrite H1, H2. reflexivity.
  - intros Hx H1 H2.
    destruct (ge (PrimFloat.abs x) (PrimFloat.abs y)) eqn:E1,
             (ge (PrimFloat.abs x) (PrimFloat.abs z)) eqn:E2;
      cbn [andb]; try (rewrite H1, H2; reflexivity).
    exfalso. apply Hx. split; reflexivity.
  - intros Hx Hy.
    destruct (ge (PrimFloat.abs x) (PrimFloat.abs y)) eqn:E1,
             (ge (PrimFloat.abs x) (PrimFloat.abs z)) eqn:E2;
      cbn [andb]; try (exfalso; apply Hx; split; reflexivity);
      destruct (ge (PrimFloat.abs y) (PrimFloat.abs x)) eqn:E3,
               (ge (PrimFloat.abs y) (PrimFloat.abs z)) eqn:E4;
      cbn [andb]; try reflexivity; exfalso; apply Hy; split; reflexivity.
  - split; [vm_compute; reflexivity |].
    split; [vm_compute; reflexivity |].
    split; [vm_compute; reflexivity |].
    split; [| split; [| split]].
    + intros name parent child lower upper st da mf dt s Hacc.
      rewrite (create_revolute_joint_written _ _ _ _ _ _ _ _ _ _ _ Hacc).
      eexists. split; [reflexivity |].
      apply attr_after_writes. intros p. apply axis_joint_axis.
    + intros name parent child lower upper st da mf dt s Hacc.
      rewrite (create_prismatic_joint_written _ _ _ _ _ _ _ _ _ _ _ Hacc).
      eexists. split; [reflexivity |].
      apply attr_after_writes. intros p. apply axis_joint_axis.
    + intros name parent child lower upper st da mf dt s joint_path s' l H.
      destruct (Written.accepted s name parent child) eqn:Hacc.
      * rewrite (create_revolute_joint_written _ _ _ _ _ _ _ _ _ _ _ Hacc) in H.
        injection H as <- <- _.
        apply attr_after_writes. intros p. apply axis_joint_axis.
      * destruct (create_revolute_joint_raise name parent child (x, y, z) lower upper
                    st da mf dt s Hacc) as [s1 H1].
        rewrite H1 in H. discriminate H.
    + intros name parent child lower upper st da mf dt s joint_path s' l H.
      destruct (Written.accepted s name parent child) eqn:Hacc.
      * rewrite (create_prismatic_joint_written _ _ _ _ _ _ _ _ _ _ _ Hacc) in H.
        injection H as <- <- _.
        apply attr_after_writes. intros p. apply axis_joint_axis.
      * destruct (create_prismatic_joint_raise name parent child (x, y, z) lower upper
                    st da mf dt s Hacc) as [s1 H1].
        rewrite H1 in H. discriminate H.
Qed.

End AxisReduction.

(** ** The joint loop *)

Section JointLoop.
Import Eff PhysicsInjector.

(** C6 (amended). For every articulation and path map, the joints with
    a parent or child that is not a key of the map are dropped: the run
    ends the same way and leaves the same document as the run on the
    articulation without them, so no joint node exists for them, the
    other joints are processed and every resolved part is annotated as
    usual.  The pass of the loop on such a joint returns, leaves the
    document alone and logs the warning
    [Joint <name>: parent or child not found], and so does a loop over
    such joints only.  Each drop is only logged, after the warnings of
    the other phases and in input order; nothing else records it. *)
Theorem dangling_joints_dropped (self : t) (art : ArticulationData.t)
    (part_paths : PyDict.dict string) (s : Usd.Stage) :
  let kept := List.filter (admitted part_paths) (ArticulationData.joints art) in
  let dropped :=
    List.filter (fun j => negb (admitted part_paths j)) (ArticulationData.joints art) in
  let run := inject_physics self art part_paths s in
  let run' :=
    inject_physics self
      (ArticulationData.mk (ArticulationData.model_name art) (ArticulationData.parts art) kept)
      part_paths s in
  result run = result run'
  /\ final run = final run'
  /\ (succeeded run = true -> warnings run = warnings run' ++ map dropped_warning dropped)
  /\ (forall j s0, admitted part_paths j = false ->
        inject_joint part_paths j s0 = (Ok tt, s0, [dropped_warning j]))
  /\ (forall js s0,
        forallb (fun j => negb (admitted part_paths j)) js = true ->
        for_each js (inject_joint part_paths) s0 = (Ok tt, s0, map dropped_warning js)).
Proof.
  cbv zeta. unfold inject_physics. cbn [ArticulationData.parts ArticulationData.joints].
  split; [| split; [| split; [| split]]].
  4:{ intros j s0 E. apply inject_joint_dropped, E. }
  4:{ intros js s0 E. apply joint_loop_all_dropped, E. }
  all: unfold bind, succeeded, result, final, warnings;
    destruct (inject_root (ArticulationData.parts art) part_paths s) as [[[[] | e] s1] l1];
    cbn [fst snd]; try reflexivity; try discriminate;
    destruct (for_each (ArticulationData.parts art) (inject_part self part_paths) s1)
      as [[[[] | e] s2] l2];
    cbn [fst snd]; try reflexivity; try discriminate;
    destruct (joint_loop_filter part_paths (ArticulationData.joints art) s2)
      as (Hr & Hf & Hw & Hs);
    unfold succeeded, result, final, warnings in Hr, Hf, Hw, Hs;
    destruct (for_each (ArticulationData.joints art) (inject_joint part_paths) s2)
      as [[r3 s3] l3];
    destruct (for_each (List.filter (admitted part_paths) (ArticulationData.joints art))
                (inject_joint part_paths) s2) as [[r4 s4] l4];
    cbn [fst snd] in *; try assumption.
  intros Hok. subst l4. rewrite (Hs Hok), !app_nil_r, app_assoc. reflexivity.
Qed.


End JointLoop.

Section JointExamples.
Import Eff PhysicsInjector Examples.


(** An articulation with a joint of type [ball] between two parts does
    not pass the validation, and the same articulation with the joint
    of type [fixed] does. *)
Lemma ball_joint_rejected :
  ArticulationData.validate ball_art = false
  /\ ArticulationData.validate
       (ArticulationData.mk "robot" (ArticulationData.parts ball_art)
          [joint "j" "a" "b" "fixed"]) = true.
Proof. split; vm_compute; reflexivity. Qed.

(** A revolute joint between the two parts of the sample document. *)
Lemma revolute_joint_run :
  let run :=
    create_revolute_joint "elbow" "/robot/a" "/robot/b" (0, 0, -5)%float
      (Some (-1)%float) (Some 1%float) None None None "none" None doc in
  Written.accepted doc "elbow" "/robot/a" "/robot/b" = true
  /\ result run = Ok "/robot/Joints/elbow"
  /\ Doc.attr (final run) "/robot/Joints/elbow" "physics:axis" = Some (Usd.VToken "Z").
Proof. vm_compute. repeat split; reflexivity. Qed.

(** A joint name with the character U+00B2, which [str.isalnum] accepts
    and the sanitizer keeps: the library rejects the path and the
    constructor raises. *)
Lemma joint_name_rejected :
  let name := String "j" (String "178" EmptyString) in
  _sanitize_name name = name
  /\ result (create_fixed_joint name "/robot/a" "/robot/b" None doc)
     = Raise TfErrorException.
Proof. vm_compute. split; reflexivity. Qed.

(** The dangling joint of the specification's example: no joint node,
    part [a] annotated, one warning. *)
Lemma ghost_joint_run :
  let run := inject_physics physics_injector ghost_art paths doc in
  result run = Ok tt
  /\ Doc.joint_paths (final run) = ∅
  /\ Doc.has_api (final run) "/robot/a" Usd.RigidBodyAPI = true
  /\ Doc.has_api (final run) "/robot/a/mesh" Usd.CollisionAPI = true
  /\ warnings run = ["Joint grip: parent or child not found"].
Proof. vm_compute. repeat split; reflexivity. Qed.

(** The statement of the specification fails on its last part: nothing the run leaves
    behind names the reason [dangling-reference]. *)
Lemma dangling_drop_has_no_reason :
  ~ (forall (art : ArticulationData.t) (part_paths : PyDict.dict string) (s : Usd.Stage)
            (joint : Joint.t),
       In joint (ArticulationData.joints art) ->
       admitted part_paths joint = false ->
       existsb (Py.contains "dangling-reference")
         (warnings (inject_physics physics_injector art part_paths s)) = true).
Proof.
  intros H.
  specialize (H ghost_art paths doc (joint "grip" "a" "ghost" "fixed")
                (or_introl eq_refl) eq_refl).
  vm_compute in H. discriminate H.
Qed.

End JointExamples.

(** ** API schemas only grow *)

Section FrameFacts.
Import Eff Frame PhysicsInjector.

Lemma apis_grow_by_refl A s : apis_grow_by A s s.
Proof. intros q. split; set_solver. Qed.

Lemma apis_grow_by_trans A s1 s2 s3 :
  apis_grow_by A s1 s2 -> apis_grow_by A s2 s3 -> apis_grow_by A s1 s3.
Proof.
  intros H12 H23 q. destruct (H12 q) as [Ha Hb], (H23 q) as [Hc Hd]. split; set_solver.
Qed.

Lemma apis_grow_by_mono A B s s' : A ⊆ B -> apis_grow_by A s s' -> apis_grow_by B s s'.
Proof. intros HAB H q. destruct (H q) as [Ha Hb]. split; set_solver. Qed.

Lemma apis_at_define ty path q s : Doc.apis_at (Usd.author ty path s) q = Doc.apis_at s q.
Proof.
  unfold Doc.apis_at. destruct (decide (path = q)) as [-> | Hne].
  - rewrite prim_at_define_eq. destruct (Doc.prim_at s q); reflexivity.
  - rewrite prim_at_define_ne by exact Hne. reflexivity.
Qed.

Lemma apis_at_edit_same f path q s :
  (forall p, Usd.apiSchemas (f p) = Usd.apiSchemas p) ->
  Doc.apis_at (Usd.edit f path s) q = Doc.apis_at s q.
Proof.
  intros Hf. unfold Doc.apis_at. destruct (decide (path = q)) as [-> | Hne].
  - rewrite prim_at_edit_eq. destruct (Doc.prim_at s q); simpl; [apply Hf | reflexivity].
  - rewrite prim_at_edit_ne by exact Hne. reflexivity.
Qed.

Lemma apis_at_add_api api path q s :
  Doc.apis_at (Usd.edit (Usd.add_api api) path s) q
  = match Doc.prim_at s q with
    | Some p => if decide (path = q) then {[api]} ∪ Usd.apiSchemas p else Usd.apiSchemas p
    | None => ∅
    end.
Proof.
  unfold Doc.apis_at. destruct (decide (path = q)) as [-> | Hne].
  - rewrite prim_at_edit_eq. destruct (Doc.prim_at s q); reflexivity.
  - rewrite prim_at_edit_ne by exact Hne. reflexivity.
Qed.

Section Post.
Variable R : Usd.Stage -> Usd.Stage -> Prop.
Hypothesis R_refl : forall s, R s s.
Hypothesis R_trans : forall s1 s2 s3, R s1 s2 -> R s2 s3 -> R s1 s3.

Lemma post_ret {X} (a : X) : post R (ret a).
Proof. intros s. apply R_refl. Qed.

Lemma post_raise {X} e : post R (@raise X e).
Proof. intros s. apply R_refl. Qed.

Lemma post_get_stage : post R get_stage.
Proof. intros s. apply R_refl. Qed.

Lemma post_warning msg : post R (warning msg).
Proof. intros s. apply R_refl. Qed.

Lemma post_modify f : (forall s, R s (f s)) -> post R (modify_stage f).
Proof. intros Hf s. apply Hf. Qed.

Lemma post_bind {X Y} (m : M X) (k : X -> M Y) :
  post R m -> (forall a, post R (k a)) -> post R (bind m k).
Proof.
  intros Hm Hk s. specialize (Hm s). unfold bind, final in *.
  destruct (m s) as [[[a | e] s1] l1]; cbn [fst snd] in *; [| exact Hm].
  specialize (Hk a s1). unfold final in Hk.
  destruct (k a s1) as [[r s2] l2]. cbn [fst snd] in *. eapply R_trans; eassumption.
Qed.

Lemma post_when c m : post R m -> post R (when c m).
Proof. intros Hm. destruct c; [exact Hm | apply post_ret]. Qed.

Lemma post_when_some {X} (o : option X) body :
  (forall a, post R (body a)) -> post R (when_some o body).
Proof. intros Hb. destruct o; [apply Hb | apply post_ret]. Qed.

Lemma post_for_each {X} (l : list X) body :
  (forall x, post R (body x)) -> post R (for_each l body).
Proof.
  intros Hb. induction l as [| x l IH]; [apply post_ret |].
  apply post_bind; [apply Hb | intros _; exact IH].
Qed.
End Post.

Section Grow.
Variable A : gset string.

Lemma grow_define ty path : post (apis_grow_by A) (define ty path).
Proof.
  intros s q. unfold define, Usd.Define, final.
  destruct (Sdf.is_prim_path path); cbn [fst snd]; rewrite ?apis_at_define; split; set_solver.
Qed.

Lemma grow_set_target r target prim_path :
  post (apis_grow_by A) (set_target r target prim_path).
Proof.
  intros s q. unfold set_target, final.
  destruct (Sdf.is_prim_path target); cbn [fst snd];
    rewrite ?(apis_at_edit_same (Usd.set_rel r [target]) prim_path q s (fun p => eq_refl));
    split; set_solver.
Qed.

Lemma grow_edit_same f path :
  (forall p, Usd.apiSchemas (f p) = Usd.apiSchemas p) ->
  post (apis_grow_by A) (modify_stage (Usd.edit f path)).
Proof.
  intros Hf. apply post_modify. intros s q.
  rewrite (apis_at_edit_same f path q s Hf). split; set_solver.
Qed.

Lemma grow_add_api api path :
  api ∈ A -> post (apis_grow_by A) (modify_stage (Usd.edit (Usd.add_api api) path)).
Proof.
  intros Hin. apply post_modify. intros s q. rewrite apis_at_add_api.
  unfold Doc.apis_at. destruct (Doc.prim_at s q); [| split; set_solver].
  destruct (decide (path = q)); split; set_solver.
Qed.
End Grow.

End FrameFacts.

Section Growth.
Import Eff Frame PhysicsInjector.

Variable A : gset string.

Lemma grow_ret {X} (a : X) : post (apis_grow_by A) (ret a).
Proof. apply post_ret, apis_grow_by_refl. Qed.

Lemma grow_raise {X} e : post (apis_grow_by A) (@raise X e).
Proof. apply post_raise, apis_grow_by_refl. Qed.

Lemma grow_get_stage : post (apis_grow_by A) get_stage.
Proof. apply post_get_stage, apis_grow_by_refl. Qed.

Lemma grow_warning msg : post (apis_grow_by A) (warning msg).
Proof. apply post_warning, apis_grow_by_refl. Qed.

Lemma grow_bind {X Y} (m : M X) (k : X -> M Y) :
  post (apis_grow_by A) m -> (forall a, post (apis_grow_by A) (k a)) ->
  post (apis_grow_by A) (bind m k).
Proof. apply post_bind, apis_grow_by_trans. Qed.

Lemma grow_when c m : post (apis_grow_by A) m -> post (apis_grow_by A) (when c m).
Proof. apply post_when, apis_grow_by_refl. Qed.

Lemma grow_when_some {X} (o : option X) body :
  (forall a, post (apis_grow_by A) (body a)) -> post (apis_grow_by A) (when_some o body).
Proof. apply post_when_some, apis_grow_by_refl. Qed.

Lemma grow_for_each {X} (l : list X) body :
  (forall x, post (apis_grow_by A) (body x)) -> post (apis_grow_by A) (for_each l body).
Proof. apply post_for_each; [apply apis_grow_by_refl | apply apis_grow_by_trans]. Qed.

Lemma grow_weaken {X} B (m : M X) :
  B ⊆ A -> post (apis_grow_by B) m -> post (apis_grow_by A) m.
Proof. intros HBA Hm s. eapply apis_grow_by_mono; [exact HBA | apply Hm]. Qed.

End Growth.

Section ApiMembers.
Import Frame.

Lemma root_api_allowed : Usd.ArticulationRootAPI ∈ root_apis.
Proof. unfold root_apis. set_solver. Qed.
Lemma angular_drive_allowed : Usd.DriveAPI "angular" ∈ drive_apis.
Proof. unfold drive_apis. set_solver. Qed.
Lemma linear_drive_allowed : Usd.DriveAPI "linear" ∈ drive_apis.
Proof. unfold drive_apis. set_solver. Qed.
Lemma rigid_body_allowed : Usd.RigidBodyAPI ∈ part_apis.
Proof. unfold part_apis. set_solver. Qed.
Lemma mass_allowed : Usd.MassAPI ∈ part_apis.
Proof. unfold part_apis. set_solver. Qed.
Lemma collision_allowed : Usd.CollisionAPI ∈ part_apis.
Proof. unfold part_apis. set_solver. Qed.
Lemma mesh_collision_allowed : Usd.MeshCollisionAPI ∈ part_apis.
Proof. unfold part_apis. set_solver. Qed.

End ApiMembers.

Ltac grow_step :=
  lazymatch goal with
  | |- Frame.post _ (Eff.bind _ _) => apply grow_bind; [| intros ?]
  | |- Frame.post _ (Eff.ret _) => apply grow_ret
  | |- Frame.post _ (Eff.raise _) => apply grow_raise
  | |- Frame.post _ Eff.get_stage => apply grow_get_stage
  | |- Frame.post _ (Eff.warning _) => apply grow_warning
  | |- Frame.post _ (Eff.when _ _) => apply grow_when
  | |- Frame.post _ (Eff.when_some _ _) => apply grow_when_some; intros ?
  | |- Frame.post _ (Eff.define _ _) => apply grow_define
  | |- Frame.post _ (Eff.set_target _ _ _) => apply grow_set_target
  | |- Frame.post _ (Eff.modify_stage (Usd.edit (Usd.add_api _) _)) =>
      apply grow_add_api;
      first [ exact root_api_allowed | exact angular_drive_allowed
            | exact linear_drive_allowed | exact rigid_body_allowed
            | exact mass_allowed | exact collision_allowed
            | exact mesh_collision_allowed ]
  | |- Frame.post _ (Eff.modify_stage (Usd.edit _ _)) =>
      apply grow_edit_same; reflexivity
  | |- Frame.post _ (if ?c then _ else _) => destruct c
  | |- Frame.post _ (match ?o with _ => _ end) => destruct o
  end.

Section GrowthOfInjection.
Import Eff Frame PhysicsInjector.

Lemma grow_get_valid_prim A path : post (apis_grow_by A) (get_valid_prim path).
Proof. unfold get_valid_prim. repeat grow_step. Qed.

Lemma grow_apply_articulation_root path :
  post (apis_grow_by root_apis) (apply_articulation_root path).
Proof.
  unfold apply_articulation_root.
  apply grow_bind; [apply grow_get_valid_prim | intros _]. repeat grow_step.
Qed.

Lemma grow_inject_root parts part_paths :
  post (apis_grow_by root_apis) (inject_root parts part_paths).
Proof.
  unfold inject_root. cbv zeta.
  destruct (_find_base_part parts) as [bp |];
    [destruct (PyDict.mem (Part.id bp) part_paths) |];
    try apply grow_apply_articulation_root;
    destruct (PyDict.values part_paths);
    first [apply grow_ret | apply grow_apply_articulation_root].
Qed.

Lemma grow_joints_parent o :
  post (apis_grow_by drive_apis) (joints_parent o).
Proof. unfold joints_parent. repeat grow_step. Qed.

Lemma grow_apply_joint_drive path drive_type stiffness damping max_force is_angular :
  post (apis_grow_by drive_apis)
    (_apply_joint_drive path drive_type stiffness damping max_force is_angular).
Proof. unfold _apply_joint_drive. destruct is_angular; repeat grow_step. Qed.

Ltac grow_joint_step :=
  lazymatch goal with
  | |- post _ (joints_parent _) => apply grow_joints_parent
  | |- post _ (_apply_joint_drive _ _ _ _ _ _) => apply grow_apply_joint_drive
  | |- _ => grow_step
  end.

Lemma grow_create_revolute_joint name parent child axis lower upper
    stiffness damping max_force drive_type o :
  post (apis_grow_by drive_apis)
    (create_revolute_joint name parent child axis lower upper
       stiffness damping max_force drive_type o).
Proof.
  unfold create_revolute_joint, set_bodies, set_limits, set_local_poses.
  repeat grow_joint_step.
Qed.

Lemma grow_create_prismatic_joint name parent child axis lower upper
    stiffness damping max_force drive_type o :
  post (apis_grow_by drive_apis)
    (create_prismatic_joint name parent child axis lower upper
       stiffness damping max_force drive_type o).
Proof.
  unfold create_prismatic_joint, set_bodies, set_limits, set_local_poses.
  repeat grow_joint_step.
Qed.

Lemma grow_create_fixed_joint name parent child o :
  post (apis_grow_by drive_apis) (create_fixed_joint name parent child o).
Proof.
  unfold create_fixed_joint, set_bodies, set_local_poses.
  repeat grow_joint_step.
Qed.

Lemma grow_inject_joint part_paths joint :
  post (apis_grow_by drive_apis) (inject_joint part_paths joint).
Proof.
  unfold inject_joint.
  repeat lazymatch goal with
    | |- post _ (create_revolute_joint _ _ _ _ _ _ _ _ _ _ _) =>
        apply grow_create_revolute_joint
    | |- post _ (create_prismatic_joint _ _ _ _ _ _ _ _ _ _ _) =>
        apply grow_create_prismatic_joint
    | |- post _ (create_fixed_joint _ _ _ _) => apply grow_create_fixed_joint
    | |- _ => grow_step
    end.
Qed.

Lemma grow_inject_part self part_paths part :
  post (apis_grow_by part_apis) (inject_part self part_paths part).
Proof.
  unfold inject_part, apply_rigid_body, apply_collision.
  repeat lazymatch goal with
    | |- post _ (get_valid_prim _) => apply grow_get_valid_prim
    | |- _ => grow_step
    end.
Qed.

Lemma grow_inject_physics self art part_paths :
  post (apis_grow_by (root_apis ∪ part_apis ∪ drive_apis))
    (inject_physics self art part_paths).
Proof.
  unfold inject_physics.
  apply grow_bind; [| intros _; apply grow_bind; [| intros _]].
  - apply (grow_weaken _ root_apis); [set_solver | apply grow_inject_root].
  - apply grow_for_each. intros part.
    apply (grow_weaken _ part_apis); [set_solver | apply grow_inject_part].
  - apply grow_for_each. intros joint.
    apply (grow_weaken _ drive_apis); [set_solver | apply grow_inject_joint].
Qed.

Lemma grow_has_api A s s' q api :
  apis_grow_by A s s' -> api ∉ A -> Doc.has_api s' q api = Doc.has_api s q api.
Proof.
  intros H Hout. destruct (H q) as [Ha Hb]. unfold Doc.has_api.
  apply bool_decide_ext. split; intros Hin; [| apply Ha, Hin].
  apply Hb, elem_of_union in Hin as [Hin | Hin]; [exact Hin | contradiction].
Qed.

Lemma grow_has_api_true A s s' q api :
  apis_grow_by A s s' -> Doc.has_api s q api = true -> Doc.has_api s' q api = true.
Proof.
  intros H Hin. destruct (H q) as [Ha _]. unfold Doc.has_api in *.
  apply bool_decide_eq_true. apply bool_decide_eq_true in Hin. apply Ha, Hin.
Qed.

End GrowthOfInjection.

(** ** The articulation root *)

Section RootSelection.
Import Eff Frame PhysicsInjector.

Lemma final_bind_ok {X Y} (m : M X) (k : X -> M Y) s a s1 l1 :
  m s = (Ok a, s1, l1) -> final (bind m k s) = final (k a s1).
Proof.
  intros H. unfold bind, final. rewrite H. destruct (k a s1) as [[r s2] l2]. reflexivity.
Qed.

Lemma find_base_part_Some parts bp :
  _find_base_part parts = Some bp <-> Spec.first_base parts bp.
Proof.
  induction parts as [| part parts IH]; simpl.
  - split; [discriminate |]. intros (before & after & H & _).
    destruct before; discriminate H.
  - destruct (String.eqb (Part.type part) "base") eqn:E.
    + apply String.eqb_eq in E. split.
      * intros [= <-]. exists [], parts. repeat split; [exact E | constructor].
      * intros (before & after & H & Hbp & Hbefore).
        destruct before as [| q before]; [injection H as -> _; reflexivity |].
        injection H as <- _. inversion Hbefore; subst. contradiction.
    + apply String.eqb_neq in E. rewrite IH. split.
      * intros (before & after & -> & Hbp & Hbefore).
        exists (part :: before), after. repeat split; [exact Hbp |].
        constructor; assumption.
      * intros (before & after & H & Hbp & Hbefore).
        destruct before as [| q before]; [injection H as -> _; contradiction |].
        injection H as <- ->. inversion Hbefore; subst.
        exists before, after. repeat split; assumption.
Qed.

Lemma find_base_part_None parts :
  _find_base_part parts = None <-> Spec.no_base parts.
Proof.
  unfold Spec.no_base. induction parts as [| part parts IH]; simpl.
  - split; [constructor | reflexivity].
  - destruct (String.eqb (Part.type part) "base") eqn:E.
    + apply String.eqb_eq in E. split; [discriminate |].
      intros H. inversion H; subst. contradiction.
    + apply String.eqb_neq in E. rewrite IH. split.
      * intros H. constructor; assumption.
      * intros H. inversion H; subst. assumption.
Qed.

Lemma apply_articulation_root_run path s :
  Usd.is_valid s path = true ->
  apply_articulation_root path s
  = (Ok tt, Usd.edit (Usd.add_api Usd.ArticulationRootAPI) path s, []).
Proof.
  intros Hv. destruct (is_valid_Some _ _ Hv) as [p Hp].
  unfold apply_articulation_root, bind. rewrite (get_valid_prim_ok _ _ _ Hp). reflexivity.
Qed.

Lemma apply_articulation_root_raise path s :
  Usd.is_valid s path = false ->
  apply_articulation_root path s
  = (Raise (ValueError ("Prim not found: " +:+ path)), s, []).
Proof.
  intros Hv. unfold apply_articulation_root, bind.
  rewrite get_valid_prim_raise; [reflexivity |].
  rewrite is_valid_prim_at in Hv. destruct (Doc.prim_at s path); [discriminate | reflexivity].
Qed.

(** Which node the first block of [inject_physics] addresses. *)
Lemma inject_root_base parts part_paths bp p :
  Spec.first_base parts bp -> PyDict.get part_paths (Part.id bp) = Some p ->
  inject_root parts part_paths = apply_articulation_root p.
Proof.
  intros Hbp Hget. apply find_base_part_Some in Hbp.
  unfold inject_root, PyDict.mem, item. rewrite Hbp, Hget. reflexivity.
Qed.

Lemma inject_root_fallback parts part_paths :
  Spec.no_base parts
  \/ (exists bp, Spec.first_base parts bp /\ PyDict.get part_paths (Part.id bp) = None) ->
  inject_root parts part_paths
  = match part_paths with
    | (_, first_path) :: _ => apply_articulation_root first_path
    | [] => ret tt
    end.
Proof.
  intros [Hno | (bp & Hbp & Hget)]; unfold inject_root, PyDict.mem.
  - apply find_base_part_None in Hno. rewrite Hno. destruct part_paths as [| [k p] rest]; reflexivity.
  - apply find_base_part_Some in Hbp. rewrite Hbp, Hget.
    destruct part_paths as [| [k p] rest]; reflexivity.
Qed.

Lemma root_api_not_later : Usd.ArticulationRootAPI ∉ part_apis ∪ drive_apis.
Proof. unfold part_apis, drive_apis. set_solver. Qed.

Lemma grow_after_root self art part_paths :
  post (apis_grow_by (part_apis ∪ drive_apis))
    (for_each (ArticulationData.parts art) (inject_part self part_paths) ;;;
     for_each (ArticulationData.joints art) (inject_joint part_paths))%eff.
Proof.
  apply grow_bind; [| intros _].
  - apply grow_for_each. intros part.
    apply (grow_weaken _ part_apis); [set_solver | apply grow_inject_part].
  - apply grow_for_each. intros joint.
    apply (grow_weaken _ drive_apis); [set_solver | apply grow_inject_joint].
Qed.

(** Once the first block has marked [p], the run ends with [p] marked
    and with no other node newly marked. *)
Lemma root_marked self art part_paths s p :
  inject_root (ArticulationData.parts art) part_paths = apply_articulation_root p ->
  Usd.is_valid s p = true ->
  Doc.has_api (final (inject_physics self art part_paths s)) p Usd.ArticulationRootAPI = true
  /\ forall q, q <> p ->
       Doc.has_api (final (inject_physics self art part_paths s)) q Usd.ArticulationRootAPI
       = Doc.has_api s q Usd.ArticulationRootAPI.
Proof.
  intros Hroot Hv.
  assert (Hfinal : final (inject_physics self art part_paths s)
                   = final ((for_each (ArticulationData.parts art) (inject_part self part_paths) ;;;
                             for_each (ArticulationData.joints art) (inject_joint part_paths))%eff
                              (Usd.edit (Usd.add_api Usd.ArticulationRootAPI) p s))).
  { unfold inject_physics. rewrite Hroot.
    erewrite final_bind_ok; [reflexivity | apply apply_articulation_root_run, Hv]. }
  rewrite Hfinal.
  pose proof (grow_after_root self art part_paths
                (Usd.edit (Usd.add_api Usd.ArticulationRootAPI) p s)) as Hgrow.
  split.
  - apply (grow_has_api_true _ _ _ _ _ Hgrow).
    unfold Doc.has_api. rewrite apis_at_add_api.
    destruct (is_valid_Some _ _ Hv) as [pr ->]. rewrite decide_True by reflexivity.
    apply bool_decide_eq_true. set_solver.
  - intros q Hq. rewrite (grow_has_api _ _ _ _ _ Hgrow root_api_not_later).
    unfold Doc.has_api, Doc.apis_at. rewrite prim_at_edit_ne by congruence. reflexivity.
Qed.

(** C2 (amended). The first part of kind [base] in input order is the
    articulation root when its id is a key of the path map: its node is
    marked.  When no part is a base, or the first base part has no entry
    in the path map, the node of the first entry of the path map is
    marked instead, whatever the first part of the part list is; with an
    empty path map nothing is marked.  In each case the marked node is
    the only one the run newly marks. *)
Theorem root_selection (self : t) (art : ArticulationData.t)
    (part_paths : PyDict.dict string) (s : Usd.Stage) :
  let parts := ArticulationData.parts art in
  let run := inject_physics self art part_paths s in
  let marked p :=
    Doc.has_api (final run) p Usd.ArticulationRootAPI = true
    /\ forall q, q <> p ->
         Doc.has_api (final run) q Usd.ArticulationRootAPI
         = Doc.has_api s q Usd.ArticulationRootAPI in
  let unresolved :=
    Spec.no_base parts
    \/ (exists bp, Spec.first_base parts bp /\ PyDict.get part_paths (Part.id bp) = None) in
  (forall bp, _find_base_part parts = Some bp <-> Spec.first_base parts bp)
  /\ (_find_base_part parts = None <-> Spec.no_base parts)
  /\ (forall bp p,
        Spec.first_base parts bp -> PyDict.get part_paths (Part.id bp) = Some p ->
        Usd.is_valid s p = true -> marked p)
  /\ (forall k p rest,
        unresolved -> part_paths = (k, p) :: rest -> Usd.is_valid s p = true -> marked p)
  /\ (unresolved -> part_paths = [] -> inject_root parts part_paths s = (Ok tt, s, [])).
Proof.
  cbv zeta. split; [| split; [| split; [| split]]].
  - intros bp. apply find_base_part_Some.
  - apply find_base_part_None.
  - intros bp p Hbp Hget Hv.
    apply root_marked; [apply (inject_root_base _ _ bp); assumption | exact Hv].
  - intros k p rest Hun -> Hv.
    apply root_marked; [rewrite inject_root_fallback by exact Hun; reflexivity | exact Hv].
  - intros Hun ->. rewrite inject_root_fallback by exact Hun. reflexivity.
Qed.

End RootSelection.

Section RootExamples.
Import Eff Frame PhysicsInjector Examples.

(** The statement of the specification fails when no part is a base: the mark goes to
    the first entry of the path map, [/robot/a], and not to the node of
    the first part of the list, [/robot/b]. *)
Lemma first_part_is_not_the_fallback_root :
  ~ (forall (art : ArticulationData.t) (part_paths : PyDict.dict string) (s : Usd.Stage)
            (first : Part.t) (rest : list Part.t) (p : string),
       ArticulationData.parts art = first :: rest ->
       _find_base_part (ArticulationData.parts art) = None ->
       PyDict.get part_paths (Part.id first) = Some p ->
       Usd.is_valid s p = true ->
       Doc.has_api (final (inject_physics physics_injector art part_paths s)) p
         Usd.ArticulationRootAPI = true).
Proof.
  intros H.
  specialize (H no_base_art paths doc _ _ "/robot/b" eq_refl eq_refl eq_refl eq_refl).
  vm_compute in H. discriminate H.
Qed.

Lemma fallback_root_is_first_path :
  Doc.has_api (final (inject_physics physics_injector no_base_art paths doc)) "/robot/a"
    Usd.ArticulationRootAPI = true.
Proof. vm_compute. reflexivity. Qed.

(** The specification's example: with parts [A(link), B(base), C(link)]
    the root is B. *)
Lemma base_found_among_links :
  Part.id <$> _find_base_part
    [part "A" "link" None None "mesh"; part "B" "base" None None "mesh";
     part "C" "link" None None "mesh"] = Some "B".
Proof. reflexivity. Qed.

End RootExamples.

(** ** Attributes the joints leave alone *)

Section AttributeFrame.
Import Eff Frame PhysicsInjector.

Lemma attr_edit_other f path q a s :
  (forall p, Usd.attributes (f p) !! a = Usd.attributes p !! a) ->
  Doc.attr (Usd.edit f path s) q a = Doc.attr s q a.
Proof.
  intros Hf. unfold Doc.attr. destruct (decide (path = q)) as [-> | Hne].
  - rewrite prim_at_edit_eq. destruct (Doc.prim_at s q); simpl; [apply Hf | reflexivity].
  - rewrite prim_at_edit_ne by exact Hne. reflexivity.
Qed.

Lemma attr_define ty path q a s : Doc.attr (Usd.author ty path s) q a = Doc.attr s q a.
Proof.
  unfold Doc.attr. destruct (decide (path = q)) as [-> | Hne].
  - rewrite prim_at_define_eq. destruct (Doc.prim_at s q); reflexivity.
  - rewrite prim_at_define_ne by exact Hne. reflexivity.
Qed.

Variable a : string.

Lemma attr_kept_refl s : attr_kept a s s.
Proof. intros q. reflexivity. Qed.

Lemma attr_kept_trans s1 s2 s3 : attr_kept a s1 s2 -> attr_kept a s2 s3 -> attr_kept a s1 s3.
Proof. intros H12 H23 q. rewrite H23. apply H12. Qed.

Lemma kept_ret {X} (x : X) : post (attr_kept a) (ret x).
Proof. apply post_ret, attr_kept_refl. Qed.

Lemma kept_raise {X} e : post (attr_kept a) (@raise X e).
Proof. apply post_raise, attr_kept_refl. Qed.

Lemma kept_get_stage : post (attr_kept a) get_stage.
Proof. apply post_get_stage, attr_kept_refl. Qed.

Lemma kept_warning msg : post (attr_kept a) (warning msg).
Proof. apply post_warning, attr_kept_refl. Qed.

Lemma kept_bind {X Y} (m : M X) (k : X -> M Y) :
  post (attr_kept a) m -> (forall x, post (attr_kept a) (k x)) ->
  post (attr_kept a) (bind m k).
Proof. apply post_bind, attr_kept_trans. Qed.

Lemma kept_when c m : post (attr_kept a) m -> post (attr_kept a) (when c m).
Proof. apply post_when, attr_kept_refl. Qed.

Lemma kept_when_some {X} (o : option X) body :
  (forall x, post (attr_kept a) (body x)) -> post (attr_kept a) (when_some o body).
Proof. apply post_when_some, attr_kept_refl. Qed.

Lemma kept_for_each {X} (l : list X) body :
  (forall x, post (attr_kept a) (body x)) -> post (attr_kept a) (for_each l body).
Proof. apply post_for_each; [apply attr_kept_refl | apply attr_kept_trans]. Qed.

Lemma kept_define ty path : post (attr_kept a) (define ty path).
Proof.
  intros s q. unfold define, Usd.Define, final.
  destruct (Sdf.is_prim_path path); cbn [fst snd]; rewrite ?attr_define; reflexivity.
Qed.

Lemma kept_set_target r target prim_path : post (attr_kept a) (set_target r target prim_path).
Proof.
  intros s q. unfold set_target, final.
  destruct (Sdf.is_prim_path target); cbn [fst snd]; [| reflexivity].
  apply attr_edit_other. reflexivity.
Qed.

Lemma kept_add_api api path :
  post (attr_kept a) (modify_stage (Usd.edit (Usd.add_api api) path)).
Proof. intros s q. apply attr_edit_other. reflexivity. Qed.

Lemma kept_set_attr b v path :
  b <> a -> post (attr_kept a) (modify_stage (Usd.edit (Usd.set_attr b v) path)).
Proof.
  intros Hne s q. apply attr_edit_other. intros p. apply lookup_insert_ne, Hne.
Qed.

End AttributeFrame.

Ltac keep_step :=
  lazymatch goal with
  | |- Frame.post _ (Eff.bind _ _) => apply kept_bind; [| intros ?]
  | |- Frame.post _ (Eff.ret _) => apply kept_ret
  | |- Frame.post _ (Eff.raise _) => apply kept_raise
  | |- Frame.post _ Eff.get_stage => apply kept_get_stage
  | |- Frame.post _ (Eff.warning _) => apply kept_warning
  | |- Frame.post _ (Eff.when _ _) => apply kept_when
  | |- Frame.post _ (Eff.when_some _ _) => apply kept_when_some; intros ?
  | |- Frame.post _ (Eff.define _ _) => apply kept_define
  | |- Frame.post _ (Eff.set_target _ _ _) => apply kept_set_target
  | |- Frame.post _ (Eff.modify_stage (Usd.edit (Usd.add_api _) _)) => apply kept_add_api
  | |- Frame.post _ (Eff.modify_stage (Usd.edit (Usd.set_attr _ _) _)) =>
      apply kept_set_attr;
      let E := fresh in intros E; vm_compute in E; discriminate E
  | |- Frame.post _ (if ?c then _ else _) => destruct c
  | |- Frame.post _ (match ?o with _ => _ end) => destruct o
  end.

Ltac part_attribute H :=
  cbv [Frame.part_attributes In] in H;
  repeat (destruct H as [<- | H]); [.. | destruct H].

Section AttributesOfInjection.
Import Eff Frame PhysicsInjector.

Variable a : string.
Hypothesis part_attribute_a : In a part_attributes.

Lemma kept_inject_root parts part_paths : post (attr_kept a) (inject_root parts part_paths).
Proof.
  unfold inject_root, apply_articulation_root, get_valid_prim. cbv zeta.
  repeat keep_step.
Qed.

Lemma kept_inject_joint part_paths joint :
  post (attr_kept a) (inject_joint part_paths joint).
Proof.
  pose proof part_attribute_a as Ha.
  unfold inject_joint, create_revolute_joint, create_prismatic_joint, create_fixed_joint,
    joints_parent, set_bodies, set_limits, set_local_poses, _apply_joint_drive.
  cbv zeta. part_attribute Ha; repeat keep_step.
Qed.

End AttributesOfInjection.

(** ** An empty part list *)

Section EmptyParts.
Import Eff Frame PhysicsInjector.

Lemma inject_physics_no_parts self name joints part_paths :
  inject_physics self (ArticulationData.mk name [] joints) part_paths
  = (inject_root [] part_paths ;;;
     ret tt ;;;
     for_each joints (inject_joint part_paths))%eff.
Proof. reflexivity. Qed.

Lemma grow_no_parts self name joints part_paths :
  post (apis_grow_by (root_apis ∪ drive_apis))
    (inject_physics self (ArticulationData.mk name [] joints) part_paths).
Proof.
  rewrite inject_physics_no_parts.
  apply grow_bind; [| intros _; apply grow_bind; [apply grow_ret | intros _]].
  - apply (grow_weaken _ root_apis); [set_solver | apply grow_inject_root].
  - apply grow_for_each. intros joint.
    apply (grow_weaken _ drive_apis); [set_solver | apply grow_inject_joint].
Qed.

Lemma kept_no_parts self name joints part_paths a :
  In a part_attributes ->
  post (attr_kept a) (inject_physics self (ArticulationData.mk name [] joints) part_paths).
Proof.
  intros Ha. rewrite inject_physics_no_parts.
  apply kept_bind; [| intros _; apply kept_bind; [apply kept_ret | intros _]].
  - apply kept_inject_root.
  - apply kept_for_each. intros joint. apply kept_inject_joint, Ha.
Qed.

Lemma part_api_not_root_or_drive api :
  api ∈ part_apis -> api ∉ root_apis ∪ drive_apis.
Proof. unfold part_apis, root_apis, drive_apis. set_solver. Qed.

Lemma all_dropped_empty joints : forallb (fun j => negb (admitted [] j)) joints = true.
Proof. induction joints as [| j js IH]; [reflexivity | exact IH]. Qed.

(** With no part the run is the root marking and then the joint loop. *)
Lemma no_parts_marked self name joints k p rest s :
  Usd.is_valid s p = true ->
  inject_physics self (ArticulationData.mk name [] joints) ((k, p) :: rest) s
  = for_each joints (inject_joint ((k, p) :: rest))
      (Usd.edit (Usd.add_api Usd.ArticulationRootAPI) p s).
Proof.
  intros Hv. rewrite inject_physics_no_parts.
  assert (Hroot : inject_root [] ((k, p) :: rest) s
                  = (Ok tt, Usd.edit (Usd.add_api Usd.ArticulationRootAPI) p s, [])).
  { unfold inject_root. cbn [_find_base_part PyDict.values map snd].
    apply apply_articulation_root_run, Hv. }
  rewrite (bind_quiet_run _ _ _ _ _ Hroot).
  exact (bind_quiet_run (ret tt) (fun _ => for_each joints (inject_joint ((k, p) :: rest)))
           _ tt _ eq_refl).
Qed.

Lemma typeName_defined ty s path : Usd.typeName (Written.defined ty s path) = ty.
Proof. unfold Written.defined. destruct (Usd.prims s !! path); reflexivity. Qed.

(** A joint the loop writes and no later joint overwrites is found as
    it was written when the loop is over. *)
Lemma joint_placed_after_loop part_paths before joint after s :
  JointPrim.written part_paths joint = true ->
  Forall (fun later => JointPrim.overwrites part_paths joint later = false) after ->
  exists q,
    Doc.prim_at (JointPrim.loop_stage part_paths (before ++ joint :: after) s)
      (Written.joint_path s (Joint.name joint)) = Some q
    /\ Usd.typeName q = JointPrim.prim_type (Joint.type joint)
    /\ JointPrim.placed (item part_paths (Joint.parent joint))
         (item part_paths (Joint.child joint)) q.
Proof.
  intros Hw Hlater. rewrite loop_stage_app. cbn [JointPrim.loop_stage fold_left].
  fold (JointPrim.loop_stage part_paths before s).
  fold (JointPrim.loop_stage part_paths after
          (JointPrim.stage_after part_paths joint (JointPrim.loop_stage part_paths before s))).
  rewrite <- (joint_path_loop_stage part_paths before s (Joint.name joint)).
  set (s1 := JointPrim.loop_stage part_paths before s).
  rewrite <- (joint_path_stage_after part_paths joint s1 (Joint.name joint)).
  rewrite (prim_at_loop_stage_kept _ _ _ _ Hlater), joint_path_stage_after.
  destruct (prim_at_stage_after part_paths joint s1 Hw) as (writes & Hd & ->).
  eexists. split; [reflexivity |].
  unfold JointPrim.written in Hw. apply andb_true_iff in Hw as [_ Hk].
  destruct (dispatch_known part_paths joint Hk) as (writes' & Hd' & Hrd).
  rewrite Hd in Hd'. injection Hd' as <-.
  destruct (Hrd (Written.defined (JointPrim.prim_type (Joint.type joint)) s1
                   (Written.joint_path s1 (Joint.name joint)))) as [Hty Hpl].
  split; [rewrite Hty; apply typeName_defined | exact Hpl].
Qed.

(** C1 (amended). With an empty part list the per-part annotation is
    skipped: whether the run returns or raises, no rigid-body, mass or
    collision API is added to any node and none of the attributes the
    annotation of a part writes is added or changed.  The rest of the
    step still runs.  With an empty path map the document is left as it
    was and nothing is raised; every joint is dropped with its warning.
    With a non-empty path map and no prim at the path of its first
    entry, [ValueError] is raised and the document is left as it was.
    With a prim there, that node is marked as articulation root and the
    joint loop runs on the marked document: it returns when the library
    accepts the paths of the joints, and when the run returns, every
    joint of type revolute, prismatic or fixed whose ends are keys of
    the map has a joint node at [<root>/Joints/<sanitized name>], which
    holds the prim type of the joint's type and the paths of its parent
    and child unless a later joint took the same node. *)
Theorem empty_part_list (self : t) (name : string) (joints : list Joint.t)
    (part_paths : PyDict.dict string) (s : Usd.Stage) :
  let run := inject_physics self (ArticulationData.mk name [] joints) part_paths s in
  (forall q api, api ∈ part_apis -> Doc.has_api (final run) q api = Doc.has_api s q api)
  /\ (forall q a, In a part_attributes -> Doc.attr (final run) q a = Doc.attr s q a)
  /\ (part_paths = [] -> run = (Ok tt, s, map dropped_warning joints))
  /\ (forall k p rest,
        part_paths = (k, p) :: rest -> Usd.is_valid s p = false ->
        run = (Raise (ValueError ("Prim not found: " +:+ p)), s, []))
  /\ (forall k p rest,
        part_paths = (k, p) :: rest -> Usd.is_valid s p = true ->
        let marked := Usd.edit (Usd.add_api Usd.ArticulationRootAPI) p s in
        Doc.has_api (final run) p Usd.ArticulationRootAPI = true
        /\ (JointPrim.loop_accepted part_paths joints marked = true ->
            result run = Ok tt
            /\ warnings run
               = map dropped_warning
                   (List.filter (fun j => negb (admitted part_paths j)) joints))
        /\ (result run = Ok tt ->
            forall joint,
              In joint joints -> JointPrim.written part_paths joint = true ->
              exists node,
                Doc.prim_at (final run) (Written.joint_path s (Joint.name joint)) = Some node
                /\ Usd.is_joint_type (Usd.typeName node) = true)
        /\ (result run = Ok tt ->
            forall before joint after,
              joints = before ++ joint :: after ->
              JointPrim.written part_paths joint = true ->
              Forall (fun later => JointPrim.overwrites part_paths joint later = false)
                after ->
              exists node,
                Doc.prim_at (final run) (Written.joint_path s (Joint.name joint)) = Some node
                /\ Usd.typeName node = JointPrim.prim_type (Joint.type joint)
                /\ JointPrim.placed (item part_paths (Joint.parent joint))
                     (item part_paths (Joint.child joint)) node)).
Proof.
  cbv zeta. split; [| split; [| split; [| split]]].
  - intros q api Hapi.
    apply (grow_has_api _ _ _ _ _ (grow_no_parts self name joints part_paths s)).
    apply part_api_not_root_or_drive, Hapi.
  - intros q a Ha. apply (kept_no_parts self name joints part_paths a Ha s).
  - intros ->. rewrite inject_physics_no_parts.
    unfold inject_root. cbn [_find_base_part PyDict.values map].
    rewrite (bind_quiet_run (ret tt) _ s tt s eq_refl).
    rewrite (bind_quiet_run (ret tt) _ s tt s eq_refl).
    apply joint_loop_all_dropped, all_dropped_empty.
  - intros k p rest -> Hv. rewrite inject_physics_no_parts. unfold bind at 1.
    unfold inject_root. cbn [_find_base_part PyDict.values map snd].
    rewrite (apply_articulation_root_raise _ _ Hv). reflexivity.
  - intros k p rest -> Hv.
    split.
    { apply (root_marked self (ArticulationData.mk name [] joints) ((k, p) :: rest) s p);
        [reflexivity | exact Hv]. }
    rewrite (no_parts_marked self name joints k p rest s Hv).
    set (marked := Usd.edit (Usd.add_api Usd.ArticulationRootAPI) p s).
    split.
    { intros Hacc. rewrite (joint_loop_written _ _ _ Hacc). split; reflexivity. }
    assert (Hret : result (for_each joints (inject_joint ((k, p) :: rest)) marked) = Ok tt ->
                   final (for_each joints (inject_joint ((k, p) :: rest)) marked)
                   = JointPrim.loop_stage ((k, p) :: rest) joints marked).
    { intros Hok.
      destruct (for_each joints (inject_joint ((k, p) :: rest)) marked)
        as [[r s'] l] eqn:E.
      cbn [result final fst snd] in *. subst r.
      destruct (joint_loop_returned _ _ _ _ _ E) as (_ & -> & _). reflexivity. }
    split.
    + intros Hok joint Hin Hw. rewrite (Hret Hok).
      apply (joint_node_after_loop ((k, p) :: rest) joints joint marked Hin Hw).
    + intros Hok before joint after -> Hw Hlater. rewrite (Hret Hok).
      apply (joint_placed_after_loop ((k, p) :: rest) before joint after marked Hw Hlater).
Qed.

End EmptyParts.

Section EmptyPartsExamples.
Import Eff Frame PhysicsInjector Examples.

(** The statement of the specification fails: with no part but the path map of the
    built document, the first node is marked as articulation root and
    the joint between the two nodes gets its prim. *)
Lemma empty_part_list_still_annotates :
  ~ (forall (name : string) (joints : list Joint.t) (part_paths : PyDict.dict string)
            (s : Usd.Stage),
       let run :=
         inject_physics physics_injector (ArticulationData.mk name [] joints) part_paths s in
       result run = Ok tt
       /\ (forall q, Doc.has_api (final run) q Usd.ArticulationRootAPI
                     = Doc.has_api s q Usd.ArticulationRootAPI)
       /\ size (Doc.joint_paths (final run)) = size (Doc.joint_paths s)).
Proof.
  intros H.
  specialize (H "robot" [joint "j" "a" "b" "revolute"] paths doc).
  cbv zeta in H. destruct H as (_ & Hroot & Hjoints).
  specialize (Hroot "/robot/a"). vm_compute in Hroot. discriminate Hroot.
Qed.

Lemma no_parts_run :
  let run := inject_physics physics_injector no_parts_art paths doc in
  JointPrim.loop_accepted paths (ArticulationData.joints no_parts_art)
    (Usd.edit (Usd.add_api Usd.ArticulationRootAPI) "/robot/a" doc) = true
  /\ result run = Ok tt
  /\ Doc.has_api (final run) "/robot/a" Usd.ArticulationRootAPI = true
  /\ elements (Doc.joint_paths (final run)) = ["/robot/Joints/j"]
  /\ Doc.type_at (final run) "/robot/Joints/j" = Some Usd.PhysicsRevoluteJoint
  /\ Doc.rel (final run) "/robot/Joints/j" "physics:body0" = Some ["/robot/a"]
  /\ Doc.rel (final run) "/robot/Joints/j" "physics:body1" = Some ["/robot/b"]
  /\ Doc.has_api (final run) "/robot/a" Usd.RigidBodyAPI = false
  /\ Doc.attr (final run) "/robot/a" "physics:density" = None.
Proof. vm_compute. repeat split; reflexivity. Qed.

(** With a path entry that points at no prim the step raises. *)
Lemma no_parts_missing_prim_raises :
  result (inject_physics physics_injector no_parts_art [("b", "/robot/b")] one_prim)
  = Raise (ValueError "Prim not found: /robot/b").
Proof. vm_compute. reflexivity. Qed.

(** With a joint name the library rejects the step raises after the
    root marking. *)
Lemma no_parts_rejected_joint_raises :
  let run :=
    inject_physics physics_injector
      (ArticulationData.mk "robot" []
         [joint (String "j" (String "178" EmptyString)) "a" "b" "fixed"]) paths doc in
  result run = Raise TfErrorException
  /\ Doc.has_api (final run) "/robot/a" Usd.ArticulationRootAPI = true.
Proof. vm_compute. split; reflexivity. Qed.

End EmptyPartsExamples.

(** ** Mass and density *)

Section MassAndDensity.
Import Eff PhysicsInjector Examples.

(** What the annotation of a part leaves of mass and density on its
    node: with a mass, the mass in single precision, the density
    attribute as it was; without, the density the guard
    [density or default_density] picks, in single precision, the mass
    attribute as it was. *)
Lemma mass_properties_written (self : t) (part_paths : PyDict.dict string) (part : Part.t)
    (prim_path : string) (s : Usd.Stage) :
  PyDict.get part_paths (Part.id part) = Some prim_path ->
  Usd.is_valid s prim_path = true ->
  let run := inject_part self part_paths part s in
  result run = Ok tt
  /\ match Part.mass part with
     | Some m =>
         Doc.attr (final run) prim_path "physics:mass" = Some (Usd.Float m)
         /\ Doc.attr (final run) prim_path "physics:density"
            = Doc.attr s prim_path "physics:density"
     | None =>
         Doc.attr (final run) prim_path "physics:density"
         = Some (Usd.Float (density_or_default self (Part.density part)))
         /\ Doc.attr (final run) prim_path "physics:mass"
            = Doc.attr s prim_path "physics:mass"
     end.
Proof.
  intros Hget Hvalid.
  destruct (is_valid_Some _ _ Hvalid) as [p Hp].
  destruct (inject_part_run self part_paths part prim_path s p Hget Hp)
    as (s1 & s2 & Hrb & Hrun & Hcol).
  destruct (apply_rigid_body_run self prim_path (String.eqb (Part.type part) "base")
              (Part.mass part) (Part.density part) (Part.center_of_mass part) s p Hp)
    as (s1' & p' & Hrb' & _ & _ & Hp' & _ & _ & Hmass & Hdens & _).
  rewrite Hrb in Hrb'. injection Hrb' as <-.
  assert (H2 : Doc.prim_at s2 prim_path = Some p').
  { destruct (Doc.prim_at s (prim_path +:+ "/mesh")) as [pm |] eqn:Epm; [| congruence].
    assert (Hpm1 : exists pm1, Doc.prim_at s1 (prim_path +:+ "/mesh") = Some pm1).
    { destruct (Doc.prim_at s1 (prim_path +:+ "/mesh")) eqn:E1; [eauto |].
      unfold apply_collision, bind in Hcol.
      rewrite (get_valid_prim_raise _ _ E1) in Hcol. discriminate Hcol. }
    destruct Hpm1 as [pm1 Hpm1].
    destruct (apply_collision_run (prim_path +:+ "/mesh") (Part.collision_type part) s1 pm1 Hpm1)
      as (s2' & pm' & Hcol' & Hframe & _).
    rewrite Hcol in Hcol'. injection Hcol' as <-.
    rewrite Hframe; [exact Hp' |]. intros E. exact (mesh_path_ne _ (eq_sym E)). }
  cbv zeta. rewrite Hrun. unfold result, final, Doc.attr. cbn [fst snd].
  rewrite H2, Hp.
  split; [reflexivity |]. rewrite density_or_default_spec.
  destruct (Part.mass part); split; assumption.
Qed.

(** The specification's example: a part with [mass = 2.5] and
    [density = 500] on the sample document records mass 2.5 and no
    density attribute. *)
Lemma mass_before_density :
  let run := inject_part physics_injector paths
               (part "a" "link" (Some 2.5%float) (Some 500%float) "convexHull") doc in
  Doc.attr (final run) "/robot/a" "physics:mass" = Some (Usd.VFloat 2.5%float)
  /\ Doc.attr (final run) "/robot/a" "physics:density" = None.
Proof. vm_compute. split; reflexivity. Qed.

(** C8, on the code.  A part with no mass and density [0.0] on the
    sample document: the annotation returns and the node records the
    density 1000 of the injector's default, not the part's, because
    [density or self.default_density] takes a zero for a missing
    density.  The sibling test [mass is not None] does not: a part with
    mass [0.0] has that mass recorded, and a part with no mass and
    density 500 has that density recorded. *)
Theorem zero_density_replaced :
  let zero_density := part "a" "link" None (Some 0%float) "convexHull" in
  let zero_mass := part "a" "link" (Some 0%float) (Some 500%float) "convexHull" in
  let light := part "a" "link" None (Some 500%float) "convexHull" in
  Part.validate zero_density = true
  /\ result (inject_part physics_injector paths zero_density doc) = Ok tt
  /\ Doc.attr (final (inject_part physics_injector paths zero_density doc))
       "/robot/a" "physics:density" = Some (Usd.VFloat 1000%float)
  /\ Doc.attr (final (inject_part physics_injector paths zero_density doc))
       "/robot/a" "physics:mass" = None
  /\ Doc.attr (final (inject_part physics_injector paths zero_mass doc))
       "/robot/a" "physics:mass" = Some (Usd.VFloat 0%float)
  /\ Doc.attr (final (inject_part physics_injector paths zero_mass doc))
       "/robot/a" "physics:density" = None
  /\ Doc.attr (final (inject_part physics_injector paths light doc))
       "/robot/a" "physics:density" = Some (Usd.VFloat 500%float).
Proof. vm_compute. repeat split; reflexivity. Qed.

(** The attribute holds the single-precision value nearest to the one
    given. *)
Lemma mass_in_single_precision :
  Doc.attr (final (inject_part physics_injector paths
                     (part "a" "link" (Some 0.1%float) None "convexHull") doc))
    "/robot/a" "physics:mass" = Some (Usd.VFloat 0.10000000149011612%float).
Proof. vm_compute. reflexivity. Qed.

End MassAndDensity.

(** ** The document builder *)

Section BuilderExamples.
Import Eff USDBuilder Examples.

(** The build of two mesh nodes with names of their own: two transform
    nodes under the root, each with its mesh child, one physics scene,
    one path per mesh id. *)
Lemma two_shapes_built :
  let run := build_from_parts usd_builder "robot.usda" "robot" two_shapes [] in
  result run = Ok [("a", "/robot/a"); ("b", "/robot/b")]
  /\ elements (Doc.transform_paths (final run)) = ["/robot/a"; "/robot/b"]
  /\ elements (Doc.children_of_type Usd.Mesh (final run) "/robot/a") = ["/robot/a/mesh"]
  /\ elements (Doc.children_of_type Usd.Mesh (final run) "/robot/b") = ["/robot/b/mesh"]
  /\ elements (Doc.paths_of_type Usd.PhysicsScene (final run)) = ["/robot/PhysicsScene"]
  /\ Doc.attr (final run) "/robot/a/mesh" "faceVertexCounts" = Some (Usd.VIntArray [3%Z])
  /\ Doc.attr (final run) "/robot/b/mesh" "faceVertexCounts"
     = Some (Usd.VIntArray [3%Z; 3%Z]).
Proof. vm_compute. repeat split; reflexivity. Qed.

(** C5, on the code.  The same two mesh nodes with part metadata that
    displays both as [Arm]: the build returns a path map with one entry
    per mesh id, but both entries name [/robot/Arm], the document has
    one transform node for the two meshes, and its one mesh child holds
    the geometry of the second mesh; that of the first is gone. *)
Theorem same_name_parts_share_a_node :
  let run := build_from_parts usd_builder "robot.usda" "robot" two_shapes same_names in
  NoDup (PyDict.keys two_shapes)
  /\ length two_shapes = 2
  /\ result run = Ok [("a", "/robot/Arm"); ("b", "/robot/Arm")]
  /\ elements (Doc.transform_paths (final run)) = ["/robot/Arm"]
  /\ size (Doc.transform_paths (final run)) = 1
  /\ elements (Doc.paths_of_type Usd.Mesh (final run)) = ["/robot/Arm/mesh"]
  /\ Doc.attr (final run) "/robot/Arm/mesh" "points"
     = Some (Usd.VVec3fArray (vertices quad))
  /\ Doc.attr (final run) "/robot/Arm/mesh" "faceVertexCounts"
     = Some (Usd.VIntArray [3%Z; 3%Z]).
Proof.
  cbv zeta. split.
  { apply (bool_decide_unpack _). vm_compute. exact I. }
  vm_compute. repeat split; reflexivity.
Qed.

(** A part displayed as [PhysicsScene] takes over the physics-scene
    node: the document is left with none. *)
Lemma part_named_like_the_scene :
  size (Doc.paths_of_type Usd.PhysicsScene
          (final (build_from_parts usd_builder "robot.usda" "robot" two_meshes
                    [mkPartInfo "a" [("name", "PhysicsScene")]]))) = 0.
Proof. vm_compute. reflexivity. Qed.

(** A face index that does not fit 32 bits: the build raises. *)
Lemma face_index_out_of_range :
  result (build_from_parts usd_builder "robot.usda" "robot"
            [("a", mkMeshData (vertices triangle) [(0, 1, 2147483648)%Z] None)] [])
  = Raise OverflowError.
Proof. vm_compute. reflexivity. Qed.

(** The stage metadata and the gravity of a built document. *)
Lemma built_metadata :
  Usd.upAxis doc = "Z"
  /\ Usd.defaultPrim doc = "/robot"
  /\ Doc.attr doc "/robot/PhysicsScene" "physics:gravityMagnitude"
     = Some (Usd.VFloat 9.8100004196166992%float).
Proof. vm_compute. repeat split; reflexivity. Qed.

End BuilderExamples.
